(** * Convex / TanStack DB collection adapter: model and verified properties

    The development follows the TypeScript sources:
    - [serialization.ts]   value codec ([serializeValue], [deserializeValue],
                           [toKey], [fromKey]);
    - [expression-parser.ts] predicate extractor ([walkExpression],
                           [extractFilterValues], [extractMultipleFilterValues]);
    - [ConvexSyncManager.ts] the sync manager (reference-counted filter
                           tracking, debounced batches, last-write-wins
                           reconciliation);
    - [index.ts]           the collection adapter ([loadSubset]).

    Conventions of the embedding.
    - [value] holds the data values: every JavaScript value built without
      a bigint, a function or a symbol.  The sync manager and the adapter
      are modelled on data values, on which [toKey] always returns a
      string.  Module [Any] models the codec and the extractor on every
      JavaScript value, where [toKey] can throw or return [undefined];
      lemmas [toKey_data] and [extractFilterValues_data] show that the two
      agree on data values.
    - JavaScript numbers that are finite are integers ([Z]); the three
      non-finite doubles are separate constructors.
    - Strings are byte strings.
    - A plain object is the list of its entries in property order.
    - [JSON.stringify] and [JSON.parse] are runtime built-ins; they are
      modelled concretely for the compact text that [JSON.stringify] emits
      (no insignificant white space, integer number tokens). *)

From Stdlib Require Import ZArith List String Ascii Bool Lia.
From Stdlib Require Import Decimal DecimalString DecimalZ DecimalFacts.
From Stdlib Require OrderedTypeEx.
From stdpp Require Import gmap strings list fin_maps.

Open Scope string_scope.

(** ** JSON text *)

Module Json.

Unset Elimination Schemes.
Inductive json : Type :=
| JNull
| JBool (b : bool)
| JNum (n : Z)
| JStr (s : string)
| JArr (elems : list json)
| JObj (members : list (string * json)).
Set Elimination Schemes.

Definition dquote : ascii := "034"%char.
Definition bslash : ascii := "092"%char.

Definition hex_digit (n : N) : ascii :=
  match n with
  | 0 => "0" | 1 => "1" | 2 => "2" | 3 => "3" | 4 => "4" | 5 => "5"
  | 6 => "6" | 7 => "7" | 8 => "8" | 9 => "9" | 10 => "a" | 11 => "b"
  | 12 => "c" | 13 => "d" | 14 => "e" | _ => "f"
  end%N%char.

Definition of_hex (c : ascii) : option N :=
  let n := N_of_ascii c in
  if ((48 <=? n) && (n <=? 57))%N then Some (n - 48)%N
  else if ((97 <=? n) && (n <=? 102))%N then Some (n - 87)%N
  else if ((65 <=? n) && (n <=? 70))%N then Some (n - 55)%N
  else None.

(** QuoteJSONString, one code unit at a time. *)
Definition quote_char (c : ascii) : string :=
  let n := N_of_ascii c in
  if (n =? 8)%N then String bslash "b"
  else if (n =? 9)%N then String bslash "t"
  else if (n =? 10)%N then String bslash "n"
  else if (n =? 12)%N then String bslash "f"
  else if (n =? 13)%N then String bslash "r"
  else if (n =? 34)%N then String bslash (String dquote "")
  else if (n =? 92)%N then String bslash (String bslash "")
  else if (n <? 32)%N then
    String bslash
      (String "u" (String "0" (String "0"
         (String (hex_digit (n / 16)) (String (hex_digit (n mod 16)) "")))))
  else String c "".

Fixpoint quote_body (s : string) : string :=
  match s with
  | EmptyString => ""
  | String c s' => quote_char c ++ quote_body s'
  end.

Definition quote (s : string) : string :=
  String dquote (quote_body s ++ String dquote "").

Definition print_num (n : Z) : string := NilZero.string_of_int (Z.to_int n).

(** [JSON.stringify] on a JSON-safe tree. *)
Fixpoint stringify (j : json) : string :=
  match j with
  | JNull => "null"
  | JBool true => "true"
  | JBool false => "false"
  | JNum n => print_num n
  | JStr s => quote s
  | JArr elems =>
      "[" ++
      (fix elements (l : list json) : string :=
         match l with
         | [] => "]"
         | [x] => stringify x ++ "]"
         | x :: rest => stringify x ++ "," ++ elements rest
         end) elems
  | JObj members =>
      "{" ++
      (fix props (l : list (string * json)) : string :=
         match l with
         | [] => "}"
         | [(k, v)] => quote k ++ ":" ++ stringify v ++ "}"
         | (k, v) :: rest => quote k ++ ":" ++ stringify v ++ "," ++ props rest
         end) members
  end.

Fixpoint print_elements (l : list json) : string :=
  match l with
  | [] => "]"
  | [x] => stringify x ++ "]"
  | x :: rest => stringify x ++ "," ++ print_elements rest
  end.

Fixpoint print_members (l : list (string * json)) : string :=
  match l with
  | [] => "}"
  | [(k, v)] => quote k ++ ":" ++ stringify v ++ "}"
  | (k, v) :: rest => quote k ++ ":" ++ stringify v ++ "," ++ print_members rest
  end.

(** *** Parsing *)

(** The characters of a string literal up to its closing quote. *)
Fixpoint parse_string_body (s : string) : option (string * string) :=
  match s with
  | EmptyString => None
  | String c s' =>
      if Ascii.eqb c dquote then Some ("", s')
      else if Ascii.eqb c bslash then
        match s' with
        | String e s'' =>
            let simple (x : ascii) :=
              match parse_string_body s'' with
              | Some (str, rest) => Some (String x str, rest)
              | None => None
              end in
            if Ascii.eqb e dquote then simple dquote
            else if Ascii.eqb e bslash then simple bslash
            else if Ascii.eqb e "/" then simple "/"%char
            else if Ascii.eqb e "b" then simple "008"%char
            else if Ascii.eqb e "t" then simple "009"%char
            else if Ascii.eqb e "n" then simple "010"%char
            else if Ascii.eqb e "f" then simple "012"%char
            else if Ascii.eqb e "r" then simple "013"%char
            else if Ascii.eqb e "u" then
              match s'' with
              | String h1 (String h2 (String h3 (String h4 s4))) =>
                  match of_hex h1, of_hex h2, of_hex h3, of_hex h4 with
                  | Some a, Some b, Some c', Some d =>
                      let code := (((a * 16 + b) * 16 + c') * 16 + d)%N in
                      if (code <? 256)%N then
                        match parse_string_body s4 with
                        | Some (str, rest) =>
                            Some (String (ascii_of_N code) str, rest)
                        | None => None
                        end
                      else None
                  | _, _, _, _ => None
                  end
              | _ => None
              end
            else None
        | EmptyString => None
        end
      else if (N_of_ascii c <? 32)%N then None
      else
        match parse_string_body s' with
        | Some (str, rest) => Some (String c str, rest)
        | None => None
        end
  end.

Definition digit_of_char (c : ascii) : option (uint -> uint) :=
  match c with
  | "0" => Some D0 | "1" => Some D1 | "2" => Some D2 | "3" => Some D3
  | "4" => Some D4 | "5" => Some D5 | "6" => Some D6 | "7" => Some D7
  | "8" => Some D8 | "9" => Some D9 | _ => None
  end%char.

(** The longest run of decimal digits at the head of [s]. *)
Fixpoint parse_digits (s : string) : uint * string :=
  match s with
  | EmptyString => (Nil, s)
  | String c s' =>
      match digit_of_char c with
      | Some d => let (ds, rest) := parse_digits s' in (d ds, rest)
      | None => (Nil, s)
      end
  end.

(** What may follow an integer token: anything but a fraction or an
    exponent (those tokens denote doubles the model does not cover). *)
Definition number_ends (rest : string) : bool :=
  match rest with
  | EmptyString => true
  | String c _ =>
      negb (Ascii.eqb c "." || Ascii.eqb c "e" || Ascii.eqb c "E")%char
  end.

Definition parse_number (s : string) : option (json * string) :=
  let (neg, s1) :=
    match s with
    | String c s' => if Ascii.eqb c "-" then (true, s') else (false, s)
    | EmptyString => (false, s)
    end in
  let (ds, rest) := parse_digits s1 in
  match ds with
  | Nil => None
  | _ =>
      let i := if neg then Neg ds else Pos ds in
      if int_eq_dec (norm i) i then
        if number_ends rest then Some (JNum (Z.of_int i), rest) else None
      else None
  end.

Fixpoint expect (lit s : string) : option string :=
  match lit with
  | EmptyString => Some s
  | String c lit' =>
      match s with
      | String c' s' => if Ascii.eqb c c' then expect lit' s' else None
      | EmptyString => None
      end
  end.

(** Object assignment [o[k] = v] on an entry list. *)
Fixpoint obj_set {A} (k : string) (v : A) (o : list (string * A))
  : list (string * A) :=
  match o with
  | [] => [(k, v)]
  | (k', v') :: rest =>
      if String.eqb k' k then (k', v) :: rest else (k', v') :: obj_set k v rest
  end.

Fixpoint obj_get {A} (k : string) (o : list (string * A)) : option A :=
  match o with
  | [] => None
  | (k', v) :: rest => if String.eqb k' k then Some v else obj_get k rest
  end.

Definition obj_of_entries {A} (es : list (string * A)) : list (string * A) :=
  fold_left (fun o kv => obj_set (fst kv) (snd kv) o) es [].

Fixpoint parse_value (fuel : nat) (s : string) : option (json * string) :=
  match fuel with
  | O => None
  | S fuel' =>
      match s with
      | EmptyString => None
      | String c s' =>
          if Ascii.eqb c "n" then
            match expect "ull" s' with
            | Some rest => Some (JNull, rest) | None => None end
          else if Ascii.eqb c "t" then
            match expect "rue" s' with
            | Some rest => Some (JBool true, rest) | None => None end
          else if Ascii.eqb c "f" then
            match expect "alse" s' with
            | Some rest => Some (JBool false, rest) | None => None end
          else if Ascii.eqb c dquote then
            match parse_string_body s' with
            | Some (str, rest) => Some (JStr str, rest) | None => None end
          else if Ascii.eqb c "[" then
            match s' with
            | String c2 rest =>
                if Ascii.eqb c2 "]" then Some (JArr [], rest)
                else
                  match parse_elements fuel' s' with
                  | Some (l, rest') => Some (JArr l, rest') | None => None end
            | EmptyString => None
            end
          else if Ascii.eqb c "{" then
            match s' with
            | String c2 rest =>
                if Ascii.eqb c2 "}" then Some (JObj [], rest)
                else
                  match parse_members fuel' s' with
                  | Some (l, rest') => Some (JObj (obj_of_entries l), rest')
                  | None => None
                  end
            | EmptyString => None
            end
          else parse_number s
      end
  end
with parse_elements (fuel : nat) (s : string) : option (list json * string) :=
  match fuel with
  | O => None
  | S fuel' =>
      match parse_value fuel' s with
      | Some (v, String c rest) =>
          if Ascii.eqb c "," then
            match parse_elements fuel' rest with
            | Some (vs, rest') => Some (v :: vs, rest') | None => None end
          else if Ascii.eqb c "]" then Some ([v], rest)
          else None
      | _ => None
      end
  end
with parse_members (fuel : nat) (s : string)
  : option (list (string * json) * string) :=
  match fuel with
  | O => None
  | S fuel' =>
      match s with
      | String q s1 =>
          if Ascii.eqb q dquote then
            match parse_string_body s1 with
            | Some (k, String colon s2) =>
                if Ascii.eqb colon ":" then
                  match parse_value fuel' s2 with
                  | Some (v, String c rest) =>
                      if Ascii.eqb c "," then
                        match parse_members fuel' rest with
                        | Some (ms, rest') => Some ((k, v) :: ms, rest')
                        | None => None
                        end
                      else if Ascii.eqb c "}" then Some ([(k, v)], rest)
                      else None
                  | _ => None
                  end
                else None
            | _ => None
            end
          else None
      | EmptyString => None
      end
  end.

(** [JSON.parse]: [None] stands for the [SyntaxError] it throws. *)
Definition parse (s : string) : option json :=
  match parse_value (S (String.length s)) s with
  | Some (j, EmptyString) => Some j
  | _ => None
  end.

Definition json_ind (P : json -> Prop)
  (Hnull : P JNull) (Hbool : forall b, P (JBool b))
  (Hnum : forall n, P (JNum n)) (Hstr : forall s, P (JStr s))
  (Harr : forall l, Forall P l -> P (JArr l))
  (Hobj : forall m, Forall (fun kv => P (snd kv)) m -> P (JObj m))
  : forall j, P j :=
  fix go (j : json) : P j :=
    match j with
    | JNull => Hnull
    | JBool b => Hbool b
    | JNum n => Hnum n
    | JStr s => Hstr s
    | JArr l =>
        Harr l ((fix all (l : list json) : Forall P l :=
                   match l with
                   | [] => List.Forall_nil P
                   | x :: r => @List.Forall_cons _ P x r (go x) (all r)
                   end) l)
    | JObj m =>
        Hobj m ((fix all (m : list (string * json))
                   : Forall (fun kv => P (snd kv)) m :=
                   match m with
                   | [] => List.Forall_nil _
                   | kv :: r => @List.Forall_cons _ _ kv r (go (snd kv)) (all r)
                   end) m)
    end.

(** Every object of the tree has pairwise distinct property names, as
    every JavaScript object has. *)
Fixpoint wf (j : json) : bool :=
  match j with
  | JArr l => forallb wf l
  | JObj m =>
      bool_decide (NoDup (map fst m)) && forallb (fun kv => wf (snd kv)) m
  | _ => true
  end.

Fixpoint cost (j : json) : nat :=
  match j with
  | JArr l => S (list_sum (map (fun x => S (cost x)) l))
  | JObj m => S (list_sum (map (fun kv => S (cost (snd kv))) m))
  | _ => 1
  end.

Definition is_delim (rest : string) : bool :=
  match rest with
  | EmptyString => true
  | String c _ => (Ascii.eqb c "," || Ascii.eqb c "]" || Ascii.eqb c "}")%char
  end.

Definition no_digit_head (rest : string) : Prop :=
  match rest with
  | EmptyString => True
  | String c _ => digit_of_char c = None
  end.

Definition parses (j : json) : Prop :=
  forall fuel rest, cost j <= fuel -> is_delim rest = true ->
    parse_value fuel (stringify j ++ rest) = Some (j, rest).

End Json.


Import Json.
Open Scope list_scope.

(** ** Value codec ([serialization.ts]) *)

(** A JavaScript number: a finite one (an integer in this model) or one of
    the three non-finite doubles. *)
Inductive number : Type :=
| Finite (z : Z)
| NaN
| PosInfinity
| NegInfinity.

(** The data values: the JavaScript values built without a bigint, a
    function or a symbol (for those see [Any.unknown]).  A [Date] is
    represented by what its [toJSON] method returns: the ISO string of a
    valid date, or [None] for the invalid date (whose [toJSON] is
    [null]). *)
Unset Elimination Schemes.
Inductive value : Type :=
| VUndefined
| VNull
| VBool (b : bool)
| VNumber (n : number)
| VString (s : string)
| VDate (iso : option string)
| VArray (items : list value)
| VObject (entries : list (string * value)).
Set Elimination Schemes.

Definition value_ind (P : value -> Prop)
  (Hundef : P VUndefined) (Hnull : P VNull) (Hbool : forall b, P (VBool b))
  (Hnum : forall n, P (VNumber n)) (Hstr : forall s, P (VString s))
  (Hdate : forall d, P (VDate d))
  (Harr : forall l, Forall P l -> P (VArray l))
  (Hobj : forall m, Forall (fun kv => P (snd kv)) m -> P (VObject m))
  : forall v, P v :=
  fix go (v : value) : P v :=
    match v with
    | VUndefined => Hundef
    | VNull => Hnull
    | VBool b => Hbool b
    | VNumber n => Hnum n
    | VString s => Hstr s
    | VDate d => Hdate d
    | VArray l =>
        Harr l ((fix all (l : list value) : Forall P l :=
                   match l with
                   | [] => List.Forall_nil P
                   | x :: r => @List.Forall_cons _ P x r (go x) (all r)
                   end) l)
    | VObject m =>
        Hobj m ((fix all (m : list (string * value))
                   : Forall (fun kv => P (snd kv)) m :=
                   match m with
                   | [] => List.Forall_nil _
                   | kv :: r => @List.Forall_cons _ _ kv r (go (snd kv)) (all r)
                   end) m)
    end.

Definition marker (tag : string) (extra : list (string * json)) : json :=
  JObj (("__type", JStr tag) :: extra).

(** [Date.prototype.toJSON]. *)
Definition toJSON (iso : option string) : json :=
  match iso with
  | Some s => JStr s
  | None => JNull
  end.

(** [serializeValue] on data values, where every path returns a JSON-safe
    tree.  The final [return value] of the source is reached by a bigint,
    a function or a symbol only, which are not data values:
    [Any.serializeValue] has that case. *)
Fixpoint serializeValue (v : value) : json :=
  match v with
  | VUndefined => marker "undefined" []
  | VNumber NaN => marker "nan" []
  | VNumber PosInfinity => marker "infinity" [("sign", JNum 1)]
  | VNumber NegInfinity => marker "infinity" [("sign", JNum (-1))]
  | VNull => JNull
  | VString s => JStr s
  | VNumber (Finite z) => JNum z
  | VBool b => JBool b
  | VDate d => marker "date" [("value", toJSON d)]
  | VArray l => JArr (map serializeValue l)
  | VObject m =>
      JObj (obj_of_entries (map (fun kv => (fst kv, serializeValue (snd kv))) m))
  end.

(** A JSON tree read as a plain value (the branch [default: return value]
    of [deserializeValue] hands the parsed object back untouched). *)
Fixpoint value_of_json (j : json) : value :=
  match j with
  | JNull => VNull
  | JBool b => VBool b
  | JNum n => VNumber (Finite n)
  | JStr s => VString s
  | JArr l => VArray (map value_of_json l)
  | JObj m => VObject (map (fun kv => (fst kv, value_of_json (snd kv))) m)
  end.

Definition epoch : string := "1970-01-01T00:00:00.000Z".

(** [new Date(x)] for the payload of a date marker.  On a string that
    [toJSON] produced the constructor is the inverse of [toJSON];
    [new Date(null)] is the epoch and [new Date(undefined)] the invalid
    date.  [serializeValue] produces no other payload; the model maps any
    other to the invalid date. *)
Definition Date_new (payload : option json) : value :=
  match payload with
  | Some (JStr s) => VDate (Some s)
  | Some JNull => VDate (Some epoch)
  | _ => VDate None
  end.

(** [isTypeMarker]: the tag, when the value is an object whose [__type]
    property is a string. *)
Definition isTypeMarker (j : json) : option string :=
  match j with
  | JObj m =>
      match obj_get "__type" m with
      | Some (JStr tag) => Some tag
      | _ => None
      end
  | _ => None
  end.

Definition json_field (name : string) (j : json) : option json :=
  match j with
  | JObj m => obj_get name m
  | _ => None
  end.

Fixpoint deserializeValue (j : json) : value :=
  match isTypeMarker j with
  | Some tag =>
      if String.eqb tag "undefined" then VUndefined
      else if String.eqb tag "nan" then VNumber NaN
      else if String.eqb tag "infinity" then
        match json_field "sign" j with
        | Some (JNum 1) => VNumber PosInfinity
        | _ => VNumber NegInfinity
        end
      else if String.eqb tag "date" then Date_new (json_field "value" j)
      else value_of_json j
  | None =>
      match j with
      | JNull => VNull
      | JStr s => VString s
      | JNum n => VNumber (Finite n)
      | JBool b => VBool b
      | JArr l => VArray (map deserializeValue l)
      | JObj m =>
          VObject
            (obj_of_entries
               (map (fun kv => (fst kv, deserializeValue (snd kv))) m))
      end
  end.

(** [toKey] and [fromKey]; [None] is the [SyntaxError] of [JSON.parse].
    On a data value [JSON.stringify] returns a string ([Any.toKey] is
    [toKey] on every value, with the [TypeError] and the [undefined] that
    other values give). *)
Definition toKey (v : value) : string := stringify (serializeValue v).

Definition fromKey (key : string) : option value :=
  match parse key with
  | Some j => Some (deserializeValue j)
  | None => None
  end.

(** *** Equality of values as the specification words it *)

Definition number_eqb (a b : number) : bool :=
  match a, b with
  | Finite x, Finite y => (x =? y)%Z
  | NaN, NaN => true
  | PosInfinity, PosInfinity => true
  | NegInfinity, NegInfinity => true
  | _, _ => false
  end.

Definition date_eqb (a b : option string) : bool :=
  match a, b with
  | Some s, Some t => String.eqb s t
  | None, None => true
  | _, _ => false
  end.

(** Deep structural equality: scalars by value ([NaN] equal to [NaN]),
    dates by their time value, arrays element by element, mappings
    property by property whatever the order the properties are listed in. *)
Fixpoint deep_equal (a b : value) {struct a} : bool :=
  match a, b with
  | VUndefined, VUndefined => true
  | VNull, VNull => true
  | VBool x, VBool y => Bool.eqb x y
  | VNumber x, VNumber y => number_eqb x y
  | VString s, VString t => String.eqb s t
  | VDate x, VDate y => date_eqb x y
  | VArray l, VArray l' =>
      (fix elems (l l' : list value) : bool :=
         match l, l' with
         | [], [] => true
         | x :: r, y :: r' => deep_equal x y && elems r r'
         | _, _ => false
         end) l l'
  | VObject m, VObject m' =>
      Nat.eqb (length m) (length m') &&
      (fix props (m : list (string * value)) : bool :=
         match m with
         | [] => true
         | (k, x) :: r =>
             match obj_get k m' with
             | Some y => deep_equal x y
             | None => false
             end && props r
         end) m
  | _, _ => false
  end.

(** The same, for mappings that also list their properties in the same
    order. *)
Fixpoint ordered_equal (a b : value) {struct a} : bool :=
  match a, b with
  | VUndefined, VUndefined => true
  | VNull, VNull => true
  | VBool x, VBool y => Bool.eqb x y
  | VNumber x, VNumber y => number_eqb x y
  | VString s, VString t => String.eqb s t
  | VDate x, VDate y => date_eqb x y
  | VArray l, VArray l' =>
      (fix elems (l l' : list value) : bool :=
         match l, l' with
         | [], [] => true
         | x :: r, y :: r' => ordered_equal x y && elems r r'
         | _, _ => false
         end) l l'
  | VObject m, VObject m' =>
      (fix props (m m' : list (string * value)) : bool :=
         match m, m' with
         | [], [] => true
         | (k, x) :: r, (k', y) :: r' =>
             String.eqb k k' && ordered_equal x y && props r r'
         | _, _ => false
         end) m m'
  | _, _ => false
  end.

(** The values the codec restores: every date is valid, every mapping has
    pairwise distinct property names and none has a string under the
    property [__type] (such a mapping reads as a type marker). *)
Fixpoint plain (v : value) : bool :=
  match v with
  | VDate None => false
  | VArray l => forallb plain l
  | VObject m =>
      bool_decide (NoDup (map fst m))
      && match obj_get "__type" m with
         | Some (VString _) => false
         | _ => true
         end
      && forallb (fun kv => plain (snd kv)) m
  | _ => true
  end.

(** ** Predicate extractor ([expression-parser.ts]) *)

(** [BasicExpression = PropRef | Value | Func]. *)
Unset Elimination Schemes.
Inductive expr : Type :=
| Ref (path : list string)
| Val (v : value)
| Func (name : string) (args : list expr).
Set Elimination Schemes.

Definition expr_ind (P : expr -> Prop)
  (Href : forall path, P (Ref path)) (Hval : forall v, P (Val v))
  (Hfunc : forall name args, Forall P args -> P (Func name args))
  : forall e, P e :=
  fix go (e : expr) : P e :=
    match e with
    | Ref path => Href path
    | Val v => Hval v
    | Func name args =>
        Hfunc name args
          ((fix all (l : list expr) : Forall P l :=
              match l with
              | [] => List.Forall_nil P
              | x :: r => @List.Forall_cons _ P x r (go x) (all r)
              end) args)
    end.

Record LoadSubsetOptions : Type := { where_ : option expr }.

Record FilterDimension : Type := {
  filterField : string;
  convexArg : string;
  single : bool    (* [single?: boolean], absent read as false *)
}.

(** [ExtractedFilters]: an object from argument names to value arrays. *)
Definition ExtractedFilters : Type := list (string * list value).

Definition propRefMatchesField (path : list string) (fieldName : string) : bool :=
  match path with
  | [p0] => String.eqb p0 fieldName
  | [_; p1] => String.eqb p1 fieldName
  | _ => false
  end.

Definition extractFromEq (args : list expr) (filterField : string) : list value :=
  match args with
  | [lhs; rhs] =>
      match lhs, rhs with
      | Ref path, Val v =>
          if propRefMatchesField path filterField then [v] else []
      | Val v, Ref path =>
          if propRefMatchesField path filterField then [v] else []
      | _, _ => []
      end
  | _ => []
  end.

Definition extractFromIn (args : list expr) (filterField : string) : list value :=
  match args with
  | [lhs; rhs] =>
      match lhs, rhs with
      | Ref path, Val (VArray l) =>
          if propRefMatchesField path filterField then l else []
      | _, _ => []
      end
  | _ => []
  end.

Fixpoint walkExpression (e : expr) (filterField : string) : list value :=
  match e with
  | Func name args =>
      if String.eqb name "eq" then extractFromEq args filterField
      else if String.eqb name "in" then extractFromIn args filterField
      else flat_map (fun arg => walkExpression arg filterField) args
  | _ => []
  end.

(** The loop of [extractFilterValues] over the walked values, with the set
    [seen] of stable keys met so far. *)
Fixpoint unique_loop (seen : gset string) (values : list value) : list value :=
  match values with
  | [] => []
  | v :: rest =>
      let key := toKey v in
      if bool_decide (key ∈ seen) then unique_loop seen rest
      else v :: unique_loop ({[key]} ∪ seen) rest
  end.

Definition extractFilterValues (options : LoadSubsetOptions)
    (filterField : string) : list value :=
  match where_ options with
  | None => []
  | Some e => unique_loop ∅ (walkExpression e filterField)
  end.

Definition hasFilterField (options : LoadSubsetOptions) (f : string) : bool :=
  negb (Nat.eqb (length (extractFilterValues options f)) 0).

Definition extractMultipleFilterValues (options : LoadSubsetOptions)
    (filterDimensions : list FilterDimension) : ExtractedFilters :=
  fold_left
    (fun result dim =>
       let values := extractFilterValues options (filterField dim) in
       if negb (Nat.eqb (length values) 0)
       then obj_set (convexArg dim) values result
       else result)
    filterDimensions [].

(** *** The extractor as the specification words it *)

(** A field reference references the target field [f] when its path is
    the field name alone, or an alias followed by the field name. *)
Inductive references (f : string) : list string -> Prop :=
| references_direct : references f [f]
| references_aliased alias : references f [alias; f].

#[global] Instance references_dec (f : string) (path : list string) :
  Decision (references f path).
Proof.
  destruct path as [| a [| b [| c rest]]].
  - right. inversion 1.
  - destruct (decide (a = f)) as [-> | Hne];
      [left; constructor | right; inversion 1; congruence].
  - destruct (decide (b = f)) as [-> | Hne];
      [left; constructor | right; inversion 1; congruence].
  - right. inversion 1.
Defined.

(** [constrained f e v]: the tree [e] constrains field [f] to the literal
    [v]: through an equality node with a reference to [f] on one side and
    the literal on the other, through a set-membership node with the
    reference on the left and a literal array holding [v] on the right, or
    inside an operand of any other function node. *)
Inductive constrained (f : string) : expr -> value -> Prop :=
| constrained_eq_ref_val path v :
    references f path ->
    constrained f (Func "eq" [Ref path; Val v]) v
| constrained_eq_val_ref path v :
    references f path ->
    constrained f (Func "eq" [Val v; Ref path]) v
| constrained_in path l v :
    references f path -> In v l ->
    constrained f (Func "in" [Ref path; Val (VArray l)]) v
| constrained_operand name args arg v :
    name <> "eq" -> name <> "in" -> In arg args ->
    constrained f arg v -> constrained f (Func name args) v.

(** Keep the first value of every stable key, in order of appearance. *)
Fixpoint first_seen (values : list value) : list value :=
  match values with
  | [] => []
  | v :: rest =>
      v :: List.filter (fun w => negb (String.eqb (toKey w) (toKey v)))
                  (first_seen rest)
  end.

(** ** The codec and the extractor on every JavaScript value

    [value] above holds the data values: every JavaScript value built
    without a bigint, a function or a symbol.  Those three kinds pass every
    test of [serializeValue] and reach its final [return value]; on them
    [JSON.stringify], and so [toKey], throws a [TypeError] or returns
    [undefined].  This module models [serializeValue], [toKey] and the
    extractor on every value; on data values they agree with the
    definitions above (lemmas [toKey_data] and [extractFilterValues_data]),
    where [toKey] always returns a string.  The sync manager and the
    adapter are modelled on data values. *)

Module Any.

(** The values whose [typeof] is [bigint], [function] or [symbol]; a
    function or a symbol is told from another by a number. *)
Inductive other : Type :=
| OBigInt (n : Z)
| OFunction (id : nat)
| OSymbol (id : nat).

(** Any JavaScript value ([unknown]). *)
Unset Elimination Schemes.
Inductive unknown : Type :=
| UUndefined
| UNull
| UBool (b : bool)
| UNumber (n : number)
| UString (s : string)
| UDate (iso : option string)
| UArray (items : list unknown)
| UObject (entries : list (string * unknown))
| UOther (o : other).
Set Elimination Schemes.


(** A data value as a JavaScript value. *)
Fixpoint data (v : value) : unknown :=
  match v with
  | VUndefined => UUndefined
  | VNull => UNull
  | VBool b => UBool b
  | VNumber n => UNumber n
  | VString s => UString s
  | VDate d => UDate d
  | VArray l => UArray (map data l)
  | VObject m => UObject (map (fun kv => (fst kv, data (snd kv))) m)
  end.

(** What a call does: it returns, or it throws (the only exception of
    this module is the [TypeError] of [JSON.stringify] on a bigint). *)
Inductive outcome (A : Type) : Type :=
| Returned (a : A)
| Thrown.
Arguments Returned {A} a.
Arguments Thrown {A}.

#[global] Instance outcome_eq_dec {A} `{EqDecision A} : EqDecision (outcome A).
Proof. solve_decision. Defined.

Definition throws {A} (r : outcome A) : bool :=
  match r with
  | Thrown => true
  | Returned _ => false
  end.

(** The results of a list of calls, when none throws. *)
Fixpoint collect {A} (rs : list (outcome A)) : outcome (list A) :=
  match rs with
  | [] => Returned []
  | Thrown :: _ => Thrown
  | Returned a :: rest =>
      match collect rest with
      | Returned l => Returned (a :: l)
      | Thrown => Thrown
      end
  end.

Definition marker (tag : string) (extra : list (string * unknown)) : unknown :=
  UObject (("__type", UString tag) :: extra).

(** [value.toJSON()] of a [Date]. *)
Definition Date_toJSON (iso : option string) : unknown :=
  match iso with
  | Some s => UString s
  | None => UNull
  end.

(** [serializeValue], with its final [return value]. *)
Fixpoint serializeValue (v : unknown) : unknown :=
  match v with
  | UUndefined => marker "undefined" []
  | UNumber NaN => marker "nan" []
  | UNumber PosInfinity => marker "infinity" [("sign", UNumber (Finite 1))]
  | UNumber NegInfinity => marker "infinity" [("sign", UNumber (Finite (-1)))]
  | UNull => UNull
  | UString s => UString s
  | UNumber (Finite z) => UNumber (Finite z)
  | UBool b => UBool b
  | UDate d => marker "date" [("value", Date_toJSON d)]
  | UArray l => UArray (map serializeValue l)
  | UObject m =>
      UObject
        (obj_of_entries (map (fun kv => (fst kv, serializeValue (snd kv))) m))
  | UOther o => UOther o
  end.

(** The elements of an array for [JSON.stringify]: an element without a
    JSON form is written [null]. *)
Definition elements (rs : list (outcome (option json))) : outcome (option json) :=
  match collect rs with
  | Returned js => Returned (Some (JArr (map (default JNull) js)))
  | Thrown => Thrown
  end.

(** The members of an object for [JSON.stringify]: a property without a
    JSON form is left out. *)
Fixpoint present (ms : list (string * option json)) : list (string * json) :=
  match ms with
  | [] => []
  | (k, Some j) :: rest => (k, j) :: present rest
  | (_, None) :: rest => present rest
  end.

Definition members (rs : list (string * outcome (option json)))
  : outcome (option json) :=
  match collect (map snd rs) with
  | Returned js => Returned (Some (JObj (present (combine (map fst rs) js))))
  | Thrown => Thrown
  end.

(** [SerializeJSONProperty] of [JSON.stringify]: the JSON tree that is
    written for a value, [None] when the value has no JSON form
    ([undefined], a function, a symbol), and the [TypeError] on a
    bigint.  Objects are taken to have no function under the property
    [toJSON] (see [calls_toJSON]): a [Date] is the one kind of value with
    such a method here, and its [toJSON] is [Date_toJSON]. *)
Fixpoint property (v : unknown) : outcome (option json) :=
  match v with
  | UUndefined => Returned None
  | UNull => Returned (Some JNull)
  | UBool b => Returned (Some (JBool b))
  | UNumber (Finite z) => Returned (Some (JNum z))
  | UNumber _ => Returned (Some JNull)
  | UString s => Returned (Some (JStr s))
  | UDate d => Returned (Some (toJSON d))
  | UArray l => elements (map property l)
  | UObject m => members (map (fun kv => (fst kv, property (snd kv))) m)
  | UOther (OBigInt _) => Thrown
  | UOther (OFunction _) => Returned None
  | UOther (OSymbol _) => Returned None
  end.

(** [JSON.stringify]: a string, [undefined] ([None]), or the
    [TypeError]. *)
Definition JSON_stringify (v : unknown) : outcome (option string) :=
  match property v with
  | Returned (Some j) => Returned (Some (stringify j))
  | Returned None => Returned None
  | Thrown => Thrown
  end.

Definition toKey (v : unknown) : outcome (option string) :=
  JSON_stringify (serializeValue v).

(** *** The extractor *)

Unset Elimination Schemes.
Inductive expr : Type :=
| Ref (path : list string)
| Val (v : unknown)
| Func (name : string) (args : list expr).
Set Elimination Schemes.

Definition expr_ind (P : expr -> Prop)
  (Href : forall path, P (Ref path)) (Hval : forall v, P (Val v))
  (Hfunc : forall name args, Forall P args -> P (Func name args))
  : forall e, P e :=
  fix go (e : expr) : P e :=
    match e with
    | Ref path => Href path
    | Val v => Hval v
    | Func name args =>
        Hfunc name args
          ((fix all (l : list expr) : Forall P l :=
              match l with
              | [] => List.Forall_nil P
              | x :: r => @List.Forall_cons _ P x r (go x) (all r)
              end) args)
    end.

Record LoadSubsetOptions : Type := { where_ : option expr }.

Definition extractFromEq (args : list expr) (filterField : string)
  : list unknown :=
  match args with
  | [lhs; rhs] =>
      match lhs, rhs with
      | Ref path, Val v =>
          if propRefMatchesField path filterField then [v] else []
      | Val v, Ref path =>
          if propRefMatchesField path filterField then [v] else []
      | _, _ => []
      end
  | _ => []
  end.

Definition extractFromIn (args : list expr) (filterField : string)
  : list unknown :=
  match args with
  | [lhs; rhs] =>
      match lhs, rhs with
      | Ref path, Val (UArray l) =>
          if propRefMatchesField path filterField then l else []
      | _, _ => []
      end
  | _ => []
  end.

Fixpoint walkExpression (e : expr) (filterField : string) : list unknown :=
  match e with
  | Func name args =>
      if String.eqb name "eq" then extractFromEq args filterField
      else if String.eqb name "in" then extractFromIn args filterField
      else flat_map (fun arg => walkExpression arg filterField) args
  | _ => []
  end.

(** [extractFilterValues] calls the imported [toKey] on every walked
    value.  Below [key] stands for it, so that what is proved of the
    extractor holds whatever [toKey] computes on a value; the extractor of
    the adapter is [extractFilterValues toKey]. *)
Section WithKey.

Variable key : unknown -> outcome (option string).

(** The loop of [extractFilterValues]: [seen] holds the results of
    [toKey] met so far, [undefined] among them when [toKey] returned
    it; a [toKey] that throws ends the call. *)
Fixpoint unique_loop (seen : gset (option string)) (values : list unknown)
  : outcome (list unknown) :=
  match values with
  | [] => Returned []
  | v :: rest =>
      match key v with
      | Thrown => Thrown
      | Returned k =>
          if bool_decide (k ∈ seen) then unique_loop seen rest
          else
            match unique_loop ({[k]} ∪ seen) rest with
            | Returned unique => Returned (v :: unique)
            | Thrown => Thrown
            end
      end
  end.

Definition extractFilterValues (options : LoadSubsetOptions)
    (filterField : string) : outcome (list unknown) :=
  match where_ options with
  | None => Returned []
  | Some e => unique_loop ∅ (walkExpression e filterField)
  end.

End WithKey.

(** *** The extractor as the specification words it *)

(** The literals the tree constrains the field [f] to, in the order the
    tree lists them.  An equality node with exactly two operands, one a
    reference to [f] and the other a literal (in either order), gives
    that literal; a set-membership node with exactly two operands, a
    reference to [f] on the left and a literal array on the right, gives
    the elements of the array in their order; an equality or
    set-membership node of any other shape gives nothing; every other
    function node gives what its operands give, operand after operand;
    a reference or a literal alone gives nothing. *)
Fixpoint constrained_values (f : string) (e : expr) : list unknown :=
  match e with
  | Func name args =>
      if decide (name = "eq") then
        match args with
        | [Ref path; Val v] | [Val v; Ref path] =>
            if decide (references f path) then [v] else []
        | _ => []
        end
      else if decide (name = "in") then
        match args with
        | [Ref path; Val (UArray l)] =>
            if decide (references f path) then l else []
        | _ => []
        end
      else concat (map (constrained_values f) args)
  | _ => []
  end.

(** Deduplication by stable key in first-seen order: a value is kept
    unless an earlier value has the same result of [toKey] ([key]). *)
Fixpoint first_seen (key : unknown -> outcome (option string))
    (values : list unknown) : list unknown :=
  match values with
  | [] => []
  | v :: rest =>
      v :: List.filter (fun w => negb (bool_decide (key w = key v)))
             (first_seen key rest)
  end.

(** The result of [toKey] when it returns. *)
Definition returned_key (key : unknown -> outcome (option string))
    (w : unknown) : option string :=
  match key w with
  | Returned k => k
  | Thrown => None
  end.



End Any.

(** A predicate tree over data values as a tree over any values. *)
Fixpoint data_expr (e : expr) : Any.expr :=
  match e with
  | Ref path => Any.Ref path
  | Val v => Any.Val (Any.data v)
  | Func name args => Any.Func name (map data_expr args)
  end.

Definition data_options (options : LoadSubsetOptions) : Any.LoadSubsetOptions :=
  {| Any.where_ := data_expr <$> where_ options |}.

(** ** Sync manager ([ConvexSyncManager.ts]) *)

(** JavaScript's default [Array.prototype.sort] on strings: ascending by
    code units. *)
Fixpoint insert_sorted (x : string) (l : list string) : list string :=
  match l with
  | [] => [x]
  | y :: rest => if String.leb x y then x :: l else y :: insert_sorted x rest
  end.

Definition sort_strings (l : list string) : list string :=
  fold_right insert_sorted [] l.

(** The object [sorted] built by the [reduce] of [createCompositeKey]. *)
Definition sorted_filters (filters : ExtractedFilters) : list (string * list string) :=
  fold_left
    (fun acc key =>
       match obj_get key filters with
       | Some values => obj_set key (sort_strings (map toKey values)) acc
       | None => acc
       end)
    (sort_strings (map fst filters)) [].

Definition sorted_entry (values : list value) : list string :=
  sort_strings (map toKey values).

Definition json_of_sorted (sorted : list (string * list string)) : json :=
  JObj (map (fun kv => (fst kv, JArr (map JStr (snd kv)))) sorted).

Definition createCompositeKey (filters : ExtractedFilters) : string :=
  stringify (json_of_sorted (sorted_filters filters)).

(** The options the model reads.  [getKey] and the timestamp field are
    parameters of the reconciliation below; [debounceMs] only fixes when
    the time-out of [scheduleProcessing] fires, which the model leaves to
    the order of events; the client and the query are the environment. *)
Record Config : Type := {
  filterDimensions : list FilterDimension;
  tailOverlapMs : Z;
  resubscribeThreshold : Z
}.

(** The arguments of the live query: the [after] cursor and, per dimension,
    the active keys the argument array is built from ([buildQueryArgs]). *)
Record Subscription : Type := {
  sub_after : Z;
  sub_dimensions : gmap string (gset string)
}.

Inductive PromiseState : Type := Pending | Fulfilled | Rejected.

(** A processing pass suspended at [await this.client.query(...)]: the
    promise its timer callback settles, and the filter arguments of the
    query ([None] for the global backfill). *)
Record Backfill : Type := {
  bf_promise : nat;
  bf_filters : option ExtractedFilters
}.

(** The fields of the class, then the part of the runtime the class talks
    to: the promises made by [scheduleProcessing] (numbered in order of
    creation), the time-outs still armed (a time-out carries the number of
    the promise its callback settles) and the suspended pass. *)
Record State : Type := {
  activeDimensions : gmap string (gset string);
  refCounts : gmap string Z;
  pendingFilters : ExtractedFilters;
  globalCursor : Z;
  currentSubscription : option Subscription;
  debounceTimer : option nat;
  isProcessing : bool;
  markedReady : bool;
  hasRequestedGlobal : bool;
  globalRefCount : Z;
  messagesSinceSubscription : Z;
  callbacks : bool;              (* [this.callbacks !== null] *)
  promises : list PromiseState;
  armed : gset nat;
  inflight : option Backfill
}.

(** The constructor. *)
Definition init (cfg : Config) : State := {|
  activeDimensions :=
    list_to_map (map (fun d => (convexArg d, (∅ : gset string)))
                     (filterDimensions cfg));
  refCounts := ∅;
  pendingFilters := [];
  globalCursor := 0;
  currentSubscription := None;
  debounceTimer := None;
  isProcessing := false;
  markedReady := false;
  hasRequestedGlobal := false;
  globalRefCount := 0;
  messagesSinceSubscription := 0;
  callbacks := false;
  promises := [];
  armed := ∅;
  inflight := None
|}.

Definition setCallbacks (s : State) : State :=
  {| activeDimensions := activeDimensions s; refCounts := refCounts s;
     pendingFilters := pendingFilters s; globalCursor := globalCursor s;
     currentSubscription := currentSubscription s;
     debounceTimer := debounceTimer s; isProcessing := isProcessing s;
     markedReady := markedReady s; hasRequestedGlobal := hasRequestedGlobal s;
     globalRefCount := globalRefCount s;
     messagesSinceSubscription := messagesSinceSubscription s;
     callbacks := true;
     promises := promises s; armed := armed s; inflight := inflight s |}.

(** The error thrown for a [single] dimension. *)
Record SingleViolation : Type := {
  sv_filterField : string;
  sv_active : nat;
  sv_pending : nat;
  sv_new : nat
}.

Definition show_nat (n : nat) : string := NilZero.string_of_uint (Nat.to_uint n).

Definition error_message (e : SingleViolation) : string :=
  ("Filter '" +:+ sv_filterField e +:+
   "' is configured as single but multiple values were requested. " +:+
   "Active: " +:+ show_nat (sv_active e) +:+
   ", Pending: " +:+ show_nat (sv_pending e) +:+
   ", New: " +:+ show_nat (sv_new e) +:+ ". " +:+
   "Use single: false if you need to sync multiple values.")%string.

(** What a call of [requestFilters] hands to its caller. *)
Inductive RequestResult : Type :=
| Resolved                      (* [Promise.resolve()] *)
| Scheduled (promise : nat)     (* the promise of [scheduleProcessing] *)
| Threw (e : SingleViolation).

Definition hasActiveValues (active : gmap string (gset string)) : bool :=
  existsb (fun kv : string * gset string => negb (bool_decide (snd kv = ∅)))
          (map_to_list active).

Definition updateSubscription (cfg : Config) (s : State) : State :=
  let subscribe :=
    match filterDimensions cfg with
    | [] => hasRequestedGlobal s
    | _ => hasActiveValues (activeDimensions s)
    end in
  {| activeDimensions := activeDimensions s; refCounts := refCounts s;
     pendingFilters := pendingFilters s; globalCursor := globalCursor s;
     currentSubscription :=
       if subscribe then
         Some {| sub_after := Z.max 0 (globalCursor s - tailOverlapMs cfg);
                 sub_dimensions := activeDimensions s |}
       else None;
     debounceTimer := debounceTimer s; isProcessing := isProcessing s;
     markedReady := markedReady s; hasRequestedGlobal := hasRequestedGlobal s;
     globalRefCount := globalRefCount s;
     messagesSinceSubscription := 0;
     callbacks := callbacks s;
     promises := promises s; armed := armed s; inflight := inflight s |}.

(** [scheduleProcessing]: a new promise whose resolvers only the new
    time-out holds; the time-out set before is cleared. *)
Definition scheduleProcessing (s : State) : State * nat :=
  let p := length (promises s) in
  ({| activeDimensions := activeDimensions s; refCounts := refCounts s;
      pendingFilters := pendingFilters s; globalCursor := globalCursor s;
      currentSubscription := currentSubscription s;
      debounceTimer := Some p;
      isProcessing := isProcessing s;
      markedReady := markedReady s; hasRequestedGlobal := hasRequestedGlobal s;
      globalRefCount := globalRefCount s;
      messagesSinceSubscription := messagesSinceSubscription s;
      callbacks := callbacks s;
      promises := promises s ++ [Pending];
      armed :=
        {[p]} ∪ match debounceTimer s with
                | Some h => armed s ∖ {[h]}
                | None => armed s
                end;
      inflight := inflight s |}, p).

Definition is_pending (serialized : string) (pending : option (list value)) : bool :=
  match pending with
  | Some l => existsb (fun pv => String.eqb (toKey pv) serialized) l
  | None => false
  end.

(** The inner loop of [requestFilters] over the values of one dimension. *)
Fixpoint push_values (activeSet : gset string) (convexArg : string)
    (values : list value) (pending : ExtractedFilters) (hasNewValues : bool)
  : ExtractedFilters * bool :=
  match values with
  | [] => (pending, hasNewValues)
  | value :: rest =>
      let serialized := toKey value in
      if bool_decide (serialized ∈ activeSet) then
        push_values activeSet convexArg rest pending hasNewValues
      else
        let pending1 :=
          match obj_get convexArg pending with
          | None => obj_set convexArg [] pending
          | Some _ => pending
          end in
        let current := default [] (obj_get convexArg pending1) in
        if existsb (fun v => String.eqb (toKey v) serialized) current then
          push_values activeSet convexArg rest pending1 hasNewValues
        else
          push_values activeSet convexArg rest
            (obj_set convexArg (current ++ [value]) pending1) true
  end.

(** The validation of a [single] dimension: the error to throw, if any. *)
Definition check_single (dim : FilterDimension) (activeSet : gset string)
    (convexArg : string) (values : list value) (pending : ExtractedFilters)
  : option SingleViolation :=
  let existingCount := size activeSet in
  let pendingCount :=
    match obj_get convexArg pending with
    | Some l => length l
    | None => 0
    end in
  let newValues :=
    List.filter
      (fun v =>
         negb (bool_decide (toKey v ∈ activeSet)) &&
         negb (is_pending (toKey v) (obj_get convexArg pending)))
      values in
  if (1 <? existingCount + pendingCount + length newValues)%nat then
    Some {| sv_filterField := filterField dim; sv_active := existingCount;
            sv_pending := pendingCount; sv_new := length newValues |}
  else None.

Definition find_dimension (cfg : Config) (arg : string) : option FilterDimension :=
  List.find (fun d => String.eqb (convexArg d) arg) (filterDimensions cfg).

(** The loop of [requestFilters] over the entries of [filters]; a throw
    leaves the pending buffer as the iterations before it made it. *)
Fixpoint request_loop (cfg : Config) (active : gmap string (gset string))
    (entries : ExtractedFilters) (pending : ExtractedFilters)
    (hasNewValues : bool)
  : ExtractedFilters * bool * option SingleViolation :=
  match entries with
  | [] => (pending, hasNewValues, None)
  | (convexArg, values) :: rest =>
      match active !! convexArg with
      | None => request_loop cfg active rest pending hasNewValues
      | Some activeSet =>
          let violation :=
            match find_dimension cfg convexArg with
            | Some dim =>
                if single dim
                then check_single dim activeSet convexArg values pending
                else None
            | None => None
            end in
          match violation with
          | Some e => (pending, hasNewValues, Some e)
          | None =>
              let '(pending', hasNew') :=
                push_values activeSet convexArg values pending hasNewValues in
              request_loop cfg active rest pending' hasNew'
          end
      end
  end.

Definition set_tracking (s : State) (refs : gmap string Z)
    (pending : ExtractedFilters) : State :=
  {| activeDimensions := activeDimensions s; refCounts := refs;
     pendingFilters := pending; globalCursor := globalCursor s;
     currentSubscription := currentSubscription s;
     debounceTimer := debounceTimer s; isProcessing := isProcessing s;
     markedReady := markedReady s; hasRequestedGlobal := hasRequestedGlobal s;
     globalRefCount := globalRefCount s;
     messagesSinceSubscription := messagesSinceSubscription s;
     callbacks := callbacks s;
     promises := promises s; armed := armed s; inflight := inflight s |}.

Definition set_global (s : State) (requested : bool) (count : Z) : State :=
  {| activeDimensions := activeDimensions s; refCounts := refCounts s;
     pendingFilters := pendingFilters s; globalCursor := globalCursor s;
     currentSubscription := currentSubscription s;
     debounceTimer := debounceTimer s; isProcessing := isProcessing s;
     markedReady := markedReady s; hasRequestedGlobal := requested;
     globalRefCount := count;
     messagesSinceSubscription := messagesSinceSubscription s;
     callbacks := callbacks s;
     promises := promises s; armed := armed s; inflight := inflight s |}.

Definition requestFilters (cfg : Config) (s : State) (filters : ExtractedFilters)
  : State * RequestResult :=
  match filterDimensions cfg with
  | [] =>
      let s1 := set_global s (hasRequestedGlobal s) (globalRefCount s + 1) in
      if hasRequestedGlobal s then (s1, Resolved)
      else
        let '(s2, p) := scheduleProcessing (set_global s1 true (globalRefCount s1)) in
        (s2, Scheduled p)
  | _ =>
      let compositeKey := createCompositeKey filters in
      let count := default 0%Z (refCounts s !! compositeKey) in
      let refs := <[compositeKey := (count + 1)%Z]> (refCounts s) in
      match request_loop cfg (activeDimensions s) filters
                         (pendingFilters s) false with
      | (pending, _, Some e) => (set_tracking s refs pending, Threw e)
      | (pending, hasNewValues, None) =>
          let s1 := set_tracking s refs pending in
          if hasNewValues then
            let '(s2, p) := scheduleProcessing s1 in (s2, Scheduled p)
          else (s1, Resolved)
      end
  end.

(** [Object.entries] of a parsed value; [None] is the [TypeError] on
    [null]. *)
Definition Object_entries (j : json) : option (list (string * json)) :=
  match j with
  | JObj m => Some m
  | JArr l => Some (imap (fun i x => (show_nat i, x)) l)
  | JStr s =>
      Some (imap (fun i c => (show_nat i, JStr (String c EmptyString)))
                 (list_ascii_of_string s))
  | JNum _ | JBool _ => Some []
  | JNull => None
  end.

(** The items a [for ... of] loop visits; [None] is the [TypeError] raised
    for a value that is not iterable. *)
Definition iterate (j : json) : option (list json) :=
  match j with
  | JArr l => Some l
  | JStr s => Some (map (fun c => JStr (String c EmptyString))
                        (list_ascii_of_string s))
  | _ => None
  end.

(** The strings among the visited items (an item of another type is added
    to the set as well but equals no active key). *)
Definition strings_of (l : list json) : gset string :=
  list_to_set (omap (fun j => match j with JStr s => Some s | _ => None end) l).

(** The body of the [try] in [cleanupUnreferencedValues] for the entries of
    one parsed key; an exception ends the walk of this key and keeps what
    was added before. *)
Fixpoint scan_entries (refs : gmap string (gset string))
    (entries : list (string * json)) : gmap string (gset string) :=
  match entries with
  | [] => refs
  | (convexArg, serializedValues) :: rest =>
      match refs !! convexArg with
      | None => scan_entries refs rest
      | Some refSet =>
          match iterate serializedValues with
          | Some items =>
              scan_entries (<[convexArg := refSet ∪ strings_of items]> refs) rest
          | None => refs
          end
      end
  end.

Definition add_key_refs (refs : gmap string (gset string)) (compositeKey : string)
  : gmap string (gset string) :=
  match parse compositeKey with
  | Some j =>
      match Object_entries j with
      | Some entries => scan_entries refs entries
      | None => refs
      end
  | None => refs
  end.

Definition empty_refs (cfg : Config) : gmap string (gset string) :=
  list_to_map (map (fun d => (convexArg d, (∅ : gset string)))
                   (filterDimensions cfg)).

(** [referencedValues] as [cleanupUnreferencedValues] computes it. *)
Definition referencedValues (cfg : Config) (refs : gmap string Z)
  : gmap string (gset string) :=
  foldr (fun compositeKey acc => add_key_refs acc compositeKey)
        (empty_refs cfg) (map fst (map_to_list refs)).

Definition set_active (s : State) (active : gmap string (gset string)) : State :=
  {| activeDimensions := active; refCounts := refCounts s;
     pendingFilters := pendingFilters s; globalCursor := globalCursor s;
     currentSubscription := currentSubscription s;
     debounceTimer := debounceTimer s; isProcessing := isProcessing s;
     markedReady := markedReady s; hasRequestedGlobal := hasRequestedGlobal s;
     globalRefCount := globalRefCount s;
     messagesSinceSubscription := messagesSinceSubscription s;
     callbacks := callbacks s;
     promises := promises s; armed := armed s; inflight := inflight s |}.

Definition retain_referenced (referenced : gmap string (gset string))
    (active : gmap string (gset string)) : gmap string (gset string) :=
  map_imap
    (fun convexArg (activeSet : gset string) =>
       Some (filter (fun serialized => serialized ∈ default ∅ (referenced !! convexArg))
                    activeSet))
    active.

Definition cleanupUnreferencedValues (cfg : Config) (s : State) : State :=
  let referenced := referencedValues cfg (refCounts s) in
  let active := retain_referenced referenced (activeDimensions s) in
  let needsSubscriptionUpdate := bool_decide (active ≠ activeDimensions s) in
  let s1 := set_active s active in
  if needsSubscriptionUpdate then updateSubscription cfg s1 else s1.

Definition releaseFilters (cfg : Config) (s : State) (filters : ExtractedFilters)
  : State :=
  match filterDimensions cfg with
  | [] =>
      let count := Z.max 0 (globalRefCount s - 1) in
      if (count =? 0)%Z && hasRequestedGlobal s
      then updateSubscription cfg (set_global s false count)
      else set_global s (hasRequestedGlobal s) count
  | _ =>
      let compositeKey := createCompositeKey filters in
      let count := (default 0 (refCounts s !! compositeKey) - 1)%Z in
      let refs :=
        if (count <=? 0)%Z then delete compositeKey (refCounts s)
        else <[compositeKey := count]> (refCounts s) in
      cleanupUnreferencedValues cfg (set_tracking s refs (pendingFilters s))
  end.

(** *** Reachability as the specification words it *)

Definition dim_args (cfg : Config) : gset string :=
  list_to_set (map convexArg (filterDimensions cfg)).

(** The active keys of a dimension. *)
Definition active_values (s : State) (convexArg : string) : gset string :=
  default ∅ (activeDimensions s !! convexArg).

(** The entries of a composite key read back with [JSON.parse]. *)
Definition key_entries (compositeKey : string) : list (string * json) :=
  match parse compositeKey with
  | Some j => default [] (Object_entries j)
  | None => []
  end.

(** The serialized values that the entries of one composite key list for
    the argument [arg], among the arguments [args] of the configured
    dimensions (an entry of a configured dimension that cannot be iterated
    ends the reading of the key). *)
Fixpoint listed_values (args : gset string) (entries : list (string * json))
    (arg : string) : gset string :=
  match entries with
  | [] => ∅
  | (k, serializedValues) :: rest =>
      if bool_decide (k ∈ args) then
        match iterate serializedValues with
        | Some items =>
            (if String.eqb k arg then strings_of items else ∅)
            ∪ listed_values args rest arg
        | None => ∅
        end
      else listed_values args rest arg
  end.

Definition key_mentions (cfg : Config) (compositeKey arg serialized : string)
  : Prop :=
  arg ∈ dim_args cfg /\
  serialized ∈ listed_values (dim_args cfg) (key_entries compositeKey) arg.

(** [serialized] is reachable for [arg]: a surviving composite key with a
    positive count lists it. *)
Definition reachable (cfg : Config) (refs : gmap string Z)
    (arg serialized : string) : Prop :=
  exists compositeKey count,
    refs !! compositeKey = Some count /\ (0 < count)%Z /\
    key_mentions cfg compositeKey arg serialized.

(** What the constructor establishes and every operation keeps: one active
    set per configured dimension, and only positive reference counts. *)
Definition consistent (cfg : Config) (s : State) : Prop :=
  dom (activeDimensions s) = dim_args cfg /\
  map_Forall (fun _ count => (0 < count)%Z) (refCounts s).

(** [x] waits in the pending buffer of [arg]. *)
Definition is_pending_value (s : State) (arg : string) (x : value) : Prop :=
  exists values, In (arg, values) (pendingFilters s) /\ In x values.

(** The reference counts after [releaseFilters] and after
    [requestFilters]. *)
Definition released_refs (cfg : Config) (refs : gmap string Z)
    (filters : ExtractedFilters) : gmap string Z :=
  match filterDimensions cfg with
  | [] => refs
  | _ =>
      let key := createCompositeKey filters in
      let count := (default 0 (refs !! key) - 1)%Z in
      if (count <=? 0)%Z then delete key refs else <[key := count]> refs
  end.

Definition requested_refs (cfg : Config) (refs : gmap string Z)
    (filters : ExtractedFilters) : gmap string Z :=
  match filterDimensions cfg with
  | [] => refs
  | _ =>
      let key := createCompositeKey filters in
      <[key := (default 0 (refs !! key) + 1)%Z]> refs
  end.

(** The stable keys a pending buffer holds for [arg]. *)
Fixpoint pending_keys (pending : ExtractedFilters) (arg : string) : gset string :=
  match pending with
  | [] => ∅
  | (k, values) :: rest =>
      (if String.eqb k arg then list_to_set (map toKey values) else ∅)
      ∪ pending_keys rest arg
  end.

(** *** Promises, time-outs and the processing pass *)

Definition settle (p : nat) (outcome : PromiseState) (l : list PromiseState)
  : list PromiseState :=
  match l !! p with
  | Some Pending => <[p := outcome]> l
  | _ => l
  end.

Definition set_runtime (s : State) (processing : bool)
    (ps : list PromiseState) (timers : gset nat) (pass : option Backfill)
  : State :=
  {| activeDimensions := activeDimensions s; refCounts := refCounts s;
     pendingFilters := pendingFilters s; globalCursor := globalCursor s;
     currentSubscription := currentSubscription s;
     debounceTimer := debounceTimer s; isProcessing := processing;
     markedReady := markedReady s; hasRequestedGlobal := hasRequestedGlobal s;
     globalRefCount := globalRefCount s;
     messagesSinceSubscription := messagesSinceSubscription s;
     callbacks := callbacks s;
     promises := ps; armed := timers; inflight := pass |}.

(** The first loop of [processFilterBatch]: the pending values join the
    active sets. *)
Definition merge_pending (newFilters : ExtractedFilters)
    (active : gmap string (gset string)) : gmap string (gset string) :=
  fold_left
    (fun act (kv : string * list value) =>
       match act !! fst kv with
       | Some activeSet =>
           <[fst kv := activeSet ∪ list_to_set (map toKey (snd kv))]> act
       | None => act
       end)
    newFilters active.

(** The callback of the time-out [h] runs: [processFilterBatch] up to its
    first [await].  When the pass has nothing to do the callback resolves
    its promise at once; otherwise the pass is suspended on the backfill
    query. *)
Definition timerFires (cfg : Config) (s : State) (h : nat) : State :=
  if bool_decide (h ∈ armed s) then
    let timers := armed s ∖ {[h]} in
    let hasPendingFilters := negb (Nat.eqb (length (pendingFilters s)) 0) in
    let needsGlobalSync :=
      Nat.eqb (length (filterDimensions cfg)) 0 && hasRequestedGlobal s in
    if isProcessing s || (negb hasPendingFilters && negb needsGlobalSync) then
      set_runtime s (isProcessing s) (settle h Fulfilled (promises s))
                  timers (inflight s)
    else
      match filterDimensions cfg with
      | [] =>
          set_runtime s true (promises s) timers
            (Some {| bf_promise := h; bf_filters := None |})
      | _ =>
          let newFilters := pendingFilters s in
          let s1 :=
            set_tracking
              (set_active s (merge_pending newFilters (activeDimensions s)))
              (refCounts s) [] in
          set_runtime s1 true (promises s) timers
            (Some {| bf_promise := h; bf_filters := Some newFilters |})
      end
  else s.

Definition cleanup (s : State) : State :=
  {| activeDimensions := (fun _ => (∅ : gset string)) <$> activeDimensions s;
     refCounts := ∅;
     pendingFilters := []; globalCursor := 0;
     currentSubscription := None;
     debounceTimer := None; isProcessing := isProcessing s;
     markedReady := false; hasRequestedGlobal := false;
     globalRefCount := 0;
     messagesSinceSubscription := 0;
     callbacks := false;
     promises := promises s;
     armed := match debounceTimer s with
              | Some h => armed s ∖ {[h]}
              | None => armed s
              end;
     inflight := inflight s |}.

(** A promise nothing can settle any more: it is pending, no armed
    time-out carries it, and the suspended pass is not its own. *)
Definition orphaned (p : nat) (s : State) : Prop :=
  promises s !! p = Some Pending /\
  (p ∉ armed s) /\
  (forall pass, inflight s = Some pass -> bf_promise pass <> p).

(** *** Reconciliation *)

Section Reconciliation.

(** The record type [T], [getKey], and the read of the timestamp field
    [(item as any)[updatedAtFieldName]] ([None] for [undefined]). *)
Context {T K : Type}.
Variable getKey : T -> K.
Variable updatedAt : T -> option Z.

Inductive WriteMessage : Type :=
| Insert (item : T)    (* [{ type: 'insert', value: item }] *)
| Update (item : T).   (* [{ type: 'update', value: item }] *)

Inductive HostEvent : Type :=
| Begin
| Write (m : WriteMessage)
| Commit
| MarkReady.

(** One iteration of the loop of [handleIncomingData].  [collection] is
    the host's point lookup [collection.get]; the host applies the writes
    of a batch when the batch commits, so the lookup is the same through
    the whole loop. *)
Definition reconcile (collection : K -> option T) (previousCursor : Z)
    (acc : Z * Z * list WriteMessage) (item : T) : Z * Z * list WriteMessage :=
  let '(cursor, newItemCount, writes) := acc in
  let incomingTs := updatedAt item in
  let cursor' :=
    match incomingTs with
    | Some ts => if (cursor <? ts)%Z then ts else cursor
    | None => cursor
    end in
  let beyond (ts : Z) := if (previousCursor <? ts)%Z then 1%Z else 0%Z in
  match collection (getKey item) with
  | None =>
      (cursor',
       (newItemCount + match incomingTs with Some ts => beyond ts | None => 0 end)%Z,
       writes ++ [Insert item])
  | Some existing =>
      match incomingTs, updatedAt existing with
      | Some ts, Some existingTs =>
          if (existingTs <? ts)%Z
          then (cursor', (newItemCount + beyond ts)%Z, writes ++ [Update item])
          else (cursor', newItemCount, writes)
      | Some _, None => (cursor', newItemCount, writes ++ [Update item])
      | None, _ => (cursor', newItemCount, writes)
      end
  end.

Definition set_progress (s : State) (cursor : Z) (messages : Z) : State :=
  {| activeDimensions := activeDimensions s; refCounts := refCounts s;
     pendingFilters := pendingFilters s; globalCursor := cursor;
     currentSubscription := currentSubscription s;
     debounceTimer := debounceTimer s; isProcessing := isProcessing s;
     markedReady := markedReady s; hasRequestedGlobal := hasRequestedGlobal s;
     globalRefCount := globalRefCount s;
     messagesSinceSubscription := messages;
     callbacks := callbacks s;
     promises := promises s; armed := armed s; inflight := inflight s |}.

Definition handleIncomingData (cfg : Config) (s : State)
    (collection : K -> option T) (items : list T) : State * list HostEvent :=
  if negb (callbacks s) || Nat.eqb (length items) 0 then (s, [])
  else
    let previousCursor := globalCursor s in
    let '(cursor, newItemCount, writes) :=
      fold_left (reconcile collection previousCursor) items
                (globalCursor s, 0%Z, []) in
    let s1 := set_progress s cursor (messagesSinceSubscription s + newItemCount) in
    let s2 :=
      if (0 <? resubscribeThreshold cfg)%Z
         && (resubscribeThreshold cfg <=? messagesSinceSubscription s1)%Z
         && bool_decide (is_Some (currentSubscription s1))
      then updateSubscription cfg s1
      else s1 in
    (s2, Begin :: map Write writes ++ [Commit]).

Definition set_ready (s : State) : State :=
  {| activeDimensions := activeDimensions s; refCounts := refCounts s;
     pendingFilters := pendingFilters s; globalCursor := globalCursor s;
     currentSubscription := currentSubscription s;
     debounceTimer := debounceTimer s; isProcessing := isProcessing s;
     markedReady := true; hasRequestedGlobal := hasRequestedGlobal s;
     globalRefCount := globalRefCount s;
     messagesSinceSubscription := messagesSinceSubscription s;
     callbacks := callbacks s;
     promises := promises s; armed := armed s; inflight := inflight s |}.

(** The backfill query of the suspended pass settles: [result] is the
    array it returned, or [None] when it rejected.  The rest of
    [processFilterBatch] runs, then the time-out callback settles its
    promise. *)
Definition backfillDone (cfg : Config) (s : State)
    (result : option (list T)) (collection : K -> option T)
  : State * list HostEvent :=
  match inflight s with
  | None => (s, [])
  | Some pass =>
      match result with
      | Some items =>
          let '(s1, events) := handleIncomingData cfg s collection items in
          let s2 := updateSubscription cfg s1 in
          let ready := negb (markedReady s2) && callbacks s2 in
          let s3 := if ready then set_ready s2 else s2 in
          (set_runtime s3 false
             (settle (bf_promise pass) Fulfilled (promises s3)) (armed s3) None,
           events ++ (if ready then [MarkReady] else []))
      | None =>
          (set_runtime s false
             (settle (bf_promise pass) Rejected (promises s)) (armed s) None,
           [])
      end
  end.

(** What can happen to a manager, one event at a time. *)
Inductive Op : Type :=
| OpSetCallbacks
| OpRequest (filters : ExtractedFilters)
| OpRelease (filters : ExtractedFilters)
| OpTimer (h : nat)
| OpBackfill (result : option (list T)) (collection : K -> option T)
| OpDelivery (collection : K -> option T) (items : list T)
| OpCleanup.

Definition step (cfg : Config) (s : State) (op : Op) : State :=
  match op with
  | OpSetCallbacks => setCallbacks s
  | OpRequest filters => fst (requestFilters cfg s filters)
  | OpRelease filters => releaseFilters cfg s filters
  | OpTimer h => timerFires cfg s h
  | OpBackfill result collection => fst (backfillDone cfg s result collection)
  | OpDelivery collection items =>
      fst (handleIncomingData cfg s collection items)
  | OpCleanup => cleanup s
  end.

Definition run (cfg : Config) (s : State) (ops : list Op) : State :=
  fold_left (step cfg) ops s.

(** The messages written between [begin] and [commit]. *)
Definition writes_of (events : list HostEvent) : list WriteMessage :=
  omap (fun e => match e with Write m => Some m | _ => None end) events.

(** *** Last-write-wins as the specification words it *)

(** [lww_rule collection item out]: what one incoming record contributes
    to the batch. *)
Inductive lww_rule (collection : K -> option T) (item : T)
  : list WriteMessage -> Prop :=
| lww_insert :
    collection (getKey item) = None ->
    lww_rule collection item [Insert item]
| lww_update_fresher existing existingTs incomingTs :
    collection (getKey item) = Some existing ->
    updatedAt existing = Some existingTs ->
    updatedAt item = Some incomingTs ->
    (existingTs < incomingTs)%Z ->
    lww_rule collection item [Update item]
| lww_discard_stale existing existingTs incomingTs :
    collection (getKey item) = Some existing ->
    updatedAt existing = Some existingTs ->
    updatedAt item = Some incomingTs ->
    (incomingTs <= existingTs)%Z ->
    lww_rule collection item []
| lww_update_untimed existing incomingTs :
    collection (getKey item) = Some existing ->
    updatedAt existing = None ->
    updatedAt item = Some incomingTs ->
    lww_rule collection item [Update item]
| lww_discard_untimed existing :
    collection (getKey item) = Some existing ->
    updatedAt item = None ->
    lww_rule collection item [].

End Reconciliation.

(** ** Collection adapter ([index.ts]) *)

Definition loadSubset (cfg : Config) (s : State) (options : LoadSubsetOptions)
  : State * RequestResult :=
  match filterDimensions cfg with
  | [] => requestFilters cfg s []
  | _ =>
      let extracted := extractMultipleFilterValues options (filterDimensions cfg) in
      if Nat.eqb (length extracted) 0 then (s, Resolved)
      else requestFilters cfg s extracted
  end.

Definition unloadSubset (cfg : Config) (s : State) (options : LoadSubsetOptions)
  : State :=
  match filterDimensions cfg with
  | [] => releaseFilters cfg s []
  | _ =>
      let extracted := extractMultipleFilterValues options (filterDimensions cfg) in
      if negb (Nat.eqb (length extracted) 0) then releaseFilters cfg s extracted
      else s
  end.

(** ** A concrete instance: messages filtered by channel *)

Module Scenario.

Record Message : Type := {
  msg_id : string;
  msg_channelId : string;
  msg_updatedAt : option Z
}.

Definition channels : Config := {|
  filterDimensions :=
    [{| filterField := "channelId"; convexArg := "channelIds"; single := false |}];
  tailOverlapMs := 10000;
  resubscribeThreshold := 10
|}.

(** One dimension with [single: true]. *)
Definition single_page : Config := {|
  filterDimensions :=
    [{| filterField := "pageId"; convexArg := "pageId"; single := true |}];
  tailOverlapMs := 10000;
  resubscribeThreshold := 10
|}.

(** A plain dimension followed by a [single] one. *)
Definition channel_and_page : Config := {|
  filterDimensions :=
    [{| filterField := "channelId"; convexArg := "channelIds"; single := false |};
     {| filterField := "pageId"; convexArg := "pageId"; single := true |}];
  tailOverlapMs := 10000;
  resubscribeThreshold := 10
|}.

Definition pages_a_b : ExtractedFilters :=
  [("pageId", [VString "a"; VString "b"])].

Definition c1_pages_a_b : ExtractedFilters :=
  [("channelIds", [VString "c1"]); ("pageId", [VString "a"; VString "b"])].

Definition c1 : ExtractedFilters := [("channelIds", [VString "c1"])].
Definition c2 : ExtractedFilters := [("channelIds", [VString "c2"])].
Definition c1_c2 : ExtractedFilters :=
  [("channelIds", [VString "c1"; VString "c2"])].

(** An empty host collection. *)
Definition no_records : string -> option Message := fun _ => None.

Definition Op' : Type := Op (T := Message) (K := string).

Definition run' (cfg : Config) (s : State) (ops : list Op') : State :=
  run msg_id msg_updatedAt cfg s ops.

End Scenario.

(** ** Auxiliary notions for the further properties *)

(** The tree holds a reference to the field [f] somewhere. *)
Fixpoint refers_to (f : string) (e : expr) : bool :=
  match e with
  | Ref path => propRefMatchesField path f
  | Val _ => false
  | Func _ args => existsb (refers_to f) args
  end.

(** One step of the loop of [extractMultipleFilterValues]. *)
Definition extract_step (options : LoadSubsetOptions)
    (result : ExtractedFilters) (dim : FilterDimension) : ExtractedFilters :=
  let values := extractFilterValues options (filterField dim) in
  if negb (Nat.eqb (length values) 0)
  then obj_set (convexArg dim) values result
  else result.

(** The array a composite key holds for the values of one argument. *)
Definition key_array (values : list value) : json :=
  JArr (map JStr (sort_strings (map toKey values))).

(** The record a write message carries. *)
Definition written {T : Type} (m : WriteMessage (T := T)) : T :=
  match m with
  | Insert item => item
  | Update item => item
  end.

(** The array [this.pendingFilters[arg]], empty when the property is
    absent. *)
Definition pending_of (s : State) (arg : string) : list value :=
  default [] (obj_get arg (pendingFilters s)).

(** What the inner loop of [requestFilters] makes of the pending array
    [current] of one dimension. *)
Fixpoint push_entry (activeSet : gset string) (values current : list value)
  : list value :=
  match values with
  | [] => current
  | v :: rest =>
      if bool_decide (toKey v ∈ activeSet) then push_entry activeSet rest current
      else if existsb (fun w => String.eqb (toKey w) (toKey v)) current
           then push_entry activeSet rest current
           else push_entry activeSet rest (current ++ [v])
  end.

(** The values [requestFilters] counts as new for a dimension. *)
Definition new_values (activeSet : gset string) (values current : list value)
  : list value :=
  List.filter
    (fun v => negb (bool_decide (toKey v ∈ activeSet)) &&
              negb (existsb (fun w => String.eqb (toKey w) (toKey v)) current))
    values.

(** The pending buffer agrees with the active sets: its property names
    are distinct and belong to configured dimensions, no array is empty,
    no array holds a stable key twice or a key that is already active, and
    a [single] dimension holds at most one value, active or pending. *)
Definition pending_ok (cfg : Config) (active : gmap string (gset string))
    (pending : ExtractedFilters) : Prop :=
  List.NoDup (map fst pending) /\
  (forall arg, obj_get arg pending <> Some []) /\
  (forall arg, is_Some (obj_get arg pending) -> is_Some (active !! arg)) /\
  (forall arg x, In x (default [] (obj_get arg pending)) ->
     toKey x ∉ default ∅ (active !! arg)) /\
  (forall arg, List.NoDup (map toKey (default [] (obj_get arg pending)))) /\
  (forall arg dim, find_dimension cfg arg = Some dim -> single dim = true ->
     size (default ∅ (active !! arg))
     + length (default [] (obj_get arg pending)) <= 1).

Definition tracker_invariant (cfg : Config) (s : State) : Prop :=
  pending_ok cfg (activeDimensions s) (pendingFilters s) /\
  (forall arg k, k ∈ active_values s arg -> exists v, k = toKey v).

(** The condition on which [updateSubscription] subscribes. *)
Definition wants_subscription (cfg : Config) (s : State) : bool :=
  match filterDimensions cfg with
  | [] => hasRequestedGlobal s
  | _ => hasActiveValues (activeDimensions s)
  end.

(** Time-outs, promises and the processing flag: an armed time-out is the
    one [debounceTimer] holds and its promise is pending; the promise of
    the suspended pass is pending and belongs to no armed time-out; the
    flag [isProcessing] is set exactly while a pass is suspended. *)
Definition runtime_invariant (s : State) : Prop :=
  (forall h, h ∈ armed s ->
     debounceTimer s = Some h /\ promises s !! h = Some Pending) /\
  (forall pass, inflight s = Some pass ->
     promises s !! bf_promise pass = Some Pending /\
     bf_promise pass ∉ armed s) /\
  (is_Some (inflight s) <-> isProcessing s = true).

(** The counters: none is negative, and the global request is held
    exactly while the global reference count is positive. *)
Definition counters_ok (s : State) : Prop :=
  (0 <= globalCursor s)%Z /\
  (0 <= messagesSinceSubscription s)%Z /\
  (0 <= globalRefCount s)%Z /\
  (hasRequestedGlobal s = true <-> (0 < globalRefCount s)%Z).

(** The live subscription: its cursor lies in the overlap window behind
    the global cursor, the message counter has not reached a positive
    threshold, and the condition of [updateSubscription] still holds. *)
Definition subscription_ok (cfg : Config) (s : State) : Prop :=
  forall sub, currentSubscription s = Some sub ->
    (0 <= sub_after sub <= Z.max 0 (globalCursor s - tailOverlapMs cfg))%Z /\
    ((0 < resubscribeThreshold cfg)%Z ->
     (messagesSinceSubscription s < resubscribeThreshold cfg)%Z) /\
    wants_subscription cfg s = true.

Definition progress_invariant (cfg : Config) (s : State) : Prop :=
  counters_ok s /\ subscription_ok cfg s.

(** * Properties *)

#[local] Set Warnings "-clear-no-such-hyp".

(** ** [JSON.parse] after [JSON.stringify] *)

Module JsonFacts.

Local Open Scope string_scope.

Lemma str_app_cons (x : ascii) (a b : string) :
  String x a ++ b = String x (a ++ b).
Proof. reflexivity. Qed.

Lemma str_app_nil (b : string) : "" ++ b = b.
Proof. reflexivity. Qed.

Lemma str_app_assoc (a b c : string) : (a ++ b) ++ c = a ++ (b ++ c).
Proof.
  induction a as [|x a IH]; [reflexivity |].
  rewrite !str_app_cons. now rewrite IH.
Qed.

Ltac str_norm :=
  repeat (rewrite str_app_assoc || rewrite str_app_cons || rewrite str_app_nil).

Lemma str_app_length (a b : string) :
  String.length (a ++ b) = String.length a + String.length b.
Proof.
  induction a as [|x a IH]; [reflexivity |].
  rewrite str_app_cons. simpl. now rewrite IH.
Qed.

Lemma parse_quote_char (c : ascii) (s : string) :
  parse_string_body (quote_char c ++ s) =
  match parse_string_body s with
  | Some (str, rest) => Some (String c str, rest)
  | None => None
  end.
Proof. destruct c as [[] [] [] [] [] [] [] []]; reflexivity. Qed.

Lemma parse_quote_body (s rest : string) :
  parse_string_body (quote_body s ++ String dquote rest) = Some (s, rest).
Proof.
  induction s as [|c s IH].
  - reflexivity.
  - change (quote_body (String c s)) with (quote_char c ++ quote_body s).
    now rewrite str_app_assoc, parse_quote_char, IH.
Qed.

Lemma is_delim_no_digit (rest : string) :
  is_delim rest = true -> no_digit_head rest /\ number_ends rest = true.
Proof.
  destruct rest as [|c r]; [now split |]. unfold is_delim.
  rewrite !orb_true_iff, !Ascii.eqb_eq.
  intros [[-> | ->] | ->]; split; reflexivity.
Qed.

Lemma parse_digits_print (d : uint) (rest : string) :
  no_digit_head rest ->
  parse_digits (NilEmpty.string_of_uint d ++ rest) = (d, rest).
Proof.
  intros Hrest.
  induction d; cbn [NilEmpty.string_of_uint];
    rewrite ?str_app_cons, ?str_app_nil;
    try (cbn [parse_digits digit_of_char]; now rewrite IHd).
  destruct rest as [|c r]; [reflexivity |].
  cbn [parse_digits]. simpl in Hrest. now rewrite Hrest.
Qed.

Lemma to_int_norm (n : Z) : norm (Z.to_int n) = Z.to_int n.
Proof. rewrite <- DecimalZ.to_of. now rewrite DecimalZ.of_to. Qed.

Lemma uint_head (d : uint) :
  d <> Nil ->
  exists c s, NilEmpty.string_of_uint d = String c s /\
              digit_of_char c <> None /\ c <> "-"%char.
Proof.
  destruct d; [congruence | ..]; intros _; eexists _, _;
    (split; [reflexivity | split; [discriminate | discriminate]]).
Qed.

Lemma nilzero_nonnil (d : uint) :
  d <> Nil -> NilZero.string_of_uint d = NilEmpty.string_of_uint d.
Proof. destruct d; [congruence | reflexivity ..]. Qed.

Lemma parse_number_print (n : Z) (rest : string) :
  is_delim rest = true ->
  parse_number (print_num n ++ rest) = Some (JNum n, rest).
Proof.
  intros Hd. destruct (is_delim_no_digit _ Hd) as [Hnd Hne].
  pose proof (to_int_norm n) as Hnorm.
  pose proof (DecimalZ.of_to n) as Hof.
  unfold print_num, parse_number.
  destruct (Z.to_int n) as [d | d] eqn:E.
  - assert (Hnil : d <> Nil).
    { intros ->. simpl in Hnorm. discriminate. }
    cbn [NilZero.string_of_int]. rewrite nilzero_nonnil by assumption.
    destruct (uint_head d Hnil) as (c & s & Hs & _ & Hminus).
    rewrite Hs, str_app_cons.
    apply Ascii.eqb_neq in Hminus. rewrite Hminus.
    rewrite <- str_app_cons, <- Hs, parse_digits_print by assumption.
    destruct d; [congruence | ..];
      (destruct (int_eq_dec _ _) as [_ | Hne']; [| congruence]);
      now rewrite Hne, Hof.
  - assert (Hnil : d <> Nil).
    { intros ->. simpl in Hnorm. discriminate. }
    cbn [NilZero.string_of_int]. rewrite nilzero_nonnil by assumption.
    rewrite str_app_cons. cbn [Ascii.eqb Bool.eqb].
    rewrite parse_digits_print by assumption.
    destruct d; [congruence | ..];
      (destruct (int_eq_dec _ _) as [_ | Hne']; [| congruence]);
      now rewrite Hne, Hof.
Qed.

Lemma print_num_head (n : Z) :
  exists c s, print_num n = String c s /\
              (c = "-"%char \/ digit_of_char c <> None).
Proof.
  pose proof (to_int_norm n) as Hnorm. unfold print_num.
  destruct (Z.to_int n) as [d | d].
  - assert (Hnil : d <> Nil).
    { intros ->. simpl in Hnorm. discriminate. }
    cbn [NilZero.string_of_int]. rewrite nilzero_nonnil by assumption.
    destruct (uint_head d Hnil) as (c & s & Hs & Hdig & _).
    exists c, s. split; [assumption | now right].
  - cbn [NilZero.string_of_int]. eexists _, _. split; [reflexivity | now left].
Qed.

Lemma parse_value_numeric (fuel : nat) (c : ascii) (s : string) :
  c = "-"%char \/ digit_of_char c <> None ->
  parse_value (S fuel) (String c s) = parse_number (String c s).
Proof.
  intros H.
  destruct c as [[] [] [] [] [] [] [] []]; try reflexivity;
    exfalso; destruct H as [H | H]; solve [discriminate H | now apply H].
Qed.

Lemma stringify_arr (l : list json) :
  stringify (JArr l) = String "[" (print_elements l).
Proof. induction l; reflexivity. Qed.

Lemma stringify_obj (m : list (string * json)) :
  stringify (JObj m) = String "{" (print_members m).
Proof. induction m; reflexivity. Qed.

(** The first character of a printed value is never a closing bracket. *)
Lemma stringify_head (j : json) :
  exists c s, stringify j = String c s /\ Ascii.eqb c "]" = false.
Proof.
  destruct j as [| [] | n | s | l | m].
  1-3, 5: eexists _, _; split; reflexivity.
  - destruct (print_num_head n) as (c & s & Hs & Hc).
    exists c, s. split; [exact Hs |]. apply Ascii.eqb_neq.
    destruct Hc as [-> | Hc]; [discriminate | intros ->; now apply Hc].
  - rewrite stringify_arr. eexists _, _. split; reflexivity.
  - rewrite stringify_obj. eexists _, _. split; reflexivity.
Qed.

Lemma obj_set_fresh {A} (k : string) (v : A) (o : list (string * A)) :
  ~ In k (map fst o) -> obj_set k v o = (o ++ [(k, v)])%list.
Proof.
  induction o as [| [k' v'] o IH]; simpl; intros Hk; [reflexivity |].
  destruct (String.eqb_spec k' k) as [-> | _]; [tauto |].
  rewrite IH; tauto.
Qed.

Lemma obj_of_entries_nodup {A} (es acc : list (string * A)) :
  List.NoDup (map fst (acc ++ es)%list) ->
  fold_left (fun o kv => obj_set (fst kv) (snd kv) o) es acc
  = (acc ++ es)%list.
Proof.
  revert acc. induction es as [| [k v] es IH]; intros acc Hnd; simpl.
  - now rewrite app_nil_r.
  - assert (Hfresh : ~ In k (map fst acc)).
    { rewrite map_app in Hnd. simpl in Hnd.
      apply List.NoDup_remove_2 in Hnd. rewrite in_app_iff in Hnd. tauto. }
    rewrite obj_set_fresh by assumption.
    rewrite IH; rewrite <- app_assoc; [reflexivity | exact Hnd].
Qed.

Lemma parse_elements_print (l : list json) :
  l <> [] -> Forall parses l ->
  forall fuel rest,
    list_sum (map (fun x => S (cost x)) l) <= fuel -> is_delim rest = true ->
    parse_elements fuel (print_elements l ++ rest) = Some (l, rest).
Proof.
  induction l as [| x l IH]; [congruence |]. intros _ Hall fuel rest Hfuel Hd.
  apply List.Forall_cons_iff in Hall as [Hx Hl].
  cbn [map list_sum fold_right] in Hfuel.
  destruct fuel as [| fuel]; [lia |]. cbn [parse_elements].
  destruct l as [| y l].
  - cbn [print_elements]. str_norm.
    rewrite Hx by (simpl; lia || reflexivity).
    reflexivity.
  - change (print_elements (x :: y :: l))
      with (stringify x ++ "," ++ print_elements (y :: l)).
    str_norm.
    rewrite Hx by (simpl; lia || reflexivity).
    cbn [Ascii.eqb Bool.eqb].
    rewrite IH; [reflexivity | congruence | assumption | | assumption].
    cbn [map list_sum fold_right] in *. lia.
Qed.

Lemma parse_members_print (m : list (string * json)) :
  m <> [] -> Forall (fun kv => parses (snd kv)) m ->
  forall fuel rest,
    list_sum (map (fun kv => S (cost (snd kv))) m) <= fuel ->
    is_delim rest = true ->
    parse_members fuel (print_members m ++ rest) = Some (m, rest).
Proof.
  induction m as [| [k v] m IH]; [congruence |].
  intros _ Hall fuel rest Hfuel Hd.
  apply List.Forall_cons_iff in Hall as [Hv Hm]. simpl in Hv.
  cbn [map list_sum fold_right snd] in Hfuel.
  destruct fuel as [| fuel]; [lia |]. cbn [parse_members].
  destruct m as [| [k' v'] m].
  - cbn [print_members]. unfold quote.
    str_norm.
    cbn [Ascii.eqb Bool.eqb dquote].
    rewrite parse_quote_body. cbn [Ascii.eqb Bool.eqb].
    str_norm.
    rewrite Hv by (simpl; lia || reflexivity).
    reflexivity.
  - change (print_members ((k, v) :: (k', v') :: m))
      with (quote k ++ ":" ++ stringify v ++ "," ++
            print_members ((k', v') :: m)).
    unfold quote at 1.
    str_norm.
    cbn [Ascii.eqb Bool.eqb dquote].
    rewrite parse_quote_body. cbn [Ascii.eqb Bool.eqb].
    str_norm.
    rewrite Hv by (simpl; lia || reflexivity).
    cbn [Ascii.eqb Bool.eqb].
    rewrite IH; [reflexivity | congruence | assumption | | assumption].
    cbn [map list_sum fold_right snd] in *. lia.
Qed.

Lemma forallb_Forall_impl {A} (f : A -> bool) (P : A -> Prop) (l : list A) :
  Forall (fun x => f x = true -> P x) l -> forallb f l = true -> Forall P l.
Proof.
  induction 1 as [| x l Hx _ IH]; simpl; [constructor |].
  rewrite andb_true_iff. intros [Hfx Hfl]. constructor; auto.
Qed.

Lemma parse_value_arr (fuel : nat) (c : ascii) (t : string) :
  Ascii.eqb c "]" = false ->
  parse_value (S fuel) (String "[" (String c t)) =
  match parse_elements fuel (String c t) with
  | Some (l, rest) => Some (JArr l, rest)
  | None => None
  end.
Proof. intros H. simpl. now rewrite H. Qed.

Lemma parse_value_obj (fuel : nat) (t : string) :
  parse_value (S fuel) (String "{" (String dquote t)) =
  match parse_members fuel (String dquote t) with
  | Some (l, rest) => Some (JObj (obj_of_entries l), rest)
  | None => None
  end.
Proof. reflexivity. Qed.

Lemma parse_value_stringify (j : json) : wf j = true -> parses j.
Proof.
  induction j as [| b | n | s | l IH | m IH] using json_ind;
    intros Hwf fuel rest Hfuel Hd;
    (destruct fuel as [| fuel]; [simpl in Hfuel; lia |]).
  - reflexivity.
  - destruct b; reflexivity.
  - destruct (print_num_head n) as (c & s & Hs & Hc).
    cbn [stringify]. rewrite Hs, str_app_cons, parse_value_numeric by exact Hc.
    rewrite <- str_app_cons, <- Hs. now apply parse_number_print.
  - cbn [stringify]. unfold quote.
    rewrite str_app_cons, str_app_assoc, str_app_cons, str_app_nil.
    cbn [parse_value Ascii.eqb Bool.eqb dquote].
    now rewrite parse_quote_body.
  - rewrite stringify_arr, str_app_cons.
    destruct l as [| x l]; [reflexivity |].
    destruct (stringify_head x) as (c & s & Hs & Hc).
    assert (exists t, print_elements (x :: l) = String c t) as [t Ht].
    { destruct l; cbn [print_elements]; rewrite Hs, str_app_cons; eauto. }
    rewrite Ht, str_app_cons, (parse_value_arr _ _ _ Hc).
    rewrite <- str_app_cons, <- Ht.
    simpl in Hwf, Hfuel.
    rewrite parse_elements_print; [reflexivity | congruence | | simpl; lia | assumption].
    apply (forallb_Forall_impl wf); assumption.
  - rewrite stringify_obj, str_app_cons.
    destruct m as [| [k v] m]; [reflexivity |].
    assert (exists t, print_members ((k, v) :: m) = String dquote t)
      as [t Ht].
    { destruct m as [| [k' v'] m]; cbn [print_members]; unfold quote;
        rewrite str_app_cons; eauto. }
    rewrite Ht, str_app_cons, parse_value_obj.
    rewrite <- str_app_cons, <- Ht.
    cbn [wf] in Hwf. apply andb_true_iff in Hwf as [Hnd Hwf].
    apply bool_decide_eq_true in Hnd. cbn [cost] in Hfuel.
    rewrite parse_members_print;
      [ | congruence | | lia | assumption].
    + unfold obj_of_entries.
      rewrite obj_of_entries_nodup; [reflexivity |].
      simpl. now apply NoDup_ListNoDup.
    + apply (forallb_Forall_impl (fun kv => wf (snd kv))); assumption.
Qed.

Lemma cost_le_length (j : json) : cost j <= String.length (stringify j).
Proof.
  induction j as [| b | n | s | l IH | m IH] using json_ind.
  - simpl; lia.
  - destruct b; simpl; lia.
  - destruct (print_num_head n) as (c & s & Hs & _).
    cbn [stringify cost]. rewrite Hs. simpl; lia.
  - simpl; lia.
  - rewrite stringify_arr. cbn [cost String.length]. apply le_n_S.
    induction IH as [| x l Hx Hl IHl]; [simpl; lia |].
    destruct l as [| y l].
    + cbn [print_elements map list_sum fold_right]. rewrite str_app_length. simpl. lia.
    + change (print_elements (x :: y :: l))
        with (stringify x ++ "," ++ print_elements (y :: l)).
      rewrite !str_app_length. cbn [map list_sum fold_right] in *.
      change (String.length ",") with 1. lia.
  - rewrite stringify_obj. cbn [cost String.length]. apply le_n_S.
    induction IH as [| [k v] m Hx Hl IHl]; [simpl; lia |]. simpl in Hx.
    destruct m as [| [k' v'] m].
    + cbn [print_members map list_sum fold_right snd]. rewrite !str_app_length.
      simpl. lia.
    + change (print_members ((k, v) :: (k', v') :: m))
        with (quote k ++ ":" ++ stringify v ++ "," ++
              print_members ((k', v') :: m)).
      rewrite !str_app_length. cbn [map list_sum fold_right snd] in *.
      change (String.length ",") with 1. lia.
Qed.

(** [JSON.parse] inverts [JSON.stringify] on well-formed trees. *)
Lemma parse_stringify (j : json) : wf j = true -> parse (stringify j) = Some j.
Proof.
  intros Hwf. unfold parse.
  pose proof (parse_value_stringify j Hwf (S (String.length (stringify j))) "")
    as H.
  assert (Hnil : forall s : string, s ++ "" = s).
  { induction s as [| c s IHs]; [reflexivity |].
    now rewrite str_app_cons, IHs. }
  rewrite Hnil in H. rewrite H; [reflexivity | | reflexivity].
  pose proof (cost_le_length j). lia.
Qed.

End JsonFacts.

(** ** Reconciliation *)

Section ReconciliationFacts.

Context {T K : Type}.
Variable getKey : T -> K.
Variable updatedAt : T -> option Z.

Local Abbreviation reconcile := (reconcile getKey updatedAt).
Local Abbreviation handleIncomingData := (handleIncomingData getKey updatedAt).
Local Abbreviation lww_rule := (lww_rule getKey updatedAt).
Local Abbreviation step := (step getKey updatedAt).
Local Abbreviation run := (run getKey updatedAt).

Lemma reconcile_writes (collection : K -> option T) (prev : Z)
    (acc : Z * Z * list WriteMessage) (item : T) :
  exists out,
    lww_rule collection item out /\
    snd (reconcile collection prev acc item) = snd acc ++ out.
Proof.
  destruct acc as [[cursor n] writes]. unfold reconcile. cbn [snd].
  destruct (collection (getKey item)) as [existing |] eqn:Hget.
  - destruct (updatedAt item) as [ts |] eqn:Hin.
    + destruct (updatedAt existing) as [ets |] eqn:Hex.
      * destruct (Z.ltb_spec ets ts).
        -- exists [Update item]. split; [| reflexivity].
           eapply lww_update_fresher; eauto.
        -- exists []. split; [| now rewrite app_nil_r].
           eapply lww_discard_stale; eauto.
      * exists [Update item]. split; [| reflexivity].
        eapply lww_update_untimed; eauto.
    + exists []. split; [| now rewrite app_nil_r].
      eapply lww_discard_untimed; eauto.
  - exists [Insert item]. split; [| reflexivity]. now apply lww_insert.
Qed.

Lemma reconcile_loop_writes (collection : K -> option T) (prev : Z)
    (items : list T) (acc : Z * Z * list WriteMessage) :
  exists chunks,
    Forall2 (lww_rule collection) items chunks /\
    snd (fold_left (reconcile collection prev) items acc)
    = snd acc ++ concat chunks.
Proof.
  revert acc. induction items as [| item items IH]; intros acc.
  - exists []. split; [constructor | simpl; now rewrite app_nil_r].
  - destruct (reconcile_writes collection prev acc item) as (out & Hrule & Hout).
    destruct (IH (reconcile collection prev acc item)) as (chunks & Hall & Hw).
    exists (out :: chunks). split; [now constructor |].
    cbn [fold_left concat]. rewrite Hw, Hout. now rewrite app_assoc.
Qed.

Lemma writes_of_batch (writes : list (@WriteMessage T)) :
  writes_of (Begin :: map Write writes ++ [Commit]) = writes.
Proof.
  unfold writes_of. simpl.
  induction writes as [| w writes IH]; simpl; [reflexivity | now f_equal].
Qed.

(** C1.  In a reconciliation batch every incoming record contributes to
    the writes of the batch, in delivery order, exactly what the
    last-write-wins rule gives for it: an insert when its key is not in the
    host collection; when the key is present, an update if both records
    carry a timestamp and the incoming one is strictly greater, nothing if
    it is less or equal, an update if only the incoming record carries a
    timestamp, and nothing if the incoming record carries none. *)
Theorem handleIncomingData_lww (cfg : Config) (s : State)
    (collection : K -> option T) (items : list T) :
  callbacks s = true ->
  exists chunks,
    Forall2 (lww_rule collection) items chunks /\
    writes_of (snd (handleIncomingData cfg s collection items))
    = concat chunks.
Proof.
  intros Hcb. unfold handleIncomingData. rewrite Hcb. cbn [negb orb].
  destruct items as [| item items].
  - exists []. split; [constructor | reflexivity].
  - cbn [length Nat.eqb].
    destruct (reconcile_loop_writes collection (globalCursor s) (item :: items)
                (globalCursor s, 0%Z, [])) as (chunks & Hall & Hw).
    exists chunks. split; [exact Hall |].
    destruct (fold_left _ _ _) as [[cursor n] writes]. cbn [snd] in *.
    now rewrite writes_of_batch, Hw.
Qed.

Lemma reconcile_cursor (collection : K -> option T) (prev : Z)
    (acc : Z * Z * list WriteMessage) (item : T) :
  (fst (fst acc) <= fst (fst (reconcile collection prev acc item)))%Z.
Proof.
  destruct acc as [[cursor n] writes]. unfold reconcile.
  assert (Hc : (cursor <= match updatedAt item with
                          | Some ts => if (cursor <? ts)%Z then ts else cursor
                          | None => cursor
                          end)%Z).
  { destruct (updatedAt item) as [ts |]; [| lia].
    destruct (Z.ltb_spec cursor ts); lia. }
  repeat case_match; exact Hc.
Qed.

Lemma reconcile_loop_cursor (collection : K -> option T) (prev : Z)
    (items : list T) (acc : Z * Z * list WriteMessage) :
  (fst (fst acc)
   <= fst (fst (fold_left (reconcile collection prev) items acc)))%Z.
Proof.
  revert acc. induction items as [| item items IH]; intros acc; [simpl; lia |].
  cbn [fold_left]. etransitivity; [apply reconcile_cursor | apply IH].
Qed.

Lemma handleIncomingData_cursor (cfg : Config) (s : State)
    (collection : K -> option T) (items : list T) :
  (globalCursor s
   <= globalCursor (fst (handleIncomingData cfg s collection items)))%Z.
Proof.
  unfold handleIncomingData.
  destruct (negb (callbacks s) || _); [simpl; lia |].
  pose proof (reconcile_loop_cursor collection (globalCursor s) items
                (globalCursor s, 0%Z, [])) as H.
  destruct (fold_left _ _ _) as [[cursor n] writes]. cbn [fst] in *.
  destruct (_ && _); exact H.
Qed.

Lemma step_cursor (cfg : Config) (s : State) (op : Op) :
  op <> OpCleanup -> (globalCursor s <= globalCursor (step cfg s op))%Z.
Proof.
  intros Hop. destruct op as [| f | f | h | result coll | coll items |];
    cbn [step]; try congruence.
  - simpl; lia.
  - unfold requestFilters, scheduleProcessing. repeat case_match; simpl; lia.
  - unfold releaseFilters, cleanupUnreferencedValues.
    repeat case_match; simpl; lia.
  - unfold timerFires. repeat case_match; simpl; lia.
  - unfold backfillDone. destruct (inflight s); [| simpl; lia].
    destruct result as [items |]; [| simpl; lia].
    pose proof (handleIncomingData_cursor cfg s coll items) as H.
    destruct (handleIncomingData cfg s coll items) as [s1 events].
    cbn [fst] in *. destruct (_ && _); exact H.
  - apply handleIncomingData_cursor.
Qed.

Lemma run_cursor (cfg : Config) (ops : list Op) (s : State) :
  Forall (fun op => op <> OpCleanup) ops ->
  (globalCursor s <= globalCursor (run cfg s ops))%Z.
Proof.
  intros Hall. revert s.
  induction Hall as [| op ops Hop _ IH]; intros s; [simpl; lia |].
  cbn [run fold_left]. etransitivity; [apply (step_cursor cfg s op Hop) |].
  apply IH.
Qed.

Lemma reconcile_cursor_raise (collection : K -> option T) (prev : Z)
    (acc : Z * Z * list WriteMessage) (item : T) :
  let cursor := fst (fst acc) in
  let cursor' := fst (fst (reconcile collection prev acc item)) in
  cursor' = cursor \/ ((cursor < cursor')%Z /\ updatedAt item = Some cursor').
Proof.
  destruct acc as [[cursor n] writes]. unfold reconcile. cbn [fst].
  assert (Hc : let c' := match updatedAt item with
                         | Some ts => if (cursor <? ts)%Z then ts else cursor
                         | None => cursor
                         end in
               c' = cursor \/ ((cursor < c')%Z /\ updatedAt item = Some c')).
  { destruct (updatedAt item) as [ts |]; cbn; [| now left].
    destruct (Z.ltb_spec cursor ts); [right | left]; auto. }
  cbn zeta in Hc. repeat case_match; exact Hc.
Qed.

(** C5.  Along every run of one manager that does not call [cleanup]
    (requests, releases, time-outs, any number of backfill results and of
    subscription deliveries, in any order and with any timestamps) the
    global cursor never decreases: the cursor after any prefix of the run
    is at most the cursor after any longer prefix.  Inside a batch one
    record either leaves the cursor where it is or raises it to its own,
    strictly greater, timestamp.  ([cleanup] ends the life of the synced
    data and sets the cursor back to zero.) *)
Theorem globalCursor_monotone (cfg : Config) (s : State)
    (before after : list Op)
    (collection : K -> option T) (previousCursor : Z)
    (acc : Z * Z * list WriteMessage) (item : T) :
  Forall (fun op => op <> OpCleanup) after ->
  (globalCursor (run cfg s before)
   <= globalCursor (run cfg s (before ++ after)))%Z
  /\
  (let cursor := fst (fst acc) in
   let cursor' := fst (fst (reconcile collection previousCursor acc item)) in
   cursor' = cursor \/
   ((cursor < cursor')%Z /\ updatedAt item = Some cursor')).
Proof.
  intros Hafter. split; [| apply reconcile_cursor_raise].
  unfold run at 2. rewrite fold_left_app. now apply run_cursor.
Qed.

End ReconciliationFacts.

(** ** Predicate extractor *)

Section ExtractorFacts.

Lemma filter_filter_bool {A} (p q : A -> bool) (l : list A) :
  List.filter p (List.filter q l) = List.filter (fun x => q x && p x) l.
Proof.
  induction l as [| x l IH]; [reflexivity |]. simpl.
  destruct (q x); simpl; [destruct (p x) |]; now rewrite IH.
Qed.

Lemma unique_loop_first_seen (values : list value) (seen : gset string) :
  unique_loop seen values
  = List.filter (fun w => negb (bool_decide (toKey w ∈ seen)))
                (first_seen values).
Proof.
  revert seen. induction values as [| v rest IH]; intros seen; [reflexivity |].
  cbn [unique_loop first_seen List.filter].
  destruct (bool_decide_reflect (toKey v ∈ seen)) as [Hin | Hout]; cbn [negb].
  - rewrite IH, filter_filter_bool. apply List.filter_ext. intros w.
    destruct (String.eqb_spec (toKey w) (toKey v)) as [-> | _];
      [| reflexivity].
    now rewrite bool_decide_eq_true_2.
  - rewrite IH, filter_filter_bool. f_equal. apply List.filter_ext. intros w.
    destruct (String.eqb_spec (toKey w) (toKey v)) as [-> | Hne]; cbn [negb andb].
    + rewrite bool_decide_eq_true_2; [reflexivity | set_solver].
    + destruct (bool_decide_reflect (toKey w ∈ seen)) as [Hw | Hw].
      * rewrite bool_decide_eq_true_2; [reflexivity | set_solver].
      * rewrite bool_decide_eq_false_2; [reflexivity |].
        rewrite elem_of_union, elem_of_singleton. tauto.
Qed.

Lemma first_seen_In (values : list value) (v : value) :
  In v (first_seen values) -> In v values.
Proof.
  induction values as [| x rest IH]; [trivial |]. cbn [first_seen].
  intros [-> | Hin]; [now left | right].
  apply List.filter_In in Hin as [Hin _]. now apply IH.
Qed.

Lemma first_seen_nodup (values : list value) :
  List.NoDup (map toKey (first_seen values)).
Proof.
  induction values as [| v rest IH]; [constructor |]. cbn [first_seen map].
  constructor.
  - rewrite in_map_iff. intros (w & Hkey & Hin).
    apply List.filter_In in Hin as [_ Hne].
    rewrite Hkey, String.eqb_refl in Hne. discriminate.
  - clear -IH. induction (first_seen rest) as [| w l IHl]; [constructor |].
    cbn [map] in IH. apply List.NoDup_cons_iff in IH as [Hw Hl].
    cbn [List.filter]. destruct (negb _); [| now apply IHl].
    cbn [map]. constructor; [| now apply IHl].
    rewrite in_map_iff. intros (u & Hkey & Hin).
    apply List.filter_In in Hin as [Hin _].
    apply Hw. rewrite in_map_iff. eauto.
Qed.

(** Every stable key of the walked values keeps a representative. *)
Lemma first_seen_complete (values : list value) (v : value) :
  In v values -> In (toKey v) (map toKey (first_seen values)).
Proof.
  induction values as [| x rest IH]; [trivial |]. cbn [first_seen map].
  destruct (String.eqb_spec (toKey v) (toKey x)) as [Heq | Hne].
  - intros _. left. congruence.
  - intros [-> | Hin]; [congruence | right].
    apply IH in Hin. rewrite in_map_iff in Hin. destruct Hin as (u & Hk & Hu).
    rewrite in_map_iff. exists u. split; [exact Hk |].
    apply List.filter_In. split; [exact Hu |].
    apply negb_true_iff, String.eqb_neq. congruence.
Qed.

Lemma walk_other (f name : string) (args : list expr) :
  name <> "eq" -> name <> "in" ->
  walkExpression (Func name args) f
  = flat_map (fun arg => walkExpression arg f) args.
Proof.
  intros Heq Hin. cbn [walkExpression].
  apply String.eqb_neq in Heq, Hin. now rewrite Heq, Hin.
Qed.

Lemma propRefMatchesField_references (path : list string) (f : string) :
  propRefMatchesField path f = true <-> references f path.
Proof.
  split.
  - destruct path as [| a [| b [| c rest]]]; cbn; try discriminate.
    + intros H. apply String.eqb_eq in H as ->. constructor.
    + intros H. apply String.eqb_eq in H as ->. constructor.
  - intros [| alias]; cbn; apply String.eqb_refl.
Qed.

Lemma walk_constrained (f : string) (e : expr) (v : value) :
  In v (walkExpression e f) <-> constrained f e v.
Proof.
  split.
  - revert v. induction e as [path | w | name args IH] using expr_ind;
      intros v; [intros [] | intros [] |].
    cbn [walkExpression].
    destruct (String.eqb_spec name "eq") as [-> | Hneq].
    { destruct args as [| lhs [| rhs [| ? ?]]]; try (intros []).
      destruct lhs as [p | w | ? ?], rhs as [p' | w' | ? ?];
        cbn [extractFromEq]; try (intros []).
      - destruct (propRefMatchesField p f) eqn:Hm; [| intros []].
        apply propRefMatchesField_references in Hm.
        intros [<- | []]. now apply constrained_eq_ref_val.
      - destruct (propRefMatchesField p' f) eqn:Hm; [| intros []].
        apply propRefMatchesField_references in Hm.
        intros [<- | []]. now apply constrained_eq_val_ref. }
    destruct (String.eqb_spec name "in") as [-> | Hnin].
    { destruct args as [| lhs [| rhs [| ? ?]]]; try (intros []).
      destruct lhs as [p | w | ? ?], rhs as [p' | w' | ? ?];
        cbn [extractFromIn]; try (intros []).
      destruct w'; try (intros []).
      destruct (propRefMatchesField p f) eqn:Hm; [| intros []].
      apply propRefMatchesField_references in Hm.
      intros Hin. now apply constrained_in. }
    rewrite in_flat_map. intros (arg & Harg & Hv).
    eapply constrained_operand; eauto.
    rewrite List.Forall_forall in IH. now apply IH.
  - induction 1 as [path v Hm | path v Hm | path l v Hm Hin
                   | name args arg v Heq Hin Harg _ IH];
      try apply propRefMatchesField_references in Hm.
    + simpl. rewrite Hm. now left.
    + simpl. rewrite Hm. now left.
    + simpl. now rewrite Hm.
    + rewrite walk_other by assumption. apply in_flat_map. eauto.
Qed.

End ExtractorFacts.

(** ** Value codec *)

Section CodecFacts.

Import JsonFacts.

Lemma obj_of_entries_id {A} (es : list (string * A)) :
  NoDup (map fst es) -> obj_of_entries es = es.
Proof.
  intros Hnd. unfold obj_of_entries.
  rewrite obj_of_entries_nodup; [reflexivity |]. now apply NoDup_ListNoDup.
Qed.

Lemma obj_get_map {A B} (g : A -> B) (k : string) (m : list (string * A)) :
  obj_get k (map (fun kv => (fst kv, g (snd kv))) m) = g <$> obj_get k m.
Proof.
  induction m as [| [k' x] m IH]; [reflexivity |]. simpl.
  now destruct (String.eqb k' k).
Qed.

Lemma map_fst_map {A B} (g : A -> B) (m : list (string * A)) :
  map fst (map (fun kv => (fst kv, g (snd kv))) m) = map fst m.
Proof. induction m as [| [k x] m IH]; simpl; [reflexivity | now f_equal]. Qed.

Lemma serializeValue_string (v : value) (tag : string) :
  serializeValue v = JStr tag -> v = VString tag.
Proof.
  destruct v as [| | b | [z | | |] | s | d | l | m]; simpl; try discriminate.
  now intros [= ->].
Qed.

Lemma serializeValue_object (m : list (string * value)) :
  NoDup (map fst m) ->
  serializeValue (VObject m)
  = JObj (map (fun kv => (fst kv, serializeValue (snd kv))) m).
Proof.
  intros Hnd. cbn [serializeValue]. rewrite obj_of_entries_id; [reflexivity |].
  now rewrite map_fst_map.
Qed.

Lemma deserialize_serialize (v : value) :
  plain v = true -> deserializeValue (serializeValue v) = v.
Proof.
  induction v as [| | b | n | s | d | l IH | m IH] using value_ind;
    intros Hplain; try reflexivity.
  - destruct n; reflexivity.
  - destruct d; [reflexivity | discriminate].
  - cbn [plain] in Hplain. cbn [serializeValue deserializeValue isTypeMarker].
    f_equal. rewrite map_map.
    induction IH as [| x l Hx _ IHl]; [reflexivity |].
    cbn [forallb] in Hplain. apply andb_true_iff in Hplain as [Hpx Hpl].
    cbn [map]. now rewrite Hx, IHl.
  - cbn [plain] in Hplain.
    apply andb_true_iff in Hplain as [Hplain Hall].
    apply andb_true_iff in Hplain as [Hnd Hmark].
    apply bool_decide_eq_true in Hnd.
    rewrite serializeValue_object by assumption.
    cbn [deserializeValue isTypeMarker]. rewrite obj_get_map.
    assert (Htag : match serializeValue <$> obj_get "__type" m with
                   | Some (JStr tag) => Some tag
                   | _ => None
                   end = None).
    { destruct (obj_get "__type" m) as [v0 |]; [| reflexivity].
      cbn [fmap option_fmap option_map].
      destruct (serializeValue v0) as [| | | tag | |] eqn:Hser; try reflexivity.
      apply serializeValue_string in Hser. subst v0. discriminate. }
    rewrite Htag. f_equal. rewrite map_map. cbn [fst snd].
    rewrite obj_of_entries_id.
    + clear Hnd Hmark Htag.
      induction IH as [| [k x] m Hx _ IHm]; [reflexivity |].
      cbn [forallb snd] in Hall. apply andb_true_iff in Hall as [Hpx Hpm].
      cbn [map fst snd] in *. now rewrite Hx, IHm.
    + now rewrite (map_fst_map (fun x => deserializeValue (serializeValue x))).
Qed.

Lemma serializeValue_wf (v : value) : plain v = true -> wf (serializeValue v) = true.
Proof.
  induction v as [| | b | n | s | d | l IH | m IH] using value_ind;
    intros Hplain; try reflexivity.
  - destruct n; reflexivity.
  - destruct d; reflexivity.
  - cbn [plain] in Hplain. cbn [serializeValue wf].
    induction IH as [| x l Hx _ IHl]; [reflexivity |].
    cbn [forallb] in Hplain. apply andb_true_iff in Hplain as [Hpx Hpl].
    cbn [map forallb]. now rewrite Hx, IHl.
  - cbn [plain] in Hplain.
    apply andb_true_iff in Hplain as [Hplain Hall].
    apply andb_true_iff in Hplain as [Hnd _].
    apply bool_decide_eq_true in Hnd.
    rewrite serializeValue_object by assumption. cbn [wf].
    rewrite map_fst_map, bool_decide_eq_true_2 by assumption. cbn [andb].
    clear Hnd. induction IH as [| [k x] m Hx _ IHm]; [reflexivity |].
    cbn [forallb snd] in Hall. apply andb_true_iff in Hall as [Hpx Hpm].
    cbn [map forallb snd] in *. now rewrite Hx, IHm.
Qed.

Lemma number_eqb_eq (a b : number) : number_eqb a b = true -> a = b.
Proof.
  destruct a, b; simpl; try discriminate; try reflexivity.
  intros H. apply Z.eqb_eq in H. now subst.
Qed.

Lemma ordered_equal_eq (a : value) : forall b, ordered_equal a b = true -> a = b.
Proof.
  induction a as [| | x | x | s | x | l IH | m IH] using value_ind;
    intros [| | y | y | t | y | l' | m']; cbn [ordered_equal];
    try discriminate; try reflexivity.
  - intros H. apply Bool.eqb_prop in H. now subst.
  - intros H. apply number_eqb_eq in H. now subst.
  - intros H. apply String.eqb_eq in H. now subst.
  - destruct x, y; simpl; try discriminate; try reflexivity.
    intros H. apply String.eqb_eq in H. now subst.
  - intros H. f_equal. revert l' H.
    induction IH as [| x l Hx _ IHl]; intros [| y l'] H;
      try discriminate; [reflexivity |].
    apply andb_true_iff in H as [Hxy Hrest].
    f_equal; [now apply Hx | now apply IHl].
  - intros H. f_equal. revert m' H.
    induction IH as [| [k x] m Hx _ IHm]; intros [| [k' y] m'] H;
      try discriminate; [reflexivity |].
    apply andb_true_iff in H as [H Hrest].
    apply andb_true_iff in H as [Hk Hxy].
    apply String.eqb_eq in Hk. subst k'.
    f_equal; [f_equal; now apply Hx | now apply IHm].
Qed.

(** C8, as the code has it.  Two inputs that are deeply equal and list the
    properties of their mappings in the same order get the same stable
    key; and for every plain input (valid dates, no mapping that reads as a
    type marker) built from [undefined], [NaN], the infinities, dates,
    scalars, arrays and mappings, [fromKey (toKey v)] gives back [v]. *)
Theorem toKey_fromKey_plain (a b v : value) :
  ordered_equal a b = true -> plain v = true ->
  toKey a = toKey b /\ fromKey (toKey v) = Some v.
Proof.
  intros Hab Hv. split.
  - apply ordered_equal_eq in Hab. now subst.
  - unfold fromKey, toKey.
    rewrite parse_stringify by now apply serializeValue_wf.
    now rewrite deserialize_serialize.
Qed.

End CodecFacts.

(** ** Filter reference tracker *)

Section TrackerFacts.

Lemma scan_entries_lookup (entries : list (string * json)) :
  forall (refs : gmap string (gset string)) (arg : string),
    dom (scan_entries refs entries) = dom refs /\
    scan_entries refs entries !! arg
    = (fun set => set ∪ listed_values (dom refs) entries arg) <$> refs !! arg.
Proof.
  induction entries as [| [k sv] rest IH]; intros refs arg;
    cbn [scan_entries listed_values].
  - split; [reflexivity |].
    destruct (refs !! arg) as [set |]; [| reflexivity].
    cbn. f_equal. set_solver.
  - destruct (refs !! k) as [refSet |] eqn:Hk.
    + assert (Hin : k ∈ dom refs) by (apply elem_of_dom; eauto).
      rewrite bool_decide_eq_true_2 by assumption.
      destruct (iterate sv) as [items |].
      * set (refs' := <[k := refSet ∪ strings_of items]> refs).
        assert (Hdom : dom refs' = dom refs).
        { unfold refs'. rewrite dom_insert_L. set_solver. }
        destruct (IH refs' arg) as [IHd IHl]. rewrite IHd, IHl, Hdom.
        split; [reflexivity |]. unfold refs'.
        destruct (String.eqb_spec k arg) as [-> | Hne].
        -- rewrite lookup_insert_eq, Hk. cbn. f_equal. set_solver.
        -- rewrite lookup_insert_ne by assumption.
           destruct (refs !! arg) as [set |]; [| reflexivity].
           cbn. f_equal. set_solver.
      * split; [reflexivity |].
        destruct (refs !! arg) as [set |]; [| reflexivity].
        cbn. f_equal. set_solver.
    + assert (Hout : k ∉ dom refs) by (now apply not_elem_of_dom).
      rewrite bool_decide_eq_false_2 by assumption. apply IH.
Qed.

Lemma add_key_refs_lookup (refs : gmap string (gset string))
    (compositeKey arg : string) :
  dom (add_key_refs refs compositeKey) = dom refs /\
  add_key_refs refs compositeKey !! arg
  = (fun set => set ∪ listed_values (dom refs) (key_entries compositeKey) arg)
      <$> refs !! arg.
Proof.
  unfold add_key_refs, key_entries.
  assert (Hnil : dom refs = dom refs /\
                 refs !! arg
                 = (fun set => set ∪ listed_values (dom refs) [] arg)
                     <$> refs !! arg).
  { split; [reflexivity |]. destruct (refs !! arg); [| reflexivity].
    cbn. f_equal. set_solver. }
  destruct (parse compositeKey) as [j |]; [| exact Hnil].
  destruct (Object_entries j) as [entries |]; [| exact Hnil].
  apply scan_entries_lookup.
Qed.

Lemma empty_refs_dom (cfg : Config) : dom (empty_refs cfg) = dim_args cfg.
Proof.
  unfold empty_refs, dim_args. rewrite dom_list_to_map_L.
  f_equal. rewrite <- list_fmap_compose. reflexivity.
Qed.

Lemma empty_refs_lookup (cfg : Config) (arg : string) (set : gset string) :
  empty_refs cfg !! arg = Some set -> set = ∅.
Proof.
  intros H. apply elem_of_list_to_map_2 in H.
  apply list_elem_of_fmap in H as (d & [= _ ->] & _). reflexivity.
Qed.

Lemma fold_keys_lookup (cfg : Config) (keys : list string) :
  let refs := foldr (fun key acc => add_key_refs acc key) (empty_refs cfg) keys in
  dom refs = dim_args cfg /\
  forall arg serialized,
    serialized ∈ default ∅ (refs !! arg) <->
    arg ∈ dim_args cfg /\
    exists key, In key keys /\
      serialized ∈ listed_values (dim_args cfg) (key_entries key) arg.
Proof.
  induction keys as [| key keys [IHd IHl]]; cbn [foldr].
  - split; [apply empty_refs_dom |]. intros arg v.
    destruct (empty_refs cfg !! arg) as [set |] eqn:Hl.
    + apply empty_refs_lookup in Hl. subst. cbn. split; [set_solver |].
      intros (_ & key & [] & _).
    + cbn. split; [set_solver |]. intros (_ & key & [] & _).
  - set (acc := foldr _ _ keys) in *.
    destruct (add_key_refs_lookup acc key "") as [Hd _].
    split; [now rewrite Hd |]. intros arg v.
    destruct (add_key_refs_lookup acc key arg) as [_ Hl]. rewrite Hl.
    specialize (IHl arg v).
    destruct (acc !! arg) as [set |] eqn:Hacc; cbn in *.
    + assert (Harg : arg ∈ dim_args cfg).
      { rewrite <- IHd. apply elem_of_dom. eauto. }
      rewrite elem_of_union, IHl, IHd. split.
      * intros [(_ & k & Hk & Hv) | Hv]; (split; [assumption |]); eauto.
      * intros (_ & k & [<- | Hk] & Hv); [now right | left; eauto].
    + split; [set_solver |]. intros (Harg & _).
      rewrite <- IHd in Harg. apply elem_of_dom in Harg as [set Hset].
      congruence.
Qed.

(** What [cleanupUnreferencedValues] collects for a dimension: the values
    that some composite key of [refCounts] mentions. *)
Lemma referencedValues_spec (cfg : Config) (refs : gmap string Z)
    (arg serialized : string) :
  serialized ∈ default ∅ (referencedValues cfg refs !! arg) <->
  exists key, is_Some (refs !! key) /\ key_mentions cfg key arg serialized.
Proof.
  unfold referencedValues, key_mentions.
  destruct (fold_keys_lookup cfg (map fst (map_to_list refs))) as [_ H].
  rewrite H. clear H. split.
  - intros (Harg & key & Hin & Hv). exists key. split; [| now split].
    apply in_map_iff in Hin as ([k c] & <- & Hin). cbn.
    apply list_elem_of_In, elem_of_map_to_list in Hin. eauto.
  - intros (key & [c Hc] & Harg & Hv). split; [assumption |].
    exists key. split; [| assumption].
    apply in_map_iff. exists (key, c). split; [reflexivity |].
    now apply list_elem_of_In, elem_of_map_to_list.
Qed.

Lemma referencedValues_dom (cfg : Config) (refs : gmap string Z) :
  dom (referencedValues cfg refs) = dim_args cfg.
Proof. apply (fold_keys_lookup cfg (map fst (map_to_list refs))). Qed.

Lemma retain_referenced_lookup (referenced active : gmap string (gset string))
    (arg : string) :
  retain_referenced referenced active !! arg
  = (fun set : gset string =>
       filter (fun v => v ∈ default ∅ (referenced !! arg)) set)
      <$> active !! arg.
Proof.
  unfold retain_referenced. rewrite map_lookup_imap.
  now destruct (active !! arg).
Qed.

Lemma retain_referenced_dom (referenced active : gmap string (gset string)) :
  dom (retain_referenced referenced active) = dom active.
Proof.
  apply set_eq. intros arg. rewrite !elem_of_dom, retain_referenced_lookup.
  now rewrite fmap_is_Some.
Qed.

Lemma releaseFilters_refCounts (cfg : Config) (s : State)
    (filters : ExtractedFilters) :
  refCounts (releaseFilters cfg s filters)
  = released_refs cfg (refCounts s) filters.
Proof.
  unfold releaseFilters, released_refs, cleanupUnreferencedValues.
  destruct (filterDimensions cfg); repeat case_match; reflexivity.
Qed.

Lemma releaseFilters_active (cfg : Config) (s : State)
    (filters : ExtractedFilters) :
  activeDimensions (releaseFilters cfg s filters)
  = match filterDimensions cfg with
    | [] => activeDimensions s
    | _ => retain_referenced
             (referencedValues cfg (released_refs cfg (refCounts s) filters))
             (activeDimensions s)
    end.
Proof.
  unfold releaseFilters, released_refs, cleanupUnreferencedValues.
  destruct (filterDimensions cfg); repeat case_match; reflexivity.
Qed.

Lemma released_refs_positive (cfg : Config) (refs : gmap string Z)
    (filters : ExtractedFilters) :
  map_Forall (fun _ count => (0 < count)%Z) refs ->
  map_Forall (fun _ count => (0 < count)%Z) (released_refs cfg refs filters).
Proof.
  intros Hpos. unfold released_refs. destruct (filterDimensions cfg); [assumption |].
  destruct (Z.leb_spec (default 0 (refs !! createCompositeKey filters) - 1) 0)%Z.
  - now apply map_Forall_delete.
  - apply map_Forall_insert_2; [lia | assumption].
Qed.

Lemma releaseFilters_consistent (cfg : Config) (s : State)
    (filters : ExtractedFilters) :
  consistent cfg s -> consistent cfg (releaseFilters cfg s filters).
Proof.
  intros [Hdom Hpos]. split.
  - rewrite releaseFilters_active. destruct (filterDimensions cfg);
      [assumption | now rewrite retain_referenced_dom].
  - rewrite releaseFilters_refCounts. now apply released_refs_positive.
Qed.

(** After [releaseFilters] on a consistent state, a value is active for a
    dimension exactly when it was active and is still reachable. *)
Lemma releaseFilters_active_values (cfg : Config) (s : State)
    (filters : ExtractedFilters) (arg serialized : string) :
  consistent cfg s ->
  serialized ∈ active_values (releaseFilters cfg s filters) arg <->
  serialized ∈ active_values s arg /\
  reachable cfg (refCounts (releaseFilters cfg s filters)) arg serialized.
Proof.
  intros Hcons.
  pose proof (releaseFilters_consistent cfg s filters Hcons) as [_ Hpos'].
  destruct Hcons as [Hdom Hpos].
  unfold active_values, reachable.
  rewrite releaseFilters_active. rewrite releaseFilters_refCounts in *.
  destruct (filterDimensions cfg) as [| d dims] eqn:Hdims.
  - assert (Hnone : activeDimensions s !! arg = None).
    { apply not_elem_of_dom. rewrite Hdom. unfold dim_args.
      rewrite Hdims. set_solver. }
    rewrite Hnone. cbn. set_solver.
  - rewrite retain_referenced_lookup.
    destruct (activeDimensions s !! arg) as [set |]; cbn; [| set_solver].
    rewrite elem_of_filter, referencedValues_spec.
    split.
    + intros [(key & [count Hc] & Hm) Hset]. split; [assumption |].
      exists key, count. repeat split; try assumption.
      * exact (Hpos' key count Hc).
      * apply Hm.
      * apply Hm.
    + intros [Hset (key & count & Hc & _ & Hm)]. split; [| assumption].
      exists key. eauto.
Qed.

Lemma requestFilters_active (cfg : Config) (s : State)
    (filters : ExtractedFilters) :
  activeDimensions (fst (requestFilters cfg s filters)) = activeDimensions s.
Proof.
  unfold requestFilters, scheduleProcessing. repeat case_match; reflexivity.
Qed.

Lemma requestFilters_refCounts (cfg : Config) (s : State)
    (filters : ExtractedFilters) :
  refCounts (fst (requestFilters cfg s filters))
  = requested_refs cfg (refCounts s) filters.
Proof.
  unfold requestFilters, requested_refs, scheduleProcessing.
  repeat case_match; reflexivity.
Qed.

Lemma requested_refs_positive (cfg : Config) (refs : gmap string Z)
    (filters : ExtractedFilters) :
  map_Forall (fun _ count => (0 < count)%Z) refs ->
  map_Forall (fun _ count => (0 < count)%Z) (requested_refs cfg refs filters).
Proof.
  intros Hpos. unfold requested_refs.
  destruct (filterDimensions cfg); [assumption |].
  apply map_Forall_insert_2; [| assumption].
  destruct (refs !! createCompositeKey filters) as [c |] eqn:Hc; cbn; [| lia].
  specialize (Hpos _ _ Hc). cbn in Hpos. lia.
Qed.

Lemma merge_pending_lookup (newFilters : ExtractedFilters) :
  forall (active : gmap string (gset string)) (arg : string),
    merge_pending newFilters active !! arg
    = (fun set => set ∪ pending_keys newFilters arg) <$> active !! arg.
Proof.
  unfold merge_pending.
  induction newFilters as [| [k values] rest IH]; intros active arg;
    cbn [fold_left pending_keys fst snd].
  - destruct (active !! arg); [| reflexivity]. cbn. f_equal. set_solver.
  - rewrite IH. destruct (active !! k) as [activeSet |] eqn:Hk.
    + destruct (String.eqb_spec k arg) as [-> | Hne].
      * rewrite lookup_insert_eq, Hk. cbn. f_equal. set_solver.
      * rewrite lookup_insert_ne by assumption.
        destruct (active !! arg); [| reflexivity]. cbn. f_equal. set_solver.
    + destruct (String.eqb_spec k arg) as [-> | Hne].
      * now rewrite Hk.
      * destruct (active !! arg); [| reflexivity]. cbn. f_equal. set_solver.
Qed.

Lemma merge_pending_dom (newFilters : ExtractedFilters)
    (active : gmap string (gset string)) :
  dom (merge_pending newFilters active) = dom active.
Proof.
  apply set_eq. intros arg. rewrite !elem_of_dom, merge_pending_lookup.
  now rewrite fmap_is_Some.
Qed.

Lemma timerFires_refCounts (cfg : Config) (s : State) (h : nat) :
  refCounts (timerFires cfg s h) = refCounts s.
Proof. unfold timerFires. repeat case_match; reflexivity. Qed.

Lemma timerFires_active (cfg : Config) (s : State) (h : nat) :
  activeDimensions (timerFires cfg s h) = activeDimensions s \/
  (activeDimensions (timerFires cfg s h)
   = merge_pending (pendingFilters s) (activeDimensions s) /\
   exists filters,
     inflight (timerFires cfg s h)
     = Some {| bf_promise := h; bf_filters := Some filters |}).
Proof.
  unfold timerFires. repeat case_match; cbn; eauto.
Qed.

End TrackerFacts.

(** ** The manager as a state machine *)

Section ManagerFacts.

Context {T K : Type}.
Variable getKey : T -> K.
Variable updatedAt : T -> option Z.

Local Abbreviation handleIncomingData := (handleIncomingData getKey updatedAt).
Local Abbreviation backfillDone := (backfillDone getKey updatedAt).
Local Abbreviation step := (step getKey updatedAt).
Local Abbreviation run := (run getKey updatedAt).

Lemma handleIncomingData_frame (cfg : Config) (s : State)
    (collection : K -> option T) (items : list T) :
  let s' := fst (handleIncomingData cfg s collection items) in
  activeDimensions s' = activeDimensions s /\
  refCounts s' = refCounts s /\
  pendingFilters s' = pendingFilters s /\
  promises s' = promises s /\ armed s' = armed s /\ inflight s' = inflight s.
Proof.
  unfold handleIncomingData.
  destruct (negb (callbacks s) || _); [cbn; tauto |].
  destruct (fold_left _ _ _) as [[cursor n] writes].
  destruct (_ && _); cbn; tauto.
Qed.

Lemma backfillDone_frame (cfg : Config) (s : State)
    (result : option (list T)) (collection : K -> option T) :
  let s' := fst (backfillDone cfg s result collection) in
  activeDimensions s' = activeDimensions s /\
  refCounts s' = refCounts s /\
  pendingFilters s' = pendingFilters s.
Proof.
  unfold backfillDone. destruct (inflight s); [| cbn; tauto].
  destruct result as [items |]; [| cbn; tauto].
  pose proof (handleIncomingData_frame cfg s collection items) as H.
  destruct (handleIncomingData cfg s collection items) as [s1 events].
  cbn [fst] in *. destruct H as (Ha & Hr & Hp & _).
  destruct (_ && _); cbn; rewrite Ha, Hr, Hp; tauto.
Qed.

Lemma init_consistent (cfg : Config) : consistent cfg (init cfg).
Proof.
  split.
  - exact (empty_refs_dom cfg).
  - apply map_Forall_empty.
Qed.

Lemma step_consistent (cfg : Config) (s : State) (op : Op) :
  consistent cfg s -> consistent cfg (step cfg s op).
Proof.
  intros [Hdom Hpos].
  destruct op as [| f | f | h | result coll | coll items |]; cbn [step].
  - split; assumption.
  - split.
    + now rewrite requestFilters_active.
    + rewrite requestFilters_refCounts. now apply requested_refs_positive.
  - now apply releaseFilters_consistent.
  - split.
    + destruct (timerFires_active cfg s h) as [-> | [-> _]];
        [assumption | now rewrite merge_pending_dom].
    + now rewrite timerFires_refCounts.
  - unfold consistent.
    destruct (backfillDone_frame cfg s result coll) as (-> & -> & _).
    split; assumption.
  - unfold consistent.
    destruct (handleIncomingData_frame cfg s coll items) as (-> & -> & _).
    split; assumption.
  - split; cbn.
    + now rewrite dom_fmap_L.
    + apply map_Forall_empty.
Qed.

Lemma run_consistent (cfg : Config) (ops : list Op) (s : State) :
  consistent cfg s -> consistent cfg (run cfg s ops).
Proof.
  revert s. induction ops as [| op ops IH]; intros s Hs; [assumption |].
  cbn [run fold_left]. apply IH. now apply step_consistent.
Qed.

End ManagerFacts.

(** ** Composite keys *)

Section CompositeKeyFacts.

Lemma obj_get_set_eq {A} (k : string) (v : A) (o : list (string * A)) :
  obj_get k (obj_set k v o) = Some v.
Proof.
  induction o as [| [k' v'] o IH]; simpl.
  - now rewrite String.eqb_refl.
  - destruct (String.eqb_spec k' k) as [-> | Hne]; simpl.
    + now rewrite String.eqb_refl.
    + apply String.eqb_neq in Hne. now rewrite Hne.
Qed.

Lemma obj_get_set_ne {A} (k k' : string) (v : A) (o : list (string * A)) :
  k <> k' -> obj_get k' (obj_set k v o) = obj_get k' o.
Proof.
  intros Hne. induction o as [| [k0 v0] o IH]; simpl.
  - apply String.eqb_neq in Hne. now rewrite Hne.
  - destruct (String.eqb_spec k0 k) as [-> | Hne0]; simpl.
    + apply String.eqb_neq in Hne. now rewrite Hne.
    + now rewrite IH.
Qed.

Lemma obj_get_Some_In {A} (k : string) (v : A) (o : list (string * A)) :
  obj_get k o = Some v -> In (k, v) o.
Proof.
  induction o as [| [k' v'] o IH]; simpl; [discriminate |].
  destruct (String.eqb_spec k' k) as [-> | _]; [intros [= ->]; now left |].
  intros H. right. now apply IH.
Qed.

Lemma obj_get_None {A} (k : string) (o : list (string * A)) :
  obj_get k o = None <-> ~ In k (map fst o).
Proof.
  induction o as [| [k' v'] o IH]; simpl; [tauto |].
  destruct (String.eqb_spec k' k) as [-> | Hne]; [split; [discriminate | tauto] |].
  rewrite IH. tauto.
Qed.

Lemma In_obj_get {A} (k : string) (v : A) (o : list (string * A)) :
  List.NoDup (map fst o) -> In (k, v) o -> obj_get k o = Some v.
Proof.
  induction o as [| [k' v'] o IH]; simpl; [tauto |].
  intros Hnd [[= -> ->] | Hin].
  - now rewrite String.eqb_refl.
  - apply List.NoDup_cons_iff in Hnd as [Hk Hnd].
    destruct (String.eqb_spec k' k) as [-> | _]; [| now apply IH].
    exfalso. apply Hk. apply in_map_iff. now exists (k, v).
Qed.

Lemma obj_set_keys {A} (k : string) (v : A) (o : list (string * A)) :
  map fst (obj_set k v o)
  = if bool_decide (k ∈ map fst o) then map fst o else map fst o ++ [k].
Proof.
  induction o as [| [k' v'] o IH]; cbn [obj_set map fst].
  - rewrite bool_decide_eq_false_2; [reflexivity | apply not_elem_of_nil].
  - destruct (String.eqb_spec k' k) as [-> | Hne]; cbn [map fst].
    + rewrite bool_decide_eq_true_2; [reflexivity | apply list_elem_of_here].
    + rewrite IH. destruct (bool_decide_reflect (k ∈ map fst o)) as [Hin | Hout].
      * rewrite bool_decide_eq_true_2; [reflexivity |].
        now apply list_elem_of_further.
      * rewrite bool_decide_eq_false_2; [reflexivity |].
        rewrite elem_of_cons. intros [? | ?]; congruence.
Qed.

Lemma obj_set_nodup {A} (k : string) (v : A) (o : list (string * A)) :
  List.NoDup (map fst o) -> List.NoDup (map fst (obj_set k v o)).
Proof.
  intros Hnd. rewrite obj_set_keys.
  destruct (bool_decide_reflect (k ∈ map fst o)) as [Hin | Hout];
    [assumption |].
  apply NoDup_ListNoDup, NoDup_app. repeat split.
  - now apply NoDup_ListNoDup.
  - intros x Hx Hk. apply list_elem_of_singleton in Hk. now subst.
  - apply NoDup_singleton.
Qed.

Lemma insert_sorted_In (x y : string) (l : list string) :
  In y (insert_sorted x l) <-> y = x \/ In y l.
Proof.
  induction l as [| z l IH]; simpl; [intuition |].
  destruct (String.leb x z); simpl; [intuition |]. rewrite IH. intuition.
Qed.

Lemma sort_strings_In (y : string) (l : list string) :
  In y (sort_strings l) <-> In y l.
Proof.
  induction l as [| x l IH]; simpl; [tauto |].
  rewrite insert_sorted_In, IH. intuition.
Qed.

Lemma sorted_fold_get (filters : ExtractedFilters) (arg : string)
    (keys : list string) :
  forall acc,
    obj_get arg
      (fold_left
         (fun acc key =>
            match obj_get key filters with
            | Some values => obj_set key (sort_strings (map toKey values)) acc
            | None => acc
            end) keys acc)
    = if bool_decide (arg ∈ keys)
      then match obj_get arg filters with
           | Some values => Some (sorted_entry values)
           | None => obj_get arg acc
           end
      else obj_get arg acc.
Proof.
  induction keys as [| key keys IH]; intros acc; cbn [fold_left].
  - rewrite bool_decide_eq_false_2; [reflexivity | apply not_elem_of_nil].
  - rewrite IH. destruct (String.eqb_spec key arg) as [-> | Hne].
    + rewrite (bool_decide_eq_true_2 (arg ∈ arg :: keys))
        by apply list_elem_of_here.
      destruct (obj_get arg filters) as [values |].
      * now destruct (bool_decide _); [| rewrite obj_get_set_eq].
      * now destruct (bool_decide _).
    + assert (Hacc : obj_get arg
                (match obj_get key filters with
                 | Some values => obj_set key (sort_strings (map toKey values)) acc
                 | None => acc
                 end) = obj_get arg acc).
      { destruct (obj_get key filters); [| reflexivity].
        now apply obj_get_set_ne. }
      rewrite Hacc.
      destruct (bool_decide_reflect (arg ∈ keys)) as [Hin | Hout].
      * rewrite bool_decide_eq_true_2; [reflexivity |].
        now apply list_elem_of_further.
      * rewrite bool_decide_eq_false_2; [reflexivity |].
        rewrite elem_of_cons. intros [? | ?]; congruence.
Qed.

Lemma sorted_filters_get (filters : ExtractedFilters) (arg : string) :
  obj_get arg (sorted_filters filters) = sorted_entry <$> obj_get arg filters.
Proof.
  unfold sorted_filters. rewrite sorted_fold_get. cbn [obj_get].
  destruct (obj_get arg filters) as [values |] eqn:Hget.
  - rewrite bool_decide_eq_true_2; [reflexivity |].
    apply list_elem_of_In, sort_strings_In. apply obj_get_Some_In in Hget.
    apply in_map_iff. now exists (arg, values).
  - now destruct (bool_decide _).
Qed.

Lemma sorted_filters_nodup (filters : ExtractedFilters) :
  List.NoDup (map fst (sorted_filters filters)).
Proof.
  unfold sorted_filters.
  assert (H : forall keys (acc : list (string * list string)),
             List.NoDup (map fst acc) ->
             List.NoDup
               (map fst
                  (fold_left
                     (fun acc key =>
                        match obj_get key filters with
                        | Some values =>
                            obj_set key (sort_strings (map toKey values)) acc
                        | None => acc
                        end) keys acc))).
  { induction keys as [| key keys IH]; intros acc Hacc; [assumption |].
    cbn [fold_left]. apply IH.
    destruct (obj_get key filters); [now apply obj_set_nodup | assumption]. }
  apply H. constructor.
Qed.

Lemma json_of_sorted_wf (sorted : list (string * list string)) :
  List.NoDup (map fst sorted) -> wf (json_of_sorted sorted) = true.
Proof.
  intros Hnd. unfold json_of_sorted. cbn [wf].
  pose proof (map_fst_map (fun vals => JArr (map JStr vals)) sorted) as Hkeys.
  cbn beta in Hkeys. rewrite Hkeys.
  rewrite bool_decide_eq_true_2 by now apply NoDup_ListNoDup.
  cbn [andb]. clear Hnd Hkeys.
  induction sorted as [| [k vals] sorted IH]; [reflexivity |].
  cbn [map forallb fst snd wf]. rewrite IH, andb_true_r.
  clear IH. induction vals as [| v vals IHv]; [reflexivity |]. exact IHv.
Qed.

Lemma key_entries_composite (filters : ExtractedFilters) :
  key_entries (createCompositeKey filters)
  = map (fun kv => (fst kv, JArr (map JStr (snd kv)))) (sorted_filters filters).
Proof.
  unfold key_entries, createCompositeKey.
  rewrite JsonFacts.parse_stringify; [reflexivity |].
  apply json_of_sorted_wf, sorted_filters_nodup.
Qed.

Lemma strings_of_strs (vals : list string) :
  strings_of (map JStr vals) = list_to_set vals.
Proof.
  unfold strings_of. f_equal.
  induction vals as [| v vals IH]; [reflexivity |]. cbn. now rewrite IH.
Qed.

Lemma listed_values_sorted (args : gset string)
    (sorted : list (string * list string)) (arg serialized : string) :
  serialized ∈ listed_values args
                 (map (fun kv => (fst kv, JArr (map JStr (snd kv)))) sorted) arg
  <-> arg ∈ args /\ exists vals, In (arg, vals) sorted /\ In serialized vals.
Proof.
  induction sorted as [| [k vals] sorted IH]; cbn [map listed_values fst snd].
  - split; [set_solver |]. intros (_ & vals & [] & _).
  - destruct (bool_decide_reflect (k ∈ args)) as [Hk | Hk].
    + cbn [iterate]. rewrite elem_of_union, IH, strings_of_strs.
      destruct (String.eqb_spec k arg) as [-> | Hne].
      * rewrite elem_of_list_to_set, list_elem_of_In. split.
        -- intros [Hin | (Ha & vs & Hvs & Hin)]; (split; [assumption |]).
           ++ exists vals. split; [now left | assumption].
           ++ exists vs. split; [now right | assumption].
        -- intros (_ & vs & [[= <-] | Hvs] & Hin); [now left | right].
           split; [assumption |]. eauto.
      * split.
        -- intros [Hin | (Ha & vs & Hvs & Hin)]; [set_solver |].
           split; [assumption |]. exists vs. split; [now right | assumption].
        -- intros (Ha & vs & [[= ? ?] | Hvs] & Hin); [congruence | right].
           split; [assumption |]. eauto.
    + rewrite IH. split.
      * intros (Ha & vs & Hvs & Hin). split; [assumption |].
        exists vs. split; [now right | assumption].
      * intros (Ha & vs & [[= ? ?] | Hvs] & Hin); [congruence |].
        split; [assumption |]. eauto.
Qed.

(** What a composite key made by [createCompositeKey] mentions: for a
    configured dimension, the stable keys of the values the combination
    holds for it. *)
Lemma key_mentions_composite (cfg : Config) (filters : ExtractedFilters)
    (arg serialized : string) :
  key_mentions cfg (createCompositeKey filters) arg serialized <->
  arg ∈ dim_args cfg /\
  exists values x,
    obj_get arg filters = Some values /\ In x values /\ serialized = toKey x.
Proof.
  unfold key_mentions. rewrite key_entries_composite, listed_values_sorted.
  split.
  - intros (Ha & _ & vals & Hin & Hv). split; [assumption |].
    apply In_obj_get in Hin; [| apply sorted_filters_nodup].
    rewrite sorted_filters_get in Hin.
    destruct (obj_get arg filters) as [values |]; [| discriminate].
    injection Hin as <-. apply sort_strings_In, in_map_iff in Hv.
    destruct Hv as (x & <- & Hx). eauto.
  - intros (Ha & values & x & Hget & Hx & ->). repeat split; try assumption.
    exists (sorted_entry values). split.
    + apply obj_get_Some_In. now rewrite sorted_filters_get, Hget.
    + apply sort_strings_In, in_map_iff. eauto.
Qed.

End CompositeKeyFacts.

(** ** Releasing filters *)

Section ReleaseFacts.

Context {T K : Type}.
Variable getKey : T -> K.
Variable updatedAt : T -> option Z.

Local Abbreviation run := (run getKey updatedAt).

(** C3.  In every state the manager can reach, after [releaseFilters] a
    value is in the active set of a dimension if and only if it was
    active and is still reachable from a surviving composite key with a
    positive count.  In particular a value that a surviving combination
    holds for a configured dimension stays active, whatever combination
    was released. *)
Theorem releaseFilters_keeps_reachable (cfg : Config) (ops : list Op)
    (released : ExtractedFilters) (arg serialized : string) :
  let s := run cfg (init cfg) ops in
  let s' := releaseFilters cfg s released in
  (serialized ∈ active_values s' arg <->
   serialized ∈ active_values s arg /\
   reachable cfg (refCounts s') arg serialized)
  /\
  (forall kept count values x,
     refCounts s' !! createCompositeKey kept = Some count ->
     arg ∈ dim_args cfg ->
     obj_get arg kept = Some values -> In x values ->
     toKey x ∈ active_values s arg ->
     toKey x ∈ active_values s' arg).
Proof.
  intros s s'.
  assert (Hcons : consistent cfg s).
  { apply run_consistent, init_consistent. }
  split; [now apply releaseFilters_active_values |].
  intros kept count values x Hcount Harg Hget Hx Hactive.
  apply releaseFilters_active_values; [assumption |].
  split; [assumption |]. exists (createCompositeKey kept), count.
  split; [assumption |]. split.
  - pose proof (releaseFilters_consistent cfg s released Hcons) as [_ Hpos].
    exact (Hpos _ _ Hcount).
  - apply key_mentions_composite. split; [assumption |]. eauto.
Qed.

End ReleaseFacts.

(** The scenario of the specification: [c1] is requested, then [c1] and
    [c2] together; releasing the first combination keeps [c1] active. *)
Lemma releaseFilters_keeps_reachable_witness :
  toKey (VString "c1")
  ∈ active_values
      (releaseFilters Scenario.channels
         (Scenario.run' Scenario.channels (init Scenario.channels)
            [OpSetCallbacks; OpRequest Scenario.c1; OpTimer 0;
             OpBackfill (Some []) Scenario.no_records;
             OpRequest Scenario.c1_c2; OpTimer 1;
             OpBackfill (Some []) Scenario.no_records])
         Scenario.c1)
      "channelIds".
Proof.
  refine (proj2 (releaseFilters_keeps_reachable Scenario.msg_id Scenario.msg_updatedAt
                   Scenario.channels _ Scenario.c1 "channelIds" "")
            Scenario.c1_c2 1%Z [VString "c1"; VString "c2"] (VString "c1")
            _ _ _ _ _).
  - vm_compute. reflexivity.
  - vm_compute. reflexivity.
  - reflexivity.
  - simpl. tauto.
  - vm_compute. reflexivity.
Defined.

(** ** A request and its release *)

(** C4.  The code breaks the claim.  On a fresh manager with the one
    dimension [channelIds], [requestFilters] for [c1] followed at once by
    [releaseFilters] with the same argument puts the reference counts back
    (no entry is left) but leaves [c1] in the pending buffer with the
    time-out armed: [releaseFilters] prunes the active sets only.  When
    the debounce/backfill cycle then completes, [processFilterBatch]
    makes [c1] active and subscribes to it, although no reference to it
    is left: the active sets are not what they were before the pair. *)
Theorem released_request_leaks :
  let s0 := setCallbacks (init Scenario.channels) in
  let pair :=
    Scenario.run' Scenario.channels s0
      [OpRequest Scenario.c1; OpRelease Scenario.c1] in
  let s :=
    Scenario.run' Scenario.channels pair
      [OpTimer 0; OpBackfill (Some []) Scenario.no_records] in
  (active_values s0 "channelIds" = ∅ /\ refCounts s0 = ∅) /\
  (active_values pair "channelIds" = ∅ /\ refCounts pair = ∅ /\
   pendingFilters pair = Scenario.c1 /\ armed pair = {[0]}) /\
  (active_values s "channelIds" = {[toKey (VString "c1")]} /\
   refCounts s = ∅ /\ is_Some (currentSubscription s) /\
   promises s = [Fulfilled]) /\
  activeDimensions s <> activeDimensions s0.
Proof.
  intros s0 pair s.
  split; [split | split; [split; [| split; [| split]] | split;
                          [split; [| split; [| split]] |]]].
  - apply (bool_decide_unpack _). vm_compute. exact I.
  - apply (bool_decide_unpack _). vm_compute. exact I.
  - apply (bool_decide_unpack _). vm_compute. exact I.
  - apply (bool_decide_unpack _). vm_compute. exact I.
  - vm_compute. reflexivity.
  - apply (bool_decide_unpack _). vm_compute. exact I.
  - apply (bool_decide_unpack _). vm_compute. exact I.
  - apply (bool_decide_unpack _). vm_compute. exact I.
  - vm_compute. eauto.
  - vm_compute. reflexivity.
  - intros H.
    apply (f_equal (fun m : gmap string (gset string) =>
                      bool_decide (toKey (VString "c1")
                                   ∈ default ∅ (m !! "channelIds")))) in H.
    vm_compute in H. discriminate.
Qed.

(** ** Growth and shrinking of the active sets *)

Section ActiveFacts.

Context {T K : Type}.
Variable getKey : T -> K.
Variable updatedAt : T -> option Z.

Local Abbreviation step := (step getKey updatedAt).

Lemma pending_keys_elem (pending : ExtractedFilters) (arg serialized : string) :
  serialized ∈ pending_keys pending arg ->
  exists values x,
    In (arg, values) pending /\ In x values /\ serialized = toKey x.
Proof.
  induction pending as [| [k values] rest IH]; cbn [pending_keys];
    [set_solver |].
  rewrite elem_of_union. intros [Hhere | Hrest].
  - destruct (String.eqb_spec k arg) as [-> | _]; [| set_solver].
    apply elem_of_list_to_set, list_elem_of_In, in_map_iff in Hhere.
    destruct Hhere as (x & <- & Hx). exists values, x.
    split; [now left | now split].
  - destruct (IH Hrest) as (values' & x & Hin & Hx & ->).
    exists values', x. split; [now right | now split].
Qed.

Lemma releaseFilters_shrinks (cfg : Config) (s : State)
    (filters : ExtractedFilters) (arg serialized : string) :
  serialized ∈ active_values (releaseFilters cfg s filters) arg ->
  serialized ∈ active_values s arg.
Proof.
  unfold active_values. rewrite releaseFilters_active.
  destruct (filterDimensions cfg); [trivial |].
  rewrite retain_referenced_lookup.
  destruct (activeDimensions s !! arg); cbn; [| trivial].
  rewrite elem_of_filter. tauto.
Qed.

Lemma releaseFilters_evicts (cfg : Config) (s : State)
    (filters : ExtractedFilters) (arg serialized : string) :
  serialized ∈ active_values s arg ->
  serialized ∉ active_values (releaseFilters cfg s filters) arg ->
  ~ reachable cfg (refCounts (releaseFilters cfg s filters)) arg serialized.
Proof.
  unfold active_values.
  rewrite releaseFilters_active, releaseFilters_refCounts.
  intros Hin Hout (key & count & Hc & _ & Hm). apply Hout. clear Hout.
  destruct (filterDimensions cfg) eqn:Hdims; [assumption |].
  rewrite retain_referenced_lookup.
  destruct (activeDimensions s !! arg); cbn in *; [| assumption].
  rewrite elem_of_filter. split; [| assumption].
  apply referencedValues_spec. exists key. split; [eauto |].
  unfold released_refs in *. rewrite Hdims in *. assumption.
Qed.

(** C6, as the code has it.  One event changes the membership of a value
    in an active set in two ways only.  A value enters when a debounce
    timer fires and [processFilterBatch] merges the pending buffer, where
    the value was waiting; the pass is then suspended on its backfill
    query, which has not completed.  A value leaves when [releaseFilters]
    finds it unreachable from the surviving composite keys, or when
    [cleanup] clears everything. *)
Theorem active_set_changes (cfg : Config) (s : State) (op : Op)
    (arg serialized : string) :
  let s' := step cfg s op in
  (serialized ∉ active_values s arg -> serialized ∈ active_values s' arg ->
   exists h x filters,
     op = OpTimer h /\ is_pending_value s arg x /\ serialized = toKey x /\
     inflight s' = Some {| bf_promise := h; bf_filters := Some filters |})
  /\
  (serialized ∈ active_values s arg -> serialized ∉ active_values s' arg ->
   (exists filters,
      op = OpRelease filters /\
      ~ reachable cfg (refCounts s') arg serialized)
   \/ op = OpCleanup).
Proof.
  intros s'. unfold s'.
  destruct op as [| f | f | h | result coll | coll items |]; cbn [step].
  - split; intros; contradiction.
  - unfold active_values. rewrite requestFilters_active.
    split; intros; contradiction.
  - split.
    + intros Hout Hin. apply releaseFilters_shrinks in Hin. contradiction.
    + intros Hin Hout. left. exists f. split; [reflexivity |].
      now apply releaseFilters_evicts.
  - unfold active_values.
    destruct (timerFires_active cfg s h) as [-> | [-> [filters Hpass]]];
      [split; intros; contradiction |].
    rewrite merge_pending_lookup.
    destruct (activeDimensions s !! arg) as [set |]; cbn;
      [| split; intros; contradiction].
    split.
    + rewrite elem_of_union. intros Hout [Hin | Hin]; [contradiction |].
      destruct (pending_keys_elem _ _ _ Hin) as (values & x & Hp & Hx & ->).
      exists h, x, filters. repeat split; try assumption.
      exists values. now split.
    + intros Hin Hout. exfalso. apply Hout. set_solver.
  - unfold active_values.
    destruct (backfillDone_frame getKey updatedAt cfg s result coll)
      as (-> & _). split; intros; contradiction.
  - unfold active_values.
    destruct (handleIncomingData_frame getKey updatedAt cfg s coll items)
      as (-> & _). split; intros; contradiction.
  - split; [| now right].
    unfold active_values. cbn [cleanup activeDimensions].
    rewrite lookup_fmap. intros _ Hin.
    destruct (activeDimensions s !! arg); cbn in Hin; set_solver.
Qed.

End ActiveFacts.

Lemma active_set_changes_witness :
  let s :=
    Scenario.run' Scenario.channels (init Scenario.channels)
      [OpSetCallbacks; OpRequest Scenario.c1] in
  exists h x filters,
    OpTimer 0 = OpTimer h :> Scenario.Op' /\
    is_pending_value s "channelIds" x /\
    toKey (VString "c1") = toKey x /\
    inflight (timerFires Scenario.channels s 0)
    = Some {| bf_promise := h; bf_filters := Some filters |}.
Proof.
  intros s.
  refine (proj1 (active_set_changes Scenario.msg_id Scenario.msg_updatedAt
                   Scenario.channels s (OpTimer 0) "channelIds"
                   (toKey (VString "c1"))) _ _).
  - apply (bool_decide_unpack _). vm_compute. exact I.
  - apply (bool_decide_unpack _). vm_compute. exact I.
Defined.

(** C6 as stated fails: the time-out fires, the pending value [c1] joins
    the active set, the backfill query then fails and the promise of the
    batch rejects; [c1] is active although no backfill covering it ever
    completed. *)
Lemma active_without_backfill_counterexample :
  let s :=
    Scenario.run' Scenario.channels (init Scenario.channels)
      [OpSetCallbacks; OpRequest Scenario.c1; OpTimer 0] in
  let s' :=
    Scenario.run' Scenario.channels s [OpBackfill None Scenario.no_records] in
  (inflight s = Some {| bf_promise := 0; bf_filters := Some Scenario.c1 |} /\
   toKey (VString "c1") ∈ active_values s "channelIds") /\
  (promises s' = [Rejected] /\
   toKey (VString "c1") ∈ active_values s' "channelIds").
Proof.
  repeat split; try reflexivity;
    apply (bool_decide_unpack _); vm_compute; exact I.
Qed.

(** ** Promises of coalesced callers *)

Section PromiseFacts.

Context {T K : Type}.
Variable getKey : T -> K.
Variable updatedAt : T -> option Z.

Local Abbreviation step := (step getKey updatedAt).
Local Abbreviation run := (run getKey updatedAt).

Lemma settle_other (p q : nat) (outcome : PromiseState)
    (l : list PromiseState) :
  q <> p -> settle q outcome l !! p = l !! p.
Proof.
  intros Hne. unfold settle. destruct (l !! q) as [[] |]; try reflexivity.
  now apply list_lookup_insert_ne.
Qed.

Lemma scheduleProcessing_orphaned (p : nat) (s : State) :
  orphaned p s -> orphaned p (fst (scheduleProcessing s)).
Proof.
  intros (Hp & Harmed & Hpass).
  unfold orphaned, scheduleProcessing. cbn [fst promises armed inflight].
  assert (Hlt : p < length (promises s)) by (eapply lookup_lt_Some; eauto).
  split; [| split].
  - now rewrite lookup_app_l.
  - rewrite elem_of_union, elem_of_singleton.
    intros [-> | Hin]; [lia |]. destruct (debounceTimer s); set_solver.
  - assumption.
Qed.

Lemma requestFilters_orphaned (cfg : Config) (p : nat) (s : State)
    (filters : ExtractedFilters) :
  orphaned p s -> orphaned p (fst (requestFilters cfg s filters)).
Proof.
  intros H. unfold requestFilters.
  repeat case_match; cbn [fst]; try exact H.
  all: match goal with
       | Heq : scheduleProcessing _ = (?s2, _) |- _ =>
           apply (f_equal fst) in Heq; cbn [fst] in Heq; subst s2;
           apply scheduleProcessing_orphaned; exact H
       end.
Qed.

Lemma timerFires_orphaned (cfg : Config) (p : nat) (s : State) (h : nat) :
  orphaned p s -> orphaned p (timerFires cfg s h).
Proof.
  intros (Hp & Harmed & Hpass). unfold timerFires.
  destruct (bool_decide_reflect (h ∈ armed s)) as [Hh | _];
    [| now repeat split].
  assert (Hne : h <> p) by (intros ->; contradiction).
  unfold orphaned.
  repeat case_match; cbn [promises armed inflight set_runtime set_tracking
                            set_active];
    (split; [| split]);
    try (rewrite settle_other by assumption);
    try assumption; try set_solver;
    intros pass [= <-]; exact Hne.
Qed.

Lemma backfillDone_orphaned (cfg : Config) (p : nat) (s : State)
    (result : option (list T)) (collection : K -> option T) :
  orphaned p s ->
  orphaned p (fst (backfillDone getKey updatedAt cfg s result collection)).
Proof.
  intros (Hp & Harmed & Hpass). unfold backfillDone.
  destruct (inflight s) as [pass |] eqn:Hin;
    [| unfold orphaned; cbn [fst]; rewrite Hin;
       split; [| split]; try assumption; discriminate].
  specialize (Hpass pass eq_refl).
  destruct result as [items |].
  - pose proof (handleIncomingData_frame getKey updatedAt cfg s collection items)
      as (_ & _ & _ & Hpr & Har & _).
    destruct (handleIncomingData getKey updatedAt cfg s collection items)
      as [s1 events].
    cbn [fst] in *. unfold orphaned.
    destruct (_ && _); cbn; rewrite settle_other, Hpr, Har by assumption;
      repeat split; try assumption; discriminate.
  - unfold orphaned. cbn. rewrite settle_other by assumption.
    repeat split; try assumption; discriminate.
Qed.

Lemma step_orphaned (cfg : Config) (p : nat) (s : State) (op : Op) :
  orphaned p s -> orphaned p (step cfg s op).
Proof.
  intros H. destruct op as [| f | f | h | result coll | coll items |];
    cbn [step].
  - exact H.
  - now apply requestFilters_orphaned.
  - destruct H as (Hp & Harmed & Hpass).
    unfold releaseFilters, cleanupUnreferencedValues.
    repeat case_match; now repeat split.
  - now apply timerFires_orphaned.
  - now apply backfillDone_orphaned.
  - destruct H as (Hp & Harmed & Hpass). unfold orphaned.
    destruct (handleIncomingData_frame getKey updatedAt cfg s coll items)
      as (_ & _ & _ & -> & -> & ->). now repeat split.
  - destruct H as (Hp & Harmed & Hpass). unfold orphaned. cbn.
    repeat split; try assumption. destruct (debounceTimer s); set_solver.
Qed.

(** A promise that no time-out and no suspended pass carries stays
    pending whatever happens next. *)
Lemma orphaned_forever (cfg : Config) (p : nat) (ops : list Op) (s : State) :
  orphaned p s -> promises (run cfg s ops) !! p = Some Pending.
Proof.
  revert s. induction ops as [| op ops IH]; intros s H; [apply H |].
  cbn [run fold_left]. apply IH. now apply step_orphaned.
Qed.

End PromiseFacts.

(** C7 fails on the code.  Two callers ask for [c1] and for [c2] within
    one debounce window.  Each gets a promise of its own; the second call
    clears the time-out of the first, so when the batch has run the second
    promise is fulfilled and the first is still pending, and nothing that
    can happen afterwards settles it. *)
Theorem coalesced_promise_never_settles :
  let s0 := setCallbacks (init Scenario.channels) in
  let r1 := requestFilters Scenario.channels s0 Scenario.c1 in
  let r2 := requestFilters Scenario.channels (fst r1) Scenario.c2 in
  let s :=
    Scenario.run' Scenario.channels (fst r2)
      [OpTimer 1; OpBackfill (Some []) Scenario.no_records] in
  snd r1 = Scheduled 0 /\ snd r2 = Scheduled 1 /\
  promises s = [Pending; Fulfilled] /\
  (active_values s "channelIds"
   = ({[toKey (VString "c1"); toKey (VString "c2")]} : gset string)) /\
  (forall ops : list Scenario.Op',
     promises (Scenario.run' Scenario.channels s ops) !! 0 = Some Pending).
Proof.
  intros s0 r1 r2 s.
  split; [reflexivity |]. split; [reflexivity |]. split; [reflexivity |].
  split.
  - apply (bool_decide_unpack _). vm_compute. exact I.
  - intros ops. apply orphaned_forever. split; [reflexivity |]. split.
    + apply (bool_decide_unpack _). vm_compute. exact I.
    + intros pass Hpass. vm_compute in Hpass. discriminate.
Qed.

(** ** The [single] constraint *)

(** What [requestFilters] does keep when it rejects a request for one
    [single] dimension: the error carries the field and the three counts,
    and the active sets and the pending buffer are untouched. *)
Lemma requestFilters_single_rejects (cfg : Config) (s : State)
    (arg : string) (values : list value) (dim : FilterDimension)
    (activeSet : gset string) (e : SingleViolation) :
  filterDimensions cfg <> [] ->
  activeDimensions s !! arg = Some activeSet ->
  find_dimension cfg arg = Some dim -> single dim = true ->
  check_single dim activeSet arg values (pendingFilters s) = Some e ->
  let r := requestFilters cfg s [(arg, values)] in
  snd r = Threw e /\
  sv_filterField e = filterField dim /\
  (1 < sv_active e + sv_pending e + sv_new e) /\
  activeDimensions (fst r) = activeDimensions s /\
  pendingFilters (fst r) = pendingFilters s.
Proof.
  intros Hdims Hactive Hfind Hsingle Hcheck r. unfold r, requestFilters.
  destruct (filterDimensions cfg) as [| d dims]; [congruence |].
  cbn [request_loop]. rewrite Hactive, Hfind, Hsingle, Hcheck. cbn.
  unfold check_single in Hcheck.
  destruct (Nat.ltb_spec 1 (size activeSet
              + match obj_get arg (pendingFilters s) with
                | Some l => length l
                | None => 0
                end
              + length (List.filter
                  (fun v => negb (bool_decide (toKey v ∈ activeSet))
                            && negb (is_pending (toKey v)
                                       (obj_get arg (pendingFilters s))))
                  values))) as [Hlt | _]; [| discriminate].
  injection Hcheck as <-. cbn. repeat split. exact Hlt.
Qed.

(** C2 fails on the code.  On a fresh manager whose only dimension is
    [single], asking for two values throws the error with the counts
    (0, 0, 2), yet the reference count of the rejected combination has
    been incremented; and with a plain dimension ahead of the [single]
    one, the values of the plain dimension are already in the pending
    buffer when the error is thrown. *)
Theorem single_violation_mutates_state :
  let s := init Scenario.single_page in
  let r := requestFilters Scenario.single_page s Scenario.pages_a_b in
  let s' := init Scenario.channel_and_page in
  let r' := requestFilters Scenario.channel_and_page s' Scenario.c1_pages_a_b in
  (snd r = Threw {| sv_filterField := "pageId"; sv_active := 0;
                    sv_pending := 0; sv_new := 2 |} /\
   refCounts s !! createCompositeKey Scenario.pages_a_b = None /\
   refCounts (fst r) !! createCompositeKey Scenario.pages_a_b = Some 1%Z) /\
  (snd r' = Threw {| sv_filterField := "pageId"; sv_active := 0;
                     sv_pending := 0; sv_new := 2 |} /\
   pendingFilters s' = [] /\
   pendingFilters (fst r') = [("channelIds", [VString "c1"])] /\
   armed (fst r') = ∅).
Proof.
  repeat split; vm_compute; reflexivity.
Qed.

(** ** The collection adapter *)

Lemma extractMultiple_nil (options : LoadSubsetOptions)
    (dims : list FilterDimension) :
  (forall dim, In dim dims -> extractFilterValues options (filterField dim) = []) ->
  extractMultipleFilterValues options dims = [].
Proof.
  unfold extractMultipleFilterValues. generalize (@nil (string * list value)).
  induction dims as [| dim dims IH]; intros acc Hall; [reflexivity |].
  cbn [fold_left]. rewrite (Hall dim) by now left. cbn [length Nat.eqb negb].
  apply IH. intros d Hd. apply Hall. now right.
Qed.

(** C10.  With at least one dimension configured, a [loadSubset] call
    whose predicate yields no value for any dimension returns an
    already-resolved promise and leaves the whole state of the manager as
    it was: reference counts, pending buffer, timer and promises
    included. *)
Theorem loadSubset_without_values (cfg : Config) (s : State)
    (options : LoadSubsetOptions) :
  filterDimensions cfg <> [] ->
  (forall dim, In dim (filterDimensions cfg) ->
     extractFilterValues options (filterField dim) = []) ->
  loadSubset cfg s options = (s, Resolved).
Proof.
  intros Hdims Hnone. unfold loadSubset.
  destruct (filterDimensions cfg) as [| d dims] eqn:E; [congruence |].
  now rewrite extractMultiple_nil.
Qed.

Lemma loadSubset_without_values_witness :
  let options :=
    {| where_ := Some (Func "eq" [Ref ["msg"; "clientId"]; Val (VString "x")]) |} in
  loadSubset Scenario.channels (init Scenario.channels) options
  = (init Scenario.channels, Resolved).
Proof.
  intros options. apply loadSubset_without_values.
  - discriminate.
  - intros dim [<- | []]. reflexivity.
Defined.

(** ** Witnesses and counterexamples for the codec and the reconciliation *)

Lemma handleIncomingData_lww_witness :
  let fresh := {| Scenario.msg_id := "m1"; Scenario.msg_channelId := "c1";
                  Scenario.msg_updatedAt := Some 7%Z |} in
  let stored := {| Scenario.msg_id := "m1"; Scenario.msg_channelId := "c1";
                   Scenario.msg_updatedAt := Some 5%Z |} in
  let collection := fun k => if String.eqb k "m1" then Some stored else None in
  exists chunks,
    Forall2 (lww_rule Scenario.msg_id Scenario.msg_updatedAt collection)
            [fresh; stored] chunks /\
    writes_of (snd (handleIncomingData Scenario.msg_id Scenario.msg_updatedAt
                      Scenario.channels
                      (setCallbacks (init Scenario.channels))
                      collection [fresh; stored]))
    = concat chunks.
Proof.
  intros fresh stored collection.
  apply (handleIncomingData_lww Scenario.msg_id Scenario.msg_updatedAt).
  reflexivity.
Defined.

Lemma toKey_fromKey_plain_witness :
  let v :=
    VObject [("when", VDate (Some epoch));
             ("list", VArray [VUndefined; VNumber NaN; VNumber PosInfinity;
                              VNumber NegInfinity; VNumber (Finite 3)]);
             ("name", VString "c1")] in
  toKey v = toKey v /\ fromKey (toKey v) = Some v.
Proof.
  intros v. apply toKey_fromKey_plain; reflexivity.
Defined.

(** C8 as stated fails.  Two mappings with the same properties listed in
    a different order are deeply equal and get different stable keys; and
    a mapping that reads as a type marker is not restored. *)
Lemma toKey_order_counterexample :
  let a := VObject [("a", VNumber (Finite 1)); ("b", VNumber (Finite 2))] in
  let b := VObject [("b", VNumber (Finite 2)); ("a", VNumber (Finite 1))] in
  let m := VObject [("__type", VString "undefined")] in
  (deep_equal a b = true /\ toKey a <> toKey b) /\
  (fromKey (toKey m) = Some VUndefined /\ VUndefined <> m).
Proof.
  repeat split; try reflexivity; discriminate.
Qed.

(** ** The scenarios of the specification *)

(** One dimension: the first request backfills [c1]; the request for
    [c1] and [c2] backfills only [c2]; releasing [c1] alone keeps both
    values active since the second combination still holds them. *)
Lemma scenario_channels :
  let s1 :=
    Scenario.run' Scenario.channels (init Scenario.channels)
      [OpSetCallbacks; OpRequest Scenario.c1; OpTimer 0] in
  let s2 :=
    Scenario.run' Scenario.channels s1
      [OpBackfill (Some []) Scenario.no_records;
       OpRequest Scenario.c1_c2; OpTimer 1] in
  let s3 :=
    Scenario.run' Scenario.channels s2
      [OpBackfill (Some []) Scenario.no_records; OpRelease Scenario.c1] in
  inflight s1 = Some {| bf_promise := 0; bf_filters := Some Scenario.c1 |} /\
  inflight s2 = Some {| bf_promise := 1; bf_filters := Some Scenario.c2 |} /\
  active_values s3 "channelIds"
  = ({[toKey (VString "c1"); toKey (VString "c2")]} : gset string).
Proof.
  split; [vm_compute; reflexivity |]. split; [vm_compute; reflexivity |].
  apply (bool_decide_unpack _). vm_compute. exact I.
Qed.

(** No dimension: two requests count two references and schedule one
    pass; the first release keeps the subscription, the second ends it. *)
Lemma scenario_global :
  let cfg := {| filterDimensions := []; tailOverlapMs := 10000;
                resubscribeThreshold := 10 |} in
  let s1 :=
    Scenario.run' cfg (init cfg) [OpSetCallbacks; OpRequest []; OpRequest []] in
  let s2 :=
    Scenario.run' cfg s1 [OpTimer 0; OpBackfill (Some []) Scenario.no_records] in
  let s3 := Scenario.run' cfg s2 [OpRelease []] in
  let s4 := Scenario.run' cfg s3 [OpRelease []] in
  (globalRefCount s1 = 2%Z /\ promises s1 = [Pending]) /\
  (is_Some (currentSubscription s2) /\ markedReady s2 = true) /\
  (is_Some (currentSubscription s3) /\ globalRefCount s3 = 1%Z) /\
  (currentSubscription s4 = None /\ globalRefCount s4 = 0%Z).
Proof.
  repeat split; try (vm_compute; reflexivity); vm_compute; eauto.
Qed.

(** * Further properties of the code *)

(** ** The codec on every value *)

Section CodecTotal.

Lemma obj_set_In {A} (k : string) (v : A) (o : list (string * A))
    (kv : string * A) :
  In kv (obj_set k v o) -> kv = (k, v) \/ In kv o.
Proof.
  induction o as [| [k' v'] o IH]; simpl; [intros [<- | []]; auto |].
  destruct (String.eqb_spec k' k) as [-> | _]; simpl.
  - intros [<- | Hin]; auto.
  - intros [<- | Hin]; [auto |]. apply IH in Hin. tauto.
Qed.

Lemma obj_fold_In {A} (es acc : list (string * A)) (kv : string * A) :
  In kv (fold_left (fun o e => obj_set (fst e) (snd e) o) es acc) ->
  In kv acc \/ In kv es.
Proof.
  revert acc. induction es as [| [k v] es IH]; intros acc; simpl; [tauto |].
  intros Hin. apply IH in Hin as [Hin | Hin]; [| tauto].
  apply obj_set_In in Hin as [-> | Hin]; tauto.
Qed.

Lemma obj_fold_nodup {A} (es acc : list (string * A)) :
  List.NoDup (map fst acc) ->
  List.NoDup (map fst (fold_left (fun o e => obj_set (fst e) (snd e) o) es acc)).
Proof.
  revert acc. induction es as [| [k v] es IH]; intros acc Hacc; [assumption |].
  simpl. apply IH. now apply obj_set_nodup.
Qed.

Lemma obj_of_entries_keys_nodup {A} (es : list (string * A)) :
  List.NoDup (map fst (obj_of_entries es)).
Proof. apply obj_fold_nodup. constructor. Qed.

Lemma serializeValue_wf_all (v : value) : wf (serializeValue v) = true.
Proof.
  induction v as [| | b | n | s | d | l IH | m IH] using value_ind;
    try reflexivity.
  - destruct n; reflexivity.
  - destruct d; reflexivity.
  - cbn [serializeValue wf].
    induction IH as [| x l Hx _ IHl]; [reflexivity |].
    cbn [map forallb]. now rewrite Hx, IHl.
  - cbn [serializeValue wf]. apply andb_true_iff. split.
    + apply bool_decide_eq_true, NoDup_ListNoDup, obj_of_entries_keys_nodup.
    + apply forallb_forall. intros [k j] Hin.
      apply obj_fold_In in Hin as [[] | Hin].
      apply in_map_iff in Hin as ([k' x] & [= <- <-] & Hin).
      rewrite List.Forall_forall in IH. exact (IH _ Hin).
Qed.

Lemma fromKey_toKey (v : value) :
  fromKey (toKey v) = Some (deserializeValue (serializeValue v)).
Proof.
  unfold fromKey, toKey.
  now rewrite JsonFacts.parse_stringify by apply serializeValue_wf_all.
Qed.

(** X2.  On plain values the stable key is injective: two plain values
    with the same key are the same value, so deduplication by key never
    merges two different plain values. *)
Theorem toKey_injective_plain (a b : value) :
  plain a = true -> plain b = true -> toKey a = toKey b -> a = b.
Proof.
  intros Ha Hb Hkey.
  pose proof (fromKey_toKey a) as Hfa.
  pose proof (fromKey_toKey b) as Hfb.
  rewrite Hkey, Hfb in Hfa. injection Hfa as Hab.
  now rewrite !deserialize_serialize in Hab by assumption.
Qed.

End CodecTotal.

Lemma toKey_injective_plain_witness :
  let a := VArray [VNumber NaN; VString "c1"; VDate (Some epoch)] in
  a = a.
Proof.
  intros a. apply (toKey_injective_plain a a); reflexivity.
Defined.

(** ** More on the predicate extractor *)

Section ExtractorMore.

Lemma extract_first_seen (e : expr) (f : string) :
  extractFilterValues {| where_ := Some e |} f
  = first_seen (walkExpression e f).
Proof.
  unfold extractFilterValues. cbn [where_].
  rewrite unique_loop_first_seen.
  rewrite <- (List.filter_ext (fun _ => true)).
  - induction (first_seen _) as [| x l IHl]; [reflexivity |].
    simpl. now rewrite IHl.
  - intros w. rewrite bool_decide_eq_false_2; [reflexivity | set_solver].
Qed.

Lemma constrained_refers (f : string) (e : expr) (v : value) :
  constrained f e v -> refers_to f e = true.
Proof.
  induction 1 as [path v Hm | path v Hm | path l v Hm Hin
                 | name args arg v Heq Hin Harg _ IH];
    try apply propRefMatchesField_references in Hm; cbn [refers_to existsb].
  - now rewrite Hm.
  - rewrite Hm. now rewrite orb_true_r.
  - now rewrite Hm.
  - apply existsb_exists. eauto.
Qed.

(** X3.  A predicate tree that holds no reference to a field yields no
    value for it: the extractor never invents a value for a dimension the
    query does not mention. *)
Theorem extract_unreferenced (options : LoadSubsetOptions) (f : string) :
  (forall e, where_ options = Some e -> refers_to f e = false) ->
  extractFilterValues options f = [].
Proof.
  intros Hno. destruct options as [[e |]]; [| reflexivity].
  rewrite extract_first_seen. specialize (Hno e eq_refl).
  destruct (walkExpression e f) as [| v l] eqn:Hwalk; [reflexivity |].
  assert (Hc : constrained f e v).
  { apply walk_constrained. rewrite Hwalk. now left. }
  apply constrained_refers in Hc. congruence.
Qed.

(** X4.  [hasFilterField] answers true exactly when the predicate tree
    constrains the field to some literal. *)
Theorem hasFilterField_spec (options : LoadSubsetOptions) (f : string) :
  hasFilterField options f = true <->
  exists e v, where_ options = Some e /\ constrained f e v.
Proof.
  unfold hasFilterField. destruct options as [[e |]].
  - rewrite extract_first_seen. cbn [where_].
    destruct (walkExpression e f) as [| v l] eqn:Hwalk; cbn.
    + split; [discriminate |]. intros (e' & v & [= <-] & Hc).
      apply walk_constrained in Hc. now rewrite Hwalk in Hc.
    + split; [| reflexivity]. intros _. exists e, v. split; [reflexivity |].
      apply walk_constrained. rewrite Hwalk. now left.
  - cbn. split; [discriminate |]. now intros (e & v & [=] & _).
Qed.

Lemma extract_fold_sound (options : LoadSubsetOptions)
    (dims : list FilterDimension) :
  forall acc arg values,
    In (arg, values) (fold_left (extract_step options) dims acc) ->
    In (arg, values) acc \/
    (values <> [] /\
     exists dim, In dim dims /\ convexArg dim = arg /\
       values = extractFilterValues options (filterField dim)).
Proof.
  induction dims as [| dim dims IH]; intros acc arg values; cbn [fold_left];
    [tauto |].
  intros Hin. apply IH in Hin as [Hin | (Hne & d & Hd & Ha & Hv)].
  - unfold extract_step in Hin.
    destruct (extractFilterValues options (filterField dim)) as [| x l] eqn:Hx;
      cbn in Hin; [tauto |].
    apply obj_set_In in Hin as [[= -> ->] | Hin]; [right | tauto].
    split; [discriminate |]. exists dim. split; [now left | now split].
  - right. split; [assumption |]. exists d. split; [now right | now split].
Qed.

Lemma extract_fold_nodup (options : LoadSubsetOptions)
    (dims : list FilterDimension) :
  forall acc, List.NoDup (map fst acc) ->
    List.NoDup (map fst (fold_left (extract_step options) dims acc)).
Proof.
  induction dims as [| dim dims IH]; intros acc Hacc; [assumption |].
  cbn [fold_left]. apply IH. unfold extract_step.
  destruct (negb _); [now apply obj_set_nodup | assumption].
Qed.

Lemma extract_fold_keeps (options : LoadSubsetOptions)
    (dims : list FilterDimension) :
  forall acc arg, is_Some (obj_get arg acc) ->
    is_Some (obj_get arg (fold_left (extract_step options) dims acc)).
Proof.
  induction dims as [| dim dims IH]; intros acc arg Hacc; [assumption |].
  cbn [fold_left]. apply IH. unfold extract_step.
  destruct (negb _); [| assumption].
  destruct (String.eqb_spec (convexArg dim) arg) as [<- | Hne].
  - rewrite obj_get_set_eq. eauto.
  - now rewrite obj_get_set_ne.
Qed.

(** X5.  [extractMultipleFilterValues] returns one entry per argument
    name: every entry holds the non-empty values extracted for a
    configured dimension with that argument name, and every dimension for
    which something is extracted has an entry; dimensions without a match
    are left out. *)
Theorem extractMultiple_spec (options : LoadSubsetOptions)
    (dims : list FilterDimension) :
  let result := extractMultipleFilterValues options dims in
  List.NoDup (map fst result) /\
  (forall arg values, In (arg, values) result ->
     values <> [] /\
     exists dim, In dim dims /\ convexArg dim = arg /\
       values = extractFilterValues options (filterField dim)) /\
  (forall dim, In dim dims ->
     extractFilterValues options (filterField dim) <> [] ->
     is_Some (obj_get (convexArg dim) result)).
Proof.
  change (extractMultipleFilterValues options dims)
    with (fold_left (extract_step options) dims []).
  cbn zeta. split; [| split].
  - apply extract_fold_nodup. constructor.
  - intros arg values Hin.
    apply extract_fold_sound in Hin as [[] | H]. exact H.
  - generalize (@nil (string * list value)).
    induction dims as [| d dims IH]; intros acc dim [] Hne.
    + subst d. cbn [fold_left]. apply extract_fold_keeps.
      unfold extract_step.
      destruct (extractFilterValues options (filterField dim)); [congruence |].
      cbn. rewrite obj_get_set_eq. eauto.
    + cbn [fold_left]. now apply IH.
Qed.

End ExtractorMore.

Lemma extract_unreferenced_witness :
  extractFilterValues
    {| where_ := Some (Func "and" [Func "eq" [Ref ["m"; "status"]; Val (VString "open")];
                                   Func "gt" [Ref ["m"; "size"]; Val (VNumber (Finite 3))]]) |}
    "channelId" = [].
Proof.
  apply extract_unreferenced. intros e [= <-]. reflexivity.
Defined.

Lemma extractMultiple_spec_witness :
  let options :=
    {| where_ := Some (Func "eq" [Ref ["m"; "channelId"]; Val (VString "c1")]) |} in
  let dims :=
    [ {| filterField := "channelId"; convexArg := "channelIds"; single := false |};
      {| filterField := "authorId"; convexArg := "authorIds"; single := false |} ] in
  is_Some (obj_get "channelIds" (extractMultipleFilterValues options dims)).
Proof.
  intros options dims.
  refine (proj2 (proj2 (extractMultiple_spec options dims))
            {| filterField := "channelId"; convexArg := "channelIds";
               single := false |} _ _).
  - now left.
  - discriminate.
Defined.

(** ** More on composite keys *)

Section CompositeKeyMore.

Lemma leb_trans (a b c : string) :
  String.leb a b = true -> String.leb b c = true -> String.leb a c = true.
Proof.
  unfold String.leb.
  destruct (String.compare a b) eqn:Hab; [| | discriminate];
    destruct (String.compare b c) eqn:Hbc; try discriminate; intros _ _.
  - apply String.compare_eq_iff in Hab, Hbc. subst.
    pose proof (proj2 (OrderedTypeEx.String_as_OT.cmp_eq c c) eq_refl) as Hcc.
    unfold OrderedTypeEx.String_as_OT.cmp in Hcc. now rewrite Hcc.
  - apply String.compare_eq_iff in Hab. subst. now rewrite Hbc.
  - apply String.compare_eq_iff in Hbc. subst. now rewrite Hab.
  - apply OrderedTypeEx.String_as_OT.cmp_lt in Hab, Hbc.
    pose proof (OrderedTypeEx.String_as_OT.lt_trans _ _ _ Hab Hbc) as Hac.
    apply OrderedTypeEx.String_as_OT.cmp_lt in Hac.
    unfold OrderedTypeEx.String_as_OT.cmp in Hac. now rewrite Hac.
Qed.

Lemma leb_false (a b : string) :
  String.leb a b = false -> String.leb b a = true.
Proof. destruct (String.leb_total a b); congruence. Qed.

Lemma insert_sorted_comm (x y : string) (l : list string) :
  insert_sorted x (insert_sorted y l) = insert_sorted y (insert_sorted x l).
Proof.
  induction l as [| z l IH]; cbn [insert_sorted].
  - destruct (String.leb x y) eqn:Hxy, (String.leb y x) eqn:Hyx;
      try reflexivity.
    + now rewrite (String.leb_antisym _ _ Hxy Hyx).
    + apply leb_false in Hxy. congruence.
  - destruct (String.leb y z) eqn:Hyz, (String.leb x z) eqn:Hxz;
      cbn [insert_sorted]; rewrite ?Hyz, ?Hxz.
    + destruct (String.leb x y) eqn:Hxy, (String.leb y x) eqn:Hyx;
        try reflexivity.
      * now rewrite (String.leb_antisym _ _ Hxy Hyx).
      * apply leb_false in Hxy. congruence.
    + assert (Hxy : String.leb x y = false).
      { destruct (String.leb x y) eqn:Hxy; [| reflexivity].
        now rewrite (leb_trans _ _ _ Hxy Hyz) in Hxz. }
      now rewrite Hxy.
    + assert (Hyx : String.leb y x = false).
      { destruct (String.leb y x) eqn:Hyx; [| reflexivity].
        now rewrite (leb_trans _ _ _ Hyx Hxz) in Hyz. }
      now rewrite Hyx.
    + now rewrite IH.
Qed.

Lemma sort_strings_perm (l l' : list string) :
  Permutation l l' -> sort_strings l = sort_strings l'.
Proof.
  induction 1 as [| x l l' _ IH | x y l | l l' l'' _ IH1 _ IH2];
    cbn [sort_strings fold_right].
  - reflexivity.
  - unfold sort_strings in IH. now rewrite IH.
  - apply insert_sorted_comm.
  - congruence.
Qed.

Lemma fold_left_ext_in {A B} (f g : A -> B -> A) (l : list B) :
  (forall a b, In b l -> f a b = g a b) ->
  forall a, fold_left f l a = fold_left g l a.
Proof.
  induction l as [| b l IH]; intros Hfg a; [reflexivity |].
  cbn [fold_left]. rewrite Hfg by now left.
  apply IH. intros a' b' Hb'. apply Hfg. now right.
Qed.

Lemma obj_get_is_Some {A} (k : string) (o : list (string * A)) :
  In k (map fst o) -> is_Some (obj_get k o).
Proof.
  intros Hin. destruct (obj_get k o) eqn:H; [eauto |].
  apply obj_get_None in H. contradiction.
Qed.

(** X6.  The composite key does not depend on the order in which a
    combination lists its dimensions or the values of a dimension: two
    combinations with the same argument names and, per argument, the same
    stable keys up to order get the same reference-count entry. *)
Theorem createCompositeKey_order (filters filters' : ExtractedFilters) :
  Permutation (map fst filters) (map fst filters') ->
  (forall arg values values',
     obj_get arg filters = Some values ->
     obj_get arg filters' = Some values' ->
     Permutation (map toKey values) (map toKey values')) ->
  createCompositeKey filters = createCompositeKey filters'.
Proof.
  intros Hkeys Hvalues. unfold createCompositeKey, sorted_filters.
  rewrite <- (sort_strings_perm _ _ Hkeys). do 2 f_equal.
  apply fold_left_ext_in. intros acc key Hkey.
  apply (proj1 (sort_strings_In _ _)) in Hkey.
  destruct (obj_get_is_Some key filters Hkey) as [values Hv].
  assert (Hkey' : In key (map fst filters')).
  { apply list_elem_of_In. rewrite <- Hkeys. now apply list_elem_of_In. }
  destruct (obj_get_is_Some key filters' Hkey') as [values' Hv'].
  rewrite Hv, Hv'. f_equal. apply sort_strings_perm. eauto.
Qed.

(** X7.  A composite key reads back: [JSON.parse] succeeds on it and the
    parsed object holds, under every argument name of the combination, the
    sorted stable keys of its values and nothing under any other name; the
    [catch] of [cleanupUnreferencedValues] is never entered for a key the
    manager made. *)
Theorem createCompositeKey_parses (filters : ExtractedFilters) :
  exists members,
    parse (createCompositeKey filters) = Some (JObj members) /\
    forall arg, obj_get arg members = key_array <$> obj_get arg filters.
Proof.
  exists (map (fun kv => (fst kv, JArr (map JStr (snd kv))))
              (sorted_filters filters)).
  split.
  - unfold createCompositeKey. apply JsonFacts.parse_stringify.
    apply json_of_sorted_wf, sorted_filters_nodup.
  - intros arg.
    pose proof (obj_get_map (fun vals => JArr (map JStr vals)) arg
                  (sorted_filters filters)) as H.
    cbn beta in H. rewrite H, sorted_filters_get.
    now destruct (obj_get arg filters).
Qed.

End CompositeKeyMore.

Lemma createCompositeKey_order_witness :
  createCompositeKey
    [("pageIds", [VString "p1"; VString "p2"]); ("authorIds", [VString "u1"])]
  = createCompositeKey
    [("authorIds", [VString "u1"]); ("pageIds", [VString "p2"; VString "p1"])].
Proof.
  apply createCompositeKey_order.
  - apply perm_swap.
  - intros arg values values' H H'.
    cbn [obj_get] in H, H'.
    destruct (String.eqb_spec "pageIds" arg) as [<- | Hp].
    + cbn in H'. injection H as <-. injection H' as <-. apply perm_swap.
    + destruct (String.eqb_spec "authorIds" arg) as [<- | Ha];
        [| discriminate H].
      injection H as <-. injection H' as <-. reflexivity.
Defined.

(** ** More on reconciliation *)

Section ReconciliationMore.

Context {T K : Type}.
Variable getKey : T -> K.
Variable updatedAt : T -> option Z.

Local Abbreviation reconcile := (reconcile getKey updatedAt).
Local Abbreviation handleIncomingData := (handleIncomingData getKey updatedAt).

Lemma reconcile_loop_bounds (collection : K -> option T) (prev : Z)
    (items : list T) :
  forall acc,
    let out := fold_left (reconcile collection prev) items acc in
    (forall item ts, In item items -> updatedAt item = Some ts ->
       (ts <= fst (fst out))%Z) /\
    (fst (fst out) = fst (fst acc) \/
     exists item, In item items /\ updatedAt item = Some (fst (fst out))) /\
    (snd (fst acc) <= snd (fst out))%Z /\
    ((forall item ts, In item items -> updatedAt item = Some ts ->
        (ts <= prev)%Z) -> snd (fst out) = snd (fst acc)) /\
    (exists added,
       snd out = snd acc ++ added /\ length added <= length items /\
       Forall (fun w => In (written w) items) added).
Proof.
  induction items as [| item items IH]; intros acc; cbn [fold_left].
  - cbn zeta. split; [intros ? ? [] |]. split; [now left |].
    split; [lia |]. split; [reflexivity |].
    exists []. rewrite app_nil_r. repeat split; [cbn; lia | constructor].
  - specialize (IH (reconcile collection prev acc item)). cbn zeta in IH.
    destruct IH as (Hub & Hfrom & Hcount & Hoverlap & added & Hadded & Hlen & Hall).
    pose proof (reconcile_cursor getKey updatedAt collection prev acc item) as Hmono.
    pose proof (reconcile_loop_cursor getKey updatedAt collection prev items
                  (reconcile collection prev acc item)) as Hloop.
    pose proof (reconcile_cursor_raise getKey updatedAt collection prev acc item)
      as Hraise. cbn zeta in Hraise.
    assert (Hstep :
      (snd (fst acc) <= snd (fst (reconcile collection prev acc item)))%Z /\
      (forall ts, updatedAt item = Some ts ->
         (ts <= fst (fst (reconcile collection prev acc item)))%Z) /\
      ((forall ts, updatedAt item = Some ts -> (ts <= prev)%Z) ->
       snd (fst (reconcile collection prev acc item)) = snd (fst acc)) /\
      exists one,
        snd (reconcile collection prev acc item) = snd acc ++ one /\
        length one <= 1 /\ Forall (fun w => written w = item) one).
    { destruct acc as [[cursor n] writes]. unfold reconcile. cbn [fst snd].
      assert (Hb : forall ts, (0 <= (if (prev <? ts)%Z then 1 else 0))%Z)
        by (intros ts; destruct (prev <? ts)%Z; lia).
      assert (Hz : forall ts, (ts <= prev)%Z ->
                 (if (prev <? ts)%Z then 1 else 0)%Z = 0%Z).
      { intros ts Hts. destruct (Z.ltb_spec prev ts); [lia | reflexivity]. }
      destruct (updatedAt item) as [ts |] eqn:Hts.
      - assert (Hc : (ts <= (if (cursor <? ts)%Z then ts else cursor))%Z)
          by (destruct (Z.ltb_spec cursor ts); lia).
        destruct (collection (getKey item)) as [existing |].
        + destruct (updatedAt existing) as [ets |].
          * destruct (ets <? ts)%Z; cbn [fst snd]; (split; [specialize (Hb ts); lia |]);
              (split; [intros ? [= <-]; exact Hc |]);
              (split; [intros Hp; specialize (Hz ts (Hp ts eq_refl)); lia |]).
            -- exists [Update item]. repeat split; [cbn; lia | now constructor].
            -- exists []. rewrite app_nil_r. repeat split; [cbn; lia | constructor].
          * cbn [fst snd]. split; [lia |]. split; [intros ? [= <-]; exact Hc |].
            split; [reflexivity |].
            exists [Update item]. repeat split; [cbn; lia | now constructor].
        + cbn [fst snd]. split; [specialize (Hb ts); lia |].
          split; [intros ? [= <-]; exact Hc |].
          split; [intros Hp; specialize (Hz ts (Hp ts eq_refl)); lia |].
          exists [Insert item]. repeat split; [cbn; lia | now constructor].
      - destruct (collection (getKey item)) as [existing |]; cbn [fst snd].
        + split; [lia |]. split; [discriminate |]. split; [reflexivity |].
          exists []. rewrite app_nil_r. repeat split; [cbn; lia | constructor].
        + split; [lia |]. split; [discriminate |]. split; [lia |].
          exists [Insert item]. repeat split; [cbn; lia | now constructor]. }
    destruct Hstep as (Hn & Hts & Hov & one & Hone & Hlen1 & Hall1).
    split; [| split; [| split; [| split]]].
    + intros it ts [<- | Hin] Hit; [| now apply (Hub it)].
      specialize (Hts ts Hit). lia.
    + destruct Hfrom as [Heq | (it & Hin & Hit)].
      * rewrite Heq. destruct Hraise as [-> | [_ Hit]]; [now left | right].
        exists item. split; [now left | assumption].
      * right. exists it. split; [now right | assumption].
    + lia.
    + intros Hp. rewrite Hoverlap, Hov.
      * reflexivity.
      * intros ts Hit. apply (Hp item ts); [now left | assumption].
      * intros it ts Hin Hit. apply (Hp it ts); [now right | assumption].
    + exists (one ++ added). rewrite Hadded, Hone, app_assoc.
      split; [reflexivity |]. split; [rewrite length_app; cbn; lia |].
      apply Forall_app. split.
      * eapply Forall_impl; [exact Hall1 |]. intros w <-. now left.
      * eapply Forall_impl; [exact Hall |]. intros w Hw. now right.
Qed.

(** The cursor after a batch, when the callbacks are set. *)
Lemma handleIncomingData_cursor_eq (cfg : Config) (s : State)
    (collection : K -> option T) (items : list T) :
  callbacks s = true ->
  globalCursor (fst (handleIncomingData cfg s collection items))
  = fst (fst (fold_left (reconcile collection (globalCursor s)) items
                (globalCursor s, 0%Z, []))).
Proof.
  intros Hcb. unfold handleIncomingData. rewrite Hcb. cbn [negb orb].
  destruct items as [| item items]; [reflexivity |]. cbn [length Nat.eqb].
  destruct (fold_left _ _ _) as [[cursor n] writes]. cbn [fst].
  destruct (_ && _); reflexivity.
Qed.

(** X8.  With the callbacks set, after a batch the global cursor is the
    greatest of its former value and the timestamps of the delivered
    records: it is not below its former value, no delivered timestamp
    exceeds it, and it is either unchanged or the timestamp of a delivered
    record. *)
Theorem globalCursor_is_maximum (cfg : Config) (s : State)
    (collection : K -> option T) (items : list T) :
  callbacks s = true ->
  let cursor := globalCursor (fst (handleIncomingData cfg s collection items)) in
  (globalCursor s <= cursor)%Z /\
  (forall item ts, In item items -> updatedAt item = Some ts ->
     (ts <= cursor)%Z) /\
  (cursor = globalCursor s \/
   exists item, In item items /\ updatedAt item = Some cursor).
Proof.
  intros Hcb. cbn zeta.
  split; [apply (handleIncomingData_cursor getKey updatedAt) |].
  rewrite handleIncomingData_cursor_eq by assumption.
  destruct (reconcile_loop_bounds collection (globalCursor s) items
              (globalCursor s, 0%Z, [])) as (Hub & Hfrom & _).
  split; assumption.
Qed.

Lemma handleIncomingData_callbacks (cfg : Config) (s : State)
    (collection : K -> option T) (items : list T) :
  callbacks (fst (handleIncomingData cfg s collection items)) = callbacks s.
Proof.
  unfold handleIncomingData.
  destruct (negb (callbacks s) || _); [reflexivity |].
  destruct (fold_left _ _ _) as [[cursor n] writes].
  destruct (_ && _); reflexivity.
Qed.

(** X9.  Delivering a batch a second time, whatever the host collection
    holds by then, leaves the global cursor where the first delivery put
    it. *)
Theorem redelivery_keeps_cursor (cfg : Config) (s : State)
    (first second : K -> option T) (items : list T) :
  let s1 := fst (handleIncomingData cfg s first items) in
  globalCursor (fst (handleIncomingData cfg s1 second items)) = globalCursor s1.
Proof.
  cbn zeta. set (s1 := fst (handleIncomingData cfg s first items)).
  destruct (callbacks s) eqn:Hcb.
  - assert (Hcb1 : callbacks s1 = true).
    { unfold s1. now rewrite handleIncomingData_callbacks. }
    destruct (reconcile_loop_bounds first (globalCursor s) items
                (globalCursor s, 0%Z, [])) as (Hub & _).
    rewrite <- (handleIncomingData_cursor_eq cfg s first items Hcb) in Hub.
    fold s1 in Hub.
    rewrite (handleIncomingData_cursor_eq cfg s1 second items Hcb1).
    destruct (reconcile_loop_bounds second (globalCursor s1) items
                (globalCursor s1, 0%Z, [])) as (_ & [Heq | (it & Hin & Hit)] & _);
      [exact Heq |].
    cbn [fst] in *.
    pose proof (reconcile_loop_cursor getKey updatedAt second (globalCursor s1)
                  items (globalCursor s1, 0%Z, [])) as Hge.
    cbn [fst] in Hge. specialize (Hub it _ Hin Hit). lia.
  - assert (Hs1 : s1 = s).
    { unfold s1, handleIncomingData. now rewrite Hcb. }
    rewrite Hs1. unfold handleIncomingData. now rewrite Hcb.
Qed.

(** X10.  A batch that only repeats records of the overlap window (no
    timestamp beyond the cursor) while the counter is below the threshold
    changes nothing in the manager: the cursor, the counter and the
    subscription stay as they are. *)
Theorem overlap_batch_is_noop (cfg : Config) (s : State)
    (collection : K -> option T) (items : list T) :
  (forall item ts, In item items -> updatedAt item = Some ts ->
     (ts <= globalCursor s)%Z) ->
  (messagesSinceSubscription s < resubscribeThreshold cfg)%Z ->
  fst (handleIncomingData cfg s collection items) = s.
Proof.
  intros Hover Hbelow. unfold handleIncomingData.
  destruct (negb (callbacks s) || _); [reflexivity |].
  destruct (reconcile_loop_bounds collection (globalCursor s) items
              (globalCursor s, 0%Z, []))
    as (_ & Hfrom & _ & Hcount & _).
  specialize (Hcount Hover).
  pose proof (reconcile_loop_cursor getKey updatedAt collection (globalCursor s)
                items (globalCursor s, 0%Z, [])) as Hge.
  destruct (fold_left _ _ _) as [[cursor n] writes]. cbn [fst snd] in *.
  subst n.
  assert (Hcur : cursor = globalCursor s).
  { destruct Hfrom as [-> | (it & Hin & Hit)]; [reflexivity |].
    specialize (Hover it _ Hin Hit). lia. }
  subst cursor. rewrite Z.add_0_r.
  assert (Hs : set_progress s (globalCursor s) (messagesSinceSubscription s) = s)
    by now destruct s.
  rewrite Hs.
  destruct (Z.leb_spec (resubscribeThreshold cfg) (messagesSinceSubscription s));
    [lia |].
  now rewrite andb_false_r.
Qed.

(** X11.  The host sees a batch as one transaction: nothing at all when
    the callbacks are not set or the batch is empty, and otherwise one
    [begin], then at most one write per delivered record, each carrying a
    delivered record, then one [commit]. *)
Theorem handleIncomingData_transaction (cfg : Config) (s : State)
    (collection : K -> option T) (items : list T) :
  let events := snd (handleIncomingData cfg s collection items) in
  if negb (callbacks s) || Nat.eqb (length items) 0
  then events = [] /\ fst (handleIncomingData cfg s collection items) = s
  else exists writes,
         events = Begin :: map Write writes ++ [Commit] /\
         length writes <= length items /\
         Forall (fun w => In (written w) items) writes.
Proof.
  cbn zeta. unfold handleIncomingData.
  destruct (negb (callbacks s) || _); [now split |].
  destruct (reconcile_loop_bounds collection (globalCursor s) items
              (globalCursor s, 0%Z, []))
    as (_ & _ & _ & _ & added & Hadded & Hlen & Hall).
  destruct (fold_left _ _ _) as [[cursor n] writes]. cbn [fst snd] in *.
  subst writes. exists added. now repeat split.
Qed.

End ReconciliationMore.

(** ** Invariants of the pending buffer and the active sets *)

Section TrackerInvariant.

Context {T K : Type}.
Variable getKey : T -> K.
Variable updatedAt : T -> option Z.

Local Abbreviation step := (step getKey updatedAt).
Local Abbreviation run := (run getKey updatedAt).

Lemma existsb_key (k : string) (l : list value) :
  existsb (fun w => String.eqb (toKey w) k) l = true <-> In k (map toKey l).
Proof.
  rewrite existsb_exists, in_map_iff. split.
  - intros (w & Hw & Heq). apply String.eqb_eq in Heq. eauto.
  - intros (w & Heq & Hw). exists w. split; [assumption |].
    now apply String.eqb_eq.
Qed.

Lemma push_entry_app (activeSet : gset string) (values : list value) :
  forall current,
    exists added,
      push_entry activeSet values current = current ++ added /\
      Forall (fun x => In x values /\ toKey x ∉ activeSet) added /\
      (List.NoDup (map toKey current) ->
       List.NoDup (map toKey (current ++ added))) /\
      length added <= length (new_values activeSet values current).
Proof.
  induction values as [| v rest IH]; intros current;
    cbn [push_entry new_values List.filter].
  - exists []. rewrite app_nil_r. repeat split; [constructor | trivial | cbn; lia].
  - destruct (bool_decide_reflect (toKey v ∈ activeSet)) as [Hact | Hact];
      cbn [negb andb].
    + destruct (IH current) as (added & Heq & Hall & Hnd & Hlen).
      exists added. repeat split; try assumption.
      eapply Forall_impl; [exact Hall |]. intros x [Hx Hk]. split; [now right | assumption].
    + destruct (existsb _ current) eqn:Hex; cbn [negb].
      * destruct (IH current) as (added & Heq & Hall & Hnd & Hlen).
        exists added. repeat split; try assumption.
        eapply Forall_impl; [exact Hall |]. intros x [Hx Hk].
        split; [now right | assumption].
      * destruct (IH (current ++ [v])) as (added & Heq & Hall & Hnd & Hlen).
        exists (v :: added). rewrite Heq, <- app_assoc. cbn [app].
        split; [reflexivity |]. split; [| split].
        -- constructor; [split; [now left | assumption] |].
           eapply Forall_impl; [exact Hall |]. intros x [Hx Hk].
           split; [now right | assumption].
        -- intros Hcur. change (v :: added) with ([v] ++ added).
           rewrite app_assoc. apply Hnd. rewrite map_app. cbn [map].
           apply NoDup_ListNoDup, NoDup_app. repeat split.
           ++ now apply NoDup_ListNoDup.
           ++ intros k Hk Hv. apply list_elem_of_singleton in Hv. subst k.
              apply list_elem_of_In, existsb_key in Hk. congruence.
           ++ apply NoDup_singleton.
        -- cbn [length]. apply le_n_S. etransitivity; [exact Hlen |].
           unfold new_values. clear. induction rest as [| r rest IHr];
             [reflexivity |]. cbn [List.filter].
           destruct (bool_decide (toKey r ∈ activeSet)); cbn [negb andb];
             [exact IHr |].
           rewrite existsb_app. cbn [existsb]. rewrite orb_false_r.
           destruct (existsb _ current); cbn [negb orb].
           ++ exact IHr.
           ++ destruct (String.eqb (toKey v) (toKey r)); cbn [negb length]; lia.
Qed.

Lemma push_entry_nonempty (activeSet : gset string) (values current : list value) :
  current <> [] -> push_entry activeSet values current <> [].
Proof.
  intros Hne. destruct (push_entry_app activeSet values current)
    as (added & -> & _).
  destruct current; [congruence | discriminate].
Qed.

Lemma push_values_get (activeSet : gset string) (arg : string)
    (values : list value) :
  forall pending hasNew,
    let out := push_values activeSet arg values pending hasNew in
    (forall arg', arg' <> arg -> obj_get arg' (fst out) = obj_get arg' pending) /\
    obj_get arg (fst out)
    = match obj_get arg pending with
      | Some current => Some (push_entry activeSet values current)
      | None =>
          match push_entry activeSet values [] with
          | [] => None
          | l => Some l
          end
      end /\
    (List.NoDup (map fst pending) -> List.NoDup (map fst (fst out))).
Proof.
  induction values as [| v rest IH]; intros pending hasNew;
    cbn [push_values push_entry].
  - cbn. split; [reflexivity |]. split; [| trivial].
    now destruct (obj_get arg pending).
  - destruct (bool_decide (toKey v ∈ activeSet)); [apply IH |].
    destruct (obj_get arg pending) as [current |] eqn:Hget.
    + rewrite Hget. cbn [default from_option id].
      destruct (existsb _ current).
      * specialize (IH pending hasNew). now rewrite Hget in IH.
      * destruct (IH (obj_set arg (current ++ [v]) pending) true)
          as (Hother & Harg & Hnd).
        rewrite obj_get_set_eq in Harg.
        split; [| split].
        -- intros arg' Hne. rewrite Hother by assumption.
           apply obj_get_set_ne. congruence.
        -- exact Harg.
        -- intros Hp. apply Hnd. now apply obj_set_nodup.
    + rewrite obj_get_set_eq. cbn [default from_option id existsb app].
      destruct (IH (obj_set arg [v] (obj_set arg [] pending)) true)
        as (Hother & Harg & Hnd).
      rewrite obj_get_set_eq in Harg.
      split; [| split].
      * intros arg' Hne. rewrite Hother by assumption.
        rewrite !obj_get_set_ne by congruence. reflexivity.
      * rewrite Harg.
        pose proof (push_entry_nonempty activeSet rest [v]) as Hne.
        destruct (push_entry activeSet rest [v]); [now contradiction Hne |].
        reflexivity.
      * intros Hp. apply Hnd. now do 2 apply obj_set_nodup.
Qed.

Lemma push_values_entry (activeSet : gset string) (arg : string)
    (values : list value) (pending : ExtractedFilters) (hasNew : bool) :
  default [] (obj_get arg (fst (push_values activeSet arg values pending hasNew)))
  = push_entry activeSet values (default [] (obj_get arg pending)).
Proof.
  destruct (push_values_get activeSet arg values pending hasNew) as (_ & -> & _).
  destruct (obj_get arg pending); [reflexivity |]. cbn [default from_option id].
  now destruct (push_entry activeSet values []).
Qed.

Lemma check_single_passes (dim : FilterDimension) (activeSet : gset string)
    (arg : string) (values : list value) (pending : ExtractedFilters) :
  check_single dim activeSet arg values pending = None ->
  size activeSet + length (default [] (obj_get arg pending))
  + length (new_values activeSet values (default [] (obj_get arg pending))) <= 1.
Proof.
  unfold check_single, new_values.
  assert (Hlen : match obj_get arg pending with
                 | Some l => length l
                 | None => 0
                 end = length (default [] (obj_get arg pending)))
    by now destruct (obj_get arg pending).
  assert (Hfilter :
    List.filter
      (fun v => negb (bool_decide (toKey v ∈ activeSet))
                && negb (is_pending (toKey v) (obj_get arg pending))) values
    = List.filter
      (fun v => negb (bool_decide (toKey v ∈ activeSet))
                && negb (existsb (fun w => String.eqb (toKey w) (toKey v))
                           (default [] (obj_get arg pending)))) values).
  { apply List.filter_ext. intros v. now destruct (obj_get arg pending). }
  rewrite Hlen, Hfilter.
  destruct (Nat.ltb_spec 1 (size activeSet
              + length (default [] (obj_get arg pending))
              + length (List.filter
                  (fun v => negb (bool_decide (toKey v ∈ activeSet))
                    && negb (existsb (fun w => String.eqb (toKey w) (toKey v))
                               (default [] (obj_get arg pending)))) values)));
    [discriminate | intros _; lia].
Qed.

Lemma push_values_ok (cfg : Config) (active : gmap string (gset string))
    (arg : string) (activeSet : gset string) (values : list value)
    (pending : ExtractedFilters) (hasNew : bool) :
  active !! arg = Some activeSet ->
  (forall dim, find_dimension cfg arg = Some dim -> single dim = true ->
     check_single dim activeSet arg values pending = None) ->
  pending_ok cfg active pending ->
  pending_ok cfg active (fst (push_values activeSet arg values pending hasNew)).
Proof.
  intros Hact Hcheck (Hnd & Hne & Hcfg & Hdisj & Hkeys & Hsingle).
  pose proof (push_values_entry activeSet arg values pending hasNew) as Hentry.
  destruct (push_values_get activeSet arg values pending hasNew)
    as (Hother & Harg & Hnd').
  set (out := fst (push_values activeSet arg values pending hasNew)) in *.
  destruct (push_entry_app activeSet values (default [] (obj_get arg pending)))
    as (added & Happ & Hadded & Hnodup & Hlen).
  split; [now apply Hnd' |]. split; [| split; [| split; [| split]]].
  - intros arg'. destruct (String.eqb_spec arg' arg) as [-> | Hneq].
    + rewrite Harg. destruct (obj_get arg pending) as [current |] eqn:Hget.
      * intros [= Hnil]. apply (push_entry_nonempty activeSet values current);
          [| assumption].
        intros ->. now apply (Hne arg).
      * now destruct (push_entry activeSet values []).
    + rewrite Hother by assumption. apply Hne.
  - intros arg'. destruct (String.eqb_spec arg' arg) as [-> | Hneq].
    + intros _. rewrite Hact. eauto.
    + rewrite Hother by assumption. apply Hcfg.
  - intros arg' x. destruct (String.eqb_spec arg' arg) as [-> | Hneq].
    + rewrite Hentry, Happ, in_app_iff, Hact. cbn [default from_option id].
      intros [Hin | Hin].
      * specialize (Hdisj arg x Hin). now rewrite Hact in Hdisj.
      * rewrite List.Forall_forall in Hadded. now apply Hadded.
    + rewrite Hother by assumption. apply Hdisj.
  - intros arg'. destruct (String.eqb_spec arg' arg) as [-> | Hneq].
    + rewrite Hentry, Happ. apply Hnodup, Hkeys.
    + rewrite Hother by assumption. apply Hkeys.
  - intros arg' dim Hfind Hs. destruct (String.eqb_spec arg' arg) as [-> | Hneq].
    + rewrite Hentry, Happ, length_app, Hact. cbn [default from_option id].
      pose proof (check_single_passes _ _ _ _ _ (Hcheck dim Hfind Hs)). lia.
    + rewrite Hother by assumption. now apply (Hsingle arg' dim).
Qed.

Lemma request_loop_ok (cfg : Config) (active : gmap string (gset string))
    (entries : ExtractedFilters) :
  forall pending hasNew,
    pending_ok cfg active pending ->
    pending_ok cfg active
      (fst (fst (request_loop cfg active entries pending hasNew))).
Proof.
  induction entries as [| [arg values] rest IH]; intros pending hasNew Hok;
    cbn [request_loop]; [exact Hok |].
  destruct (active !! arg) as [activeSet |] eqn:Hact; [| now apply IH].
  destruct (match find_dimension cfg arg with
            | Some dim =>
                if single dim
                then check_single dim activeSet arg values pending
                else None
            | None => None
            end) as [e |] eqn:Hviolation; [exact Hok |].
  pose proof (push_values_ok cfg active arg activeSet values pending hasNew
                Hact) as Hpush.
  destruct (push_values activeSet arg values pending hasNew) as [pending' hasNew'].
  apply IH. cbn [fst] in Hpush. apply Hpush; [| exact Hok].
  intros dim Hfind Hs. now rewrite Hfind, Hs in Hviolation.
Qed.

Lemma requestFilters_pending (cfg : Config) (s : State)
    (filters : ExtractedFilters) :
  pendingFilters (fst (requestFilters cfg s filters))
  = match filterDimensions cfg with
    | [] => pendingFilters s
    | _ => fst (fst (request_loop cfg (activeDimensions s) filters
                       (pendingFilters s) false))
    end.
Proof.
  unfold requestFilters, scheduleProcessing.
  destruct (filterDimensions cfg); [now destruct (hasRequestedGlobal s) |].
  destruct (request_loop _ _ _ _ _) as [[pending hasNew] [e |]]; cbn [fst];
    [reflexivity |]. now destruct hasNew.
Qed.

Lemma releaseFilters_pending (cfg : Config) (s : State)
    (filters : ExtractedFilters) :
  pendingFilters (releaseFilters cfg s filters) = pendingFilters s.
Proof.
  unfold releaseFilters, cleanupUnreferencedValues.
  repeat case_match; reflexivity.
Qed.

Lemma timerFires_tracking (cfg : Config) (s : State) (h : nat) :
  (activeDimensions (timerFires cfg s h) = activeDimensions s /\
   pendingFilters (timerFires cfg s h) = pendingFilters s) \/
  (activeDimensions (timerFires cfg s h)
   = merge_pending (pendingFilters s) (activeDimensions s) /\
   pendingFilters (timerFires cfg s h) = []).
Proof. unfold timerFires. repeat case_match; cbn; auto. Qed.

Lemma pending_keys_get (pending : ExtractedFilters) (arg : string) :
  List.NoDup (map fst pending) ->
  pending_keys pending arg
  = list_to_set (map toKey (default [] (obj_get arg pending))).
Proof.
  induction pending as [| [k values] rest IH]; cbn [pending_keys obj_get map fst];
    [intros _; set_solver |].
  intros Hnd. apply List.NoDup_cons_iff in Hnd as [Hk Hnd].
  destruct (String.eqb_spec k arg) as [-> | Hne].
  - cbn [default from_option id].
    assert (Hrest : pending_keys rest arg = ∅).
    { rewrite IH by assumption.
      now rewrite (proj2 (obj_get_None arg rest) Hk). }
    rewrite Hrest. set_solver.
  - rewrite IH by assumption. set_solver.
Qed.

Lemma size_list_to_set_le (l : list string) :
  size (list_to_set l : gset string) <= length l.
Proof.
  induction l as [| x l IH]; cbn [list_to_set length].
  - now rewrite size_empty.
  - rewrite size_union_alt, size_singleton.
    assert (Hsub : list_to_set l ∖ {[x]} ⊆ (list_to_set l : gset string))
      by set_solver.
    apply subseteq_size in Hsub. lia.
Qed.

Lemma size_union_list_le (A : gset string) (l : list string) :
  size (A ∪ list_to_set l) <= size A + length l.
Proof.
  rewrite size_union_alt.
  pose proof (size_list_to_set_le l).
  assert (Hsub : list_to_set l ∖ A ⊆ (list_to_set l : gset string))
    by set_solver.
  apply subseteq_size in Hsub. lia.
Qed.

Lemma pending_ok_empty (cfg : Config) (active : gmap string (gset string)) :
  (forall arg dim, find_dimension cfg arg = Some dim -> single dim = true ->
     size (default ∅ (active !! arg)) <= 1) ->
  pending_ok cfg active [].
Proof.
  intros Hsingle. split; [constructor |]. split; [discriminate |].
  split; [intros arg [x Hx]; discriminate |]. split; [intros arg x [] |].
  split; [intros arg; constructor |].
  intros arg dim Hfind Hs. cbn. specialize (Hsingle arg dim Hfind Hs). lia.
Qed.

Lemma step_tracker_invariant (cfg : Config) (s : State) (op : Op) :
  tracker_invariant cfg s -> tracker_invariant cfg (step cfg s op).
Proof.
  intros [Hok Himg]. unfold tracker_invariant, active_values in *.
  destruct op as [| f | f | h | result coll | coll items |]; cbn [step].
  - split; assumption.
  - rewrite requestFilters_active, requestFilters_pending.
    split; [| assumption].
    destruct (filterDimensions cfg); [assumption | now apply request_loop_ok].
  - rewrite releaseFilters_pending, releaseFilters_active.
    destruct (filterDimensions cfg); [now split |].
    set (R := referencedValues cfg _).
    assert (Hsub : forall arg,
               default ∅ (retain_referenced R (activeDimensions s) !! arg)
               ⊆ default ∅ (activeDimensions s !! arg)).
    { intros arg. rewrite retain_referenced_lookup.
      destruct (activeDimensions s !! arg); cbn; set_solver. }
    destruct Hok as (Hnd & Hne & Hcfg & Hdisj & Hkeys & Hsingle).
    split; [split; [assumption |]; split; [assumption |];
            split; [| split; [| split; [assumption |]]] |].
    + intros arg Hp. rewrite retain_referenced_lookup, fmap_is_Some.
      now apply Hcfg.
    + intros arg x Hx Hin. apply (Hdisj arg x Hx). now apply Hsub.
    + intros arg dim Hfind Hs. specialize (Hsingle arg dim Hfind Hs).
      pose proof (subseteq_size _ _ (Hsub arg)). lia.
    + intros arg k Hk. apply (Himg arg). now apply Hsub.
  - destruct (timerFires_tracking cfg s h) as [[-> ->] | [-> ->]];
      [now split |].
    destruct Hok as (Hnd & Hne & Hcfg & Hdisj & Hkeys & Hsingle).
    assert (Hlook : forall arg,
               default ∅ (merge_pending (pendingFilters s) (activeDimensions s) !! arg)
               ⊆ default ∅ (activeDimensions s !! arg)
                 ∪ list_to_set (map toKey (default [] (obj_get arg (pendingFilters s))))).
    { intros arg. rewrite merge_pending_lookup, pending_keys_get by assumption.
      destruct (activeDimensions s !! arg); cbn; set_solver. }
    split.
    + apply pending_ok_empty. intros arg dim Hfind Hs.
      specialize (Hsingle arg dim Hfind Hs).
      pose proof (subseteq_size _ _ (Hlook arg)).
      pose proof (size_union_list_le (default ∅ (activeDimensions s !! arg))
                    (map toKey (default [] (obj_get arg (pendingFilters s))))) as Hle.
      rewrite length_map in Hle. lia.
    + intros arg k Hk. apply Hlook in Hk.
      apply elem_of_union in Hk as [Hk | Hk]; [now apply (Himg arg) |].
      apply elem_of_list_to_set, list_elem_of_In, in_map_iff in Hk.
      destruct Hk as (x & <- & _). eauto.
  - destruct (backfillDone_frame getKey updatedAt cfg s result coll)
      as (-> & _ & ->). now split.
  - destruct (handleIncomingData_frame getKey updatedAt cfg s coll items)
      as (-> & _ & -> & _). now split.
  - cbn [cleanup activeDimensions pendingFilters].
    assert (Hempty : forall arg,
               default ∅ (((fun _ => (∅ : gset string)) <$> activeDimensions s) !! arg)
               = ∅).
    { intros arg. rewrite lookup_fmap. now destruct (activeDimensions s !! arg). }
    split.
    + apply pending_ok_empty. intros arg dim _ _. rewrite Hempty, size_empty. lia.
    + intros arg k. rewrite Hempty. set_solver.
Qed.

Lemma init_tracker_invariant (cfg : Config) : tracker_invariant cfg (init cfg).
Proof.
  assert (Hempty : forall arg, active_values (init cfg) arg = ∅).
  { intros arg. unfold active_values. cbn [init activeDimensions].
    fold (empty_refs cfg).
    destruct (empty_refs cfg !! arg) eqn:H; [| reflexivity].
    apply empty_refs_lookup in H. now subst. }
  split.
  - apply pending_ok_empty. intros arg dim _ _.
    change (default ∅ (activeDimensions (init cfg) !! arg))
      with (active_values (init cfg) arg).
    rewrite Hempty, size_empty. lia.
  - intros arg k. rewrite Hempty. set_solver.
Qed.

Lemma run_tracker_invariant (cfg : Config) (ops : list Op) (s : State) :
  tracker_invariant cfg s -> tracker_invariant cfg (run cfg s ops).
Proof.
  revert s. induction ops as [| op ops IH]; intros s Hs; [assumption |].
  cbn [run fold_left]. apply IH. now apply step_tracker_invariant.
Qed.

(** X12.  In every state the manager reaches, the pending buffer holds
    only values that are new: no pending array is empty, no array holds
    two values with the same stable key, and no pending value has its key
    in the active set of its dimension already. *)
Theorem pending_values_are_new (cfg : Config) (ops : list Op) (arg : string) :
  let s := run cfg (init cfg) ops in
  obj_get arg (pendingFilters s) <> Some [] /\
  List.NoDup (map toKey (pending_of s arg)) /\
  (forall x, In x (pending_of s arg) -> toKey x ∉ active_values s arg).
Proof.
  cbn zeta.
  destruct (run_tracker_invariant cfg ops (init cfg) (init_tracker_invariant cfg))
    as [(_ & Hne & _ & Hdisj & Hkeys & _) _].
  split; [apply Hne |]. split; [apply Hkeys |]. intros x. apply Hdisj.
Qed.

(** X13.  In every state the manager reaches, a dimension configured as
    [single] holds at most one value, counting the active keys and the
    pending values together. *)
Theorem single_dimension_bound (cfg : Config) (ops : list Op) (arg : string)
    (dim : FilterDimension) :
  find_dimension cfg arg = Some dim ->
  single dim = true ->
  let s := run cfg (init cfg) ops in
  size (active_values s arg) + length (pending_of s arg) <= 1.
Proof.
  intros Hfind Hsingle. cbn zeta.
  destruct (run_tracker_invariant cfg ops (init cfg) (init_tracker_invariant cfg))
    as [(_ & _ & _ & _ & _ & Hbound) _].
  now apply (Hbound arg dim).
Qed.

(** X14.  In every state the manager reaches, each key of an active set
    is the stable key of a value, so [fromKey] reads it back without
    failing, as [buildQueryArgs] and [getDebugInfo] need. *)
Theorem active_keys_parse (cfg : Config) (ops : list Op) (arg k : string) :
  k ∈ active_values (run cfg (init cfg) ops) arg ->
  exists v, k = toKey v /\
            fromKey k = Some (deserializeValue (serializeValue v)).
Proof.
  intros Hk.
  destruct (run_tracker_invariant cfg ops (init cfg) (init_tracker_invariant cfg))
    as [_ Himg].
  destruct (Himg arg k Hk) as [v ->].
  exists v. split; [reflexivity | apply fromKey_toKey].
Qed.

Lemma push_values_active (activeSet : gset string) (arg : string)
    (values : list value) (pending : ExtractedFilters) (hasNew : bool) :
  (forall x, In x values -> toKey x ∈ activeSet) ->
  push_values activeSet arg values pending hasNew = (pending, hasNew).
Proof.
  induction values as [| v rest IH]; intros Hall; cbn [push_values];
    [reflexivity |].
  rewrite bool_decide_eq_true_2 by (apply Hall; now left).
  apply IH. intros x Hx. apply Hall. now right.
Qed.

Lemma check_single_active (dim : FilterDimension) (activeSet : gset string)
    (arg : string) (values : list value) (pending : ExtractedFilters) :
  (forall x, In x values -> toKey x ∈ activeSet) ->
  size activeSet + length (default [] (obj_get arg pending)) <= 1 ->
  check_single dim activeSet arg values pending = None.
Proof.
  intros Hall Hbound. unfold check_single.
  assert (Hnone :
    List.filter
      (fun v => negb (bool_decide (toKey v ∈ activeSet))
                && negb (is_pending (toKey v) (obj_get arg pending))) values
    = []).
  { induction values as [| v rest IH]; [reflexivity |]. cbn [List.filter].
    rewrite bool_decide_eq_true_2 by (apply Hall; now left). cbn [negb andb].
    apply IH. intros x Hx. apply Hall. now right. }
  rewrite Hnone. cbn [length].
  assert (Hlen : match obj_get arg pending with
                 | Some l => length l
                 | None => 0
                 end = length (default [] (obj_get arg pending)))
    by now destruct (obj_get arg pending).
  rewrite Hlen.
  destruct (Nat.ltb_spec 1 (size activeSet
              + length (default [] (obj_get arg pending)) + 0));
    [lia | reflexivity].
Qed.

Lemma request_loop_active (cfg : Config) (active : gmap string (gset string))
    (pending : ExtractedFilters) (hasNew : bool) (entries : ExtractedFilters) :
  pending_ok cfg active pending ->
  (forall arg values activeSet,
     In (arg, values) entries -> active !! arg = Some activeSet ->
     forall x, In x values -> toKey x ∈ activeSet) ->
  request_loop cfg active entries pending hasNew = (pending, hasNew, None).
Proof.
  intros Hok. induction entries as [| [arg values] rest IH]; intros Hall;
    cbn [request_loop]; [reflexivity |].
  assert (Hrest : request_loop cfg active rest pending hasNew
                  = (pending, hasNew, None)).
  { apply IH. intros a vs A Hin. apply (Hall a vs A). now right. }
  destruct (active !! arg) as [activeSet |] eqn:Hact; [| exact Hrest].
  assert (Hvalues : forall x, In x values -> toKey x ∈ activeSet).
  { apply (Hall arg values activeSet); [now left | assumption]. }
  assert (Hcheck : match find_dimension cfg arg with
                   | Some dim =>
                       if single dim
                       then check_single dim activeSet arg values pending
                       else None
                   | None => None
                   end = None).
  { destruct (find_dimension cfg arg) as [dim |] eqn:Hfind; [| reflexivity].
    destruct (single dim) eqn:Hs; [| reflexivity].
    apply check_single_active; [assumption |].
    destruct Hok as (_ & _ & _ & _ & _ & Hbound).
    specialize (Hbound arg dim Hfind Hs). now rewrite Hact in Hbound. }
  rewrite Hcheck, push_values_active by assumption. exact Hrest.
Qed.

(** X15.  In a state the manager reaches, a request whose values are all
    active already only counts the reference: the pending buffer stays as
    it is, no pass is scheduled and the caller gets a resolved promise. *)
Theorem request_active_resolves (cfg : Config) (ops : list Op)
    (filters : ExtractedFilters) :
  let s := run cfg (init cfg) ops in
  let key := createCompositeKey filters in
  filterDimensions cfg <> [] ->
  (forall arg values activeSet,
     In (arg, values) filters -> activeDimensions s !! arg = Some activeSet ->
     forall x, In x values -> toKey x ∈ activeSet) ->
  requestFilters cfg s filters
  = (set_tracking s
       (<[key := (default 0 (refCounts s !! key) + 1)%Z]> (refCounts s))
       (pendingFilters s),
     Resolved).
Proof.
  cbn zeta. intros Hdims Hall.
  destruct (run_tracker_invariant cfg ops (init cfg) (init_tracker_invariant cfg))
    as [Hok _].
  unfold requestFilters.
  destruct (filterDimensions cfg) as [| d dims]; [congruence |].
  now rewrite (request_loop_active cfg _ _ false filters Hok Hall).
Qed.

End TrackerInvariant.

Lemma single_dimension_bound_witness :
  let s :=
    Scenario.run' Scenario.single_page (init Scenario.single_page)
      [OpSetCallbacks; OpRequest [("pageId", [VString "a"])]; OpTimer 0;
       OpRequest Scenario.pages_a_b] in
  size (active_values s "pageId") + length (pending_of s "pageId") <= 1.
Proof.
  exact (single_dimension_bound Scenario.msg_id Scenario.msg_updatedAt
           Scenario.single_page
           [OpSetCallbacks; OpRequest [("pageId", [VString "a"])]; OpTimer 0;
            OpRequest Scenario.pages_a_b]
           "pageId"
           {| filterField := "pageId"; convexArg := "pageId"; single := true |}
           eq_refl eq_refl).
Defined.

Lemma active_keys_parse_witness :
  exists v, toKey (VString "c1") = toKey v /\
            fromKey (toKey (VString "c1"))
            = Some (deserializeValue (serializeValue v)).
Proof.
  apply (active_keys_parse Scenario.msg_id Scenario.msg_updatedAt
           Scenario.channels
           [OpSetCallbacks; OpRequest Scenario.c1; OpTimer 0] "channelIds").
  apply (bool_decide_unpack _). vm_compute. exact I.
Defined.

Lemma request_active_resolves_witness :
  let s :=
    run Scenario.msg_id Scenario.msg_updatedAt Scenario.channels
      (init Scenario.channels)
      [OpSetCallbacks; OpRequest Scenario.c1; OpTimer 0;
       OpBackfill (Some []) Scenario.no_records] in
  let key := createCompositeKey Scenario.c1 in
  requestFilters Scenario.channels s Scenario.c1
  = (set_tracking s
       (<[key := (default 0 (refCounts s !! key) + 1)%Z]> (refCounts s))
       (pendingFilters s),
     Resolved).
Proof.
  apply (request_active_resolves Scenario.msg_id Scenario.msg_updatedAt
           Scenario.channels
           [OpSetCallbacks; OpRequest Scenario.c1; OpTimer 0;
            OpBackfill (Some []) Scenario.no_records]
           Scenario.c1).
  - discriminate.
  - intros arg values activeSet [[= <- <-] | []] Hact x [<- | []].
    assert (Hset : activeSet = {[toKey (VString "c1")]}).
    { apply (inj Some). rewrite <- Hact.
      apply (bool_decide_unpack _). vm_compute. exact I. }
    rewrite Hset. apply elem_of_singleton. reflexivity.
Defined.

(** ** Time-outs, promises and the subscription in every reachable state *)

Section RuntimeInvariant.

Context {T K : Type}.
Variable getKey : T -> K.
Variable updatedAt : T -> option Z.

Local Abbreviation handleIncomingData := (handleIncomingData getKey updatedAt).
Local Abbreviation backfillDone := (backfillDone getKey updatedAt).
Local Abbreviation step := (step getKey updatedAt).
Local Abbreviation run := (run getKey updatedAt).

Lemma armed_cleared (s : State) :
  runtime_invariant s ->
  match debounceTimer s with
  | Some h => armed s ∖ {[h]}
  | None => armed s
  end = ∅.
Proof.
  intros (Harmed & _). apply set_eq. intros h. split; [| set_solver].
  intros Hin. destruct (debounceTimer s) as [h' |] eqn:E.
  - apply elem_of_difference in Hin as [Hin Hne].
    destruct (Harmed h Hin) as [[= ->] _]. set_solver.
  - destruct (Harmed h Hin) as [[=] _].
Qed.

Lemma scheduleProcessing_runtime (s : State) :
  runtime_invariant s -> runtime_invariant (fst (scheduleProcessing s)).
Proof.
  intros Hinv. pose proof (armed_cleared s Hinv) as Hclear.
  destruct Hinv as (Harmed & Hpass & Hflag).
  unfold runtime_invariant, scheduleProcessing.
  cbn [fst armed debounceTimer promises inflight isProcessing].
  rewrite Hclear. split; [| split; [| assumption]].
  - intros h Hh. assert (h = length (promises s)) as -> by set_solver.
    split; [reflexivity |].
    rewrite lookup_app_r by lia. now rewrite Nat.sub_diag.
  - intros pass Hp. destruct (Hpass pass Hp) as [Hpend Hna].
    assert (bf_promise pass < length (promises s))
      by (eapply lookup_lt_Some; eauto).
    split; [now rewrite lookup_app_l |].
    intros Hin. assert (bf_promise pass = length (promises s)) by set_solver.
    lia.
Qed.

Lemma requestFilters_runtime (cfg : Config) (s : State)
    (filters : ExtractedFilters) :
  runtime_invariant s -> runtime_invariant (fst (requestFilters cfg s filters)).
Proof.
  intros H. unfold requestFilters.
  repeat case_match; cbn [fst]; try exact H.
  all: match goal with
       | Heq : scheduleProcessing _ = (?s2, _) |- _ =>
           apply (f_equal fst) in Heq; cbn [fst] in Heq; subst s2;
           apply scheduleProcessing_runtime; exact H
       end.
Qed.

Lemma releaseFilters_runtime (cfg : Config) (s : State)
    (filters : ExtractedFilters) :
  runtime_invariant s -> runtime_invariant (releaseFilters cfg s filters).
Proof.
  intros H. unfold releaseFilters, cleanupUnreferencedValues.
  repeat case_match; exact H.
Qed.

Lemma timerFires_runtime (cfg : Config) (s : State) (h : nat) :
  runtime_invariant s -> runtime_invariant (timerFires cfg s h).
Proof.
  intros Hinv. destruct Hinv as (Harmed & Hpass & Hflag).
  unfold timerFires.
  destruct (bool_decide (h ∈ armed s)) eqn:Hh;
    [| exact (conj Harmed (conj Hpass Hflag))].
  apply bool_decide_eq_true in Hh.
  destruct (Harmed h Hh) as [Hdt Hpend].
  assert (Hclear : armed s ∖ {[h]} = ∅).
  { apply set_eq. intros h'. split; [| set_solver].
    intros Hin. apply elem_of_difference in Hin as [Hin Hne].
    destruct (Harmed h' Hin) as [Hdt' _]. rewrite Hdt in Hdt'.
    injection Hdt' as ->. set_solver. }
  destruct (isProcessing s || _) eqn:Hbranch.
  - unfold runtime_invariant.
    cbn [set_runtime armed debounceTimer promises inflight isProcessing].
    rewrite Hclear. split; [set_solver |]. split; [| assumption].
    intros pass Hp. destruct (Hpass pass Hp) as [Hpp Hna].
    split; [| set_solver].
    rewrite settle_other; [assumption |]. intros ->. contradiction.
  - apply orb_false_iff in Hbranch as [Hproc _].
    assert (Hidle : inflight s = None).
    { destruct (inflight s) eqn:E; [| reflexivity].
      assert (isProcessing s = true) by (apply Hflag; eauto). congruence. }
    destruct (filterDimensions cfg); unfold runtime_invariant;
      cbn [set_runtime set_tracking set_active armed debounceTimer promises
           inflight isProcessing];
      rewrite Hclear; (split; [set_solver |]); split.
    + intros pass [= <-]. cbn. split; [assumption | set_solver].
    + split; [reflexivity | eauto].
    + intros pass [= <-]. cbn. split; [assumption | set_solver].
    + split; [reflexivity | eauto].
Qed.

Lemma handleIncomingData_timer (cfg : Config) (s : State)
    (collection : K -> option T) (items : list T) :
  let s' := fst (handleIncomingData cfg s collection items) in
  debounceTimer s' = debounceTimer s /\ isProcessing s' = isProcessing s.
Proof.
  unfold handleIncomingData.
  destruct (negb (callbacks s) || _); [cbn; tauto |].
  destruct (fold_left _ _ _) as [[cursor n] writes].
  destruct (_ && _); cbn; tauto.
Qed.

Lemma handleIncomingData_runtime (cfg : Config) (s : State)
    (collection : K -> option T) (items : list T) :
  runtime_invariant s ->
  runtime_invariant (fst (handleIncomingData cfg s collection items)).
Proof.
  unfold runtime_invariant.
  destruct (handleIncomingData_frame getKey updatedAt cfg s collection items)
    as (_ & _ & _ & -> & -> & ->).
  destruct (handleIncomingData_timer cfg s collection items) as (-> & ->).
  tauto.
Qed.

Lemma backfillDone_settles (cfg : Config) (s : State)
    (result : option (list T)) (collection : K -> option T)
    (pass : Backfill) :
  inflight s = Some pass ->
  let s' := fst (backfillDone cfg s result collection) in
  debounceTimer s' = debounceTimer s /\
  armed s' = armed s /\
  promises s'
  = settle (bf_promise pass)
      (match result with Some _ => Fulfilled | None => Rejected end)
      (promises s) /\
  isProcessing s' = false /\ inflight s' = None.
Proof.
  intros Hpass. unfold backfillDone. rewrite Hpass.
  destruct result as [items |]; [| cbn; tauto].
  destruct (handleIncomingData_frame getKey updatedAt cfg s collection items)
    as (_ & _ & _ & Hp & Ha & _).
  destruct (handleIncomingData_timer cfg s collection items) as (Hd & _).
  destruct (handleIncomingData cfg s collection items) as [s1 events].
  cbn [fst] in *.
  destruct (_ && _); cbn; rewrite Hp, Ha, Hd; tauto.
Qed.

Lemma backfillDone_runtime (cfg : Config) (s : State)
    (result : option (list T)) (collection : K -> option T) :
  runtime_invariant s ->
  runtime_invariant (fst (backfillDone cfg s result collection)).
Proof.
  intros Hinv. destruct (inflight s) as [pass |] eqn:Hpass.
  - destruct (backfillDone_settles cfg s result collection pass Hpass)
      as (Hd & Ha & Hp & Hproc & Hidle).
    destruct Hinv as (Harmed & Hin & _).
    destruct (Hin pass Hpass) as [_ Hna].
    unfold runtime_invariant. rewrite Hd, Ha, Hp, Hproc, Hidle.
    split; [| split].
    + intros h Hh. destruct (Harmed h Hh) as [Hdt Hpend].
      split; [assumption |].
      rewrite settle_other; [assumption |]. intros Heq. apply Hna.
      now rewrite Heq.
    + discriminate.
    + split; [intros [x Hx]; discriminate | discriminate].
  - unfold backfillDone. now rewrite Hpass.
Qed.

Lemma cleanup_runtime (s : State) :
  runtime_invariant s -> runtime_invariant (cleanup s).
Proof.
  intros Hinv. pose proof (armed_cleared s Hinv) as Hclear.
  destruct Hinv as (Harmed & Hpass & Hflag).
  unfold runtime_invariant, cleanup.
  cbn [armed debounceTimer promises inflight isProcessing].
  rewrite Hclear. split; [set_solver |]. split; [| assumption].
  intros pass Hp. destruct (Hpass pass Hp) as [Hpp _].
  split; [assumption | set_solver].
Qed.

Lemma step_runtime (cfg : Config) (s : State) (op : Op) :
  runtime_invariant s -> runtime_invariant (step cfg s op).
Proof.
  intros H. destruct op; cbn [step].
  - exact H.
  - now apply requestFilters_runtime.
  - now apply releaseFilters_runtime.
  - now apply timerFires_runtime.
  - now apply backfillDone_runtime.
  - now apply handleIncomingData_runtime.
  - now apply cleanup_runtime.
Qed.

Lemma init_runtime (cfg : Config) : runtime_invariant (init cfg).
Proof.
  split; [cbn; set_solver |]. split; [discriminate |].
  cbn. split; [intros [x Hx]; discriminate | discriminate].
Qed.

Lemma run_runtime (cfg : Config) (ops : list Op) (s : State) :
  runtime_invariant s -> runtime_invariant (run cfg s ops).
Proof.
  revert s. induction ops as [| op ops IH]; intros s Hs; [assumption |].
  cbn [run fold_left]. apply IH. now apply step_runtime.
Qed.

Lemma hasActiveValues_spec (active : gmap string (gset string)) :
  hasActiveValues active = true <-> exists arg, default ∅ (active !! arg) ≠ ∅.
Proof.
  unfold hasActiveValues. rewrite existsb_exists. split.
  - intros ([arg set] & Hin & Hne).
    apply list_elem_of_In, elem_of_map_to_list in Hin.
    exists arg. rewrite Hin. cbn [default from_option id].
    apply negb_true_iff, bool_decide_eq_false in Hne. exact Hne.
  - intros (arg & Hne).
    destruct (active !! arg) as [set |] eqn:E; [| now cbn in Hne].
    exists (arg, set). split.
    + apply list_elem_of_In, elem_of_map_to_list. exact E.
    + cbn [snd]. apply negb_true_iff, bool_decide_eq_false. exact Hne.
Qed.

Lemma hasActiveValues_merge (pending : ExtractedFilters)
    (active : gmap string (gset string)) :
  hasActiveValues active = true ->
  hasActiveValues (merge_pending pending active) = true.
Proof.
  rewrite !hasActiveValues_spec. intros (arg & Hne). exists arg.
  rewrite merge_pending_lookup.
  destruct (active !! arg) as [set |]; [| exact Hne].
  cbn in *. set_solver.
Qed.

Lemma updateSubscription_ok (cfg : Config) (s : State) :
  counters_ok s -> progress_invariant cfg (updateSubscription cfg s).
Proof.
  intros (Hgc & Hm & Hrc & Hhas). split.
  - unfold counters_ok, updateSubscription. cbn.
    split; [assumption |]. split; [lia |]. split; assumption.
  - intros sub. unfold updateSubscription.
    cbn [currentSubscription globalCursor messagesSinceSubscription].
    destruct (match filterDimensions cfg with
              | [] => hasRequestedGlobal s
              | _ => hasActiveValues (activeDimensions s)
              end) eqn:Hwants; [| discriminate].
    intros [= <-]. cbn [sub_after]. split; [lia |]. split; [auto |].
    exact Hwants.
Qed.

Lemma handleIncomingData_progress (cfg : Config) (s : State)
    (collection : K -> option T) (items : list T) :
  progress_invariant cfg s ->
  progress_invariant cfg (fst (handleIncomingData cfg s collection items)).
Proof.
  intros [Hc Hsub]. unfold handleIncomingData.
  destruct (negb (callbacks s) || _); [now split |].
  pose proof (reconcile_loop_cursor getKey updatedAt collection (globalCursor s)
                items (globalCursor s, 0%Z, [])) as Hge.
  destruct (reconcile_loop_bounds getKey updatedAt collection (globalCursor s)
              items (globalCursor s, 0%Z, [])) as (_ & _ & Hcount & _).
  destruct (fold_left _ _ _) as [[cursor n] writes]. cbn [fst snd] in *.
  destruct Hc as (Hgc & Hm & Hrc & Hhas).
  assert (Hc1 : counters_ok
                  (set_progress s cursor (messagesSinceSubscription s + n))).
  { unfold counters_ok. cbn. split; [lia |]. split; [lia |]. now split. }
  destruct (_ && _) eqn:Hcond; cbn [fst].
  - now apply updateSubscription_ok.
  - split; [exact Hc1 |]. intros sub Hs. cbn in Hs.
    destruct (Hsub sub Hs) as (Hafter & Hthr & Hw).
    cbn [set_progress globalCursor messagesSinceSubscription].
    split; [lia |]. split; [| exact Hw].
    intros Hpos. rewrite !andb_false_iff in Hcond.
    destruct Hcond as [[H | H] | H].
    + apply Z.ltb_ge in H. lia.
    + apply Z.leb_gt in H. exact H.
    + apply bool_decide_eq_false in H. cbn in H. rewrite Hs in H.
      destruct H. eauto.
Qed.

Lemma backfillDone_progress (cfg : Config) (s : State)
    (result : option (list T)) (collection : K -> option T) :
  progress_invariant cfg s ->
  progress_invariant cfg (fst (backfillDone cfg s result collection)).
Proof.
  intros Hinv. unfold backfillDone.
  destruct (inflight s); [| exact Hinv].
  destruct result as [items |]; [| exact Hinv].
  pose proof (handleIncomingData_progress cfg s collection items Hinv) as [Hc _].
  destruct (handleIncomingData cfg s collection items) as [s1 events].
  cbn [fst] in *.
  pose proof (updateSubscription_ok cfg s1 Hc) as Hup.
  destruct (_ && _); exact Hup.
Qed.

Lemma requestFilters_progress (cfg : Config) (s : State)
    (filters : ExtractedFilters) :
  progress_invariant cfg s ->
  progress_invariant cfg (fst (requestFilters cfg s filters)).
Proof.
  intros [(Hgc & Hm & Hrc & Hhas) Hsub]. unfold requestFilters.
  destruct (filterDimensions cfg) as [| d dims] eqn:Hdims.
  - assert (Hgoal : forall s',
              globalCursor s' = globalCursor s ->
              messagesSinceSubscription s' = messagesSinceSubscription s ->
              currentSubscription s' = currentSubscription s ->
              globalRefCount s' = (globalRefCount s + 1)%Z ->
              hasRequestedGlobal s' = true ->
              progress_invariant cfg s').
    { intros s' Eg Em Es Er Eh. split.
      - unfold counters_ok. rewrite Eg, Em, Er, Eh.
        split; [assumption |]. split; [assumption |]. split; [lia |].
        split; [lia | reflexivity].
      - intros sub. rewrite Es, Eg, Em. intros Hs.
        destruct (Hsub sub Hs) as (Ha & Ht & _).
        split; [assumption |]. split; [assumption |].
        unfold wants_subscription. now rewrite Hdims. }
    destruct (hasRequestedGlobal s) eqn:Hreq; cbn [fst]; now apply Hgoal.
  - assert (Hsame : forall s',
              globalCursor s' = globalCursor s ->
              messagesSinceSubscription s' = messagesSinceSubscription s ->
              currentSubscription s' = currentSubscription s ->
              globalRefCount s' = globalRefCount s ->
              hasRequestedGlobal s' = hasRequestedGlobal s ->
              activeDimensions s' = activeDimensions s ->
              progress_invariant cfg s').
    { intros s' Eg Em Es Er Eh Ea. split.
      - unfold counters_ok. rewrite Eg, Em, Er, Eh.
        exact (conj Hgc (conj Hm (conj Hrc Hhas))).
      - intros sub. rewrite Es, Eg, Em. intros Hs.
        destruct (Hsub sub Hs) as (Ha & Ht & Hw).
        split; [assumption |]. split; [assumption |].
        unfold wants_subscription in *. rewrite Hdims in *. now rewrite Ea. }
    destruct (request_loop _ _ _ _ _) as [[pending hasNew] [e |]]; cbn [fst];
      [now apply Hsame |].
    destruct hasNew; cbn [fst]; now apply Hsame.
Qed.

Lemma releaseFilters_progress (cfg : Config) (s : State)
    (filters : ExtractedFilters) :
  progress_invariant cfg s ->
  progress_invariant cfg (releaseFilters cfg s filters).
Proof.
  intros [(Hgc & Hm & Hrc & Hhas) Hsub]. unfold releaseFilters.
  destruct (filterDimensions cfg) as [| d dims] eqn:Hdims.
  - destruct (Z.eqb_spec (Z.max 0 (globalRefCount s - 1)) 0) as [Hzero | Hpos];
      cbn [andb].
    + destruct (hasRequestedGlobal s) eqn:Hreq.
      * apply updateSubscription_ok. unfold counters_ok. cbn.
        split; [assumption |]. split; [assumption |]. split; [lia |].
        split; [discriminate | lia].
      * split.
        -- unfold counters_ok. cbn.
           split; [assumption |]. split; [assumption |]. split; [lia |].
           split; [discriminate | lia].
        -- intros sub Hs. cbn in Hs. destruct (Hsub sub Hs) as (_ & _ & Hw).
           unfold wants_subscription in Hw. rewrite Hdims in Hw. congruence.
    + split.
      * unfold counters_ok. cbn.
        split; [assumption |]. split; [assumption |]. split; [lia |].
        split; [lia |]. intros _. apply Hhas. lia.
      * intros sub Hs. cbn in Hs. destruct (Hsub sub Hs) as (Ha & Ht & Hw).
        cbn [set_global globalCursor messagesSinceSubscription].
        split; [assumption |]. split; [assumption |].
        unfold wants_subscription in *. now rewrite Hdims in *.
  - unfold cleanupUnreferencedValues. cbv zeta.
    set (s1 := set_tracking s _ (pendingFilters s)).
    set (active' := retain_referenced (referencedValues cfg (refCounts s1))
                      (activeDimensions s1)).
    destruct (bool_decide (active' ≠ activeDimensions s1)) eqn:Hchanged.
    + apply updateSubscription_ok. exact (conj Hgc (conj Hm (conj Hrc Hhas))).
    + apply bool_decide_eq_false in Hchanged.
      assert (Hsame : active' = activeDimensions s).
      { destruct (decide (active' = activeDimensions s)) as [E | E];
          [exact E | contradiction]. }
      split; [exact (conj Hgc (conj Hm (conj Hrc Hhas))) |].
      intros sub Hs. change (currentSubscription s = Some sub) in Hs.
      destruct (Hsub sub Hs) as (Ha & Ht & Hw).
      split; [exact Ha |]. split; [exact Ht |].
      unfold wants_subscription in *. rewrite Hdims in *.
      change (hasActiveValues active' = true). now rewrite Hsame.
Qed.

Lemma timerFires_progress (cfg : Config) (s : State) (h : nat) :
  progress_invariant cfg s -> progress_invariant cfg (timerFires cfg s h).
Proof.
  intros Hinv. unfold timerFires.
  destruct (bool_decide (h ∈ armed s)); [| exact Hinv].
  destruct (isProcessing s || _); [exact Hinv |].
  destruct (filterDimensions cfg) as [| d dims] eqn:Hdims; [exact Hinv |].
  destruct Hinv as [Hc Hsub]. split; [exact Hc |].
  intros sub Hs. cbn in Hs. destruct (Hsub sub Hs) as (Ha & Ht & Hw).
  split; [exact Ha |]. split; [exact Ht |].
  unfold wants_subscription in *. rewrite Hdims in *.
  cbn [set_runtime set_tracking set_active activeDimensions].
  now apply hasActiveValues_merge.
Qed.

Lemma cleanup_progress (cfg : Config) (s : State) :
  progress_invariant cfg (cleanup s).
Proof.
  split; [| discriminate].
  unfold counters_ok. cbn. split; [lia |]. split; [lia |]. split; [lia |].
  split; [discriminate | lia].
Qed.

Lemma step_progress (cfg : Config) (s : State) (op : Op) :
  progress_invariant cfg s -> progress_invariant cfg (step cfg s op).
Proof.
  intros H. destruct op; cbn [step].
  - exact H.
  - now apply requestFilters_progress.
  - now apply releaseFilters_progress.
  - now apply timerFires_progress.
  - now apply backfillDone_progress.
  - now apply handleIncomingData_progress.
  - apply cleanup_progress.
Qed.

Lemma init_progress (cfg : Config) : progress_invariant cfg (init cfg).
Proof.
  split; [| discriminate].
  unfold counters_ok. cbn. split; [lia |]. split; [lia |]. split; [lia |].
  split; [discriminate | lia].
Qed.

Lemma run_progress (cfg : Config) (ops : list Op) (s : State) :
  progress_invariant cfg s -> progress_invariant cfg (run cfg s ops).
Proof.
  revert s. induction ops as [| op ops IH]; intros s Hs; [assumption |].
  cbn [run fold_left]. apply IH. now apply step_progress.
Qed.

End RuntimeInvariant.

(** ** What holds in every state the manager reaches *)

Section ReachableStates.

Context {T K : Type}.
Variable getKey : T -> K.
Variable updatedAt : T -> option Z.

Local Abbreviation step := (step getKey updatedAt).
Local Abbreviation run := (run getKey updatedAt).

(** X16.  In every state the manager reaches at most one time-out is
    armed: it is the one [debounceTimer] holds, and the promise it will
    settle is still pending. *)
Theorem one_timer_armed (cfg : Config) (ops : list Op) :
  let s := run cfg (init cfg) ops in
  size (armed s) <= 1 /\
  (forall h, h ∈ armed s ->
     debounceTimer s = Some h /\ promises s !! h = Some Pending).
Proof.
  cbn zeta.
  destruct (run_runtime getKey updatedAt cfg ops (init cfg) (init_runtime cfg))
    as (Harmed & _).
  split; [| exact Harmed].
  set (s := run cfg (init cfg) ops) in *.
  destruct (debounceTimer s) as [h0 |] eqn:Hd.
  - assert (Hsub : armed s ⊆ {[h0]}).
    { intros h Hh. destruct (Harmed h Hh) as [[= ->] _]. set_solver. }
    apply subseteq_size in Hsub. now rewrite size_singleton in Hsub.
  - assert (Hempty : armed s = ∅).
    { apply set_eq. intros h. split; [| set_solver].
      intros Hh. now destruct (Harmed h Hh) as [[=] _]. }
    rewrite Hempty, size_empty. lia.
Qed.

(** X17.  When the backfill query of the suspended pass settles, the
    promise of that pass settles with it: fulfilled when the query
    returned, rejected when it failed; either way the processing flag is
    cleared and no pass is left suspended. *)
Theorem backfill_settles_promise (cfg : Config) (ops : list Op)
    (pass : Backfill) (collection : K -> option T) :
  let s := run cfg (init cfg) ops in
  inflight s = Some pass ->
  (forall items,
     let s' := step cfg s (OpBackfill (Some items) collection) in
     promises s' !! bf_promise pass = Some Fulfilled /\
     isProcessing s' = false /\ inflight s' = None) /\
  (let s' := step cfg s (OpBackfill None collection) in
   promises s' !! bf_promise pass = Some Rejected /\
   isProcessing s' = false /\ inflight s' = None).
Proof.
  cbn zeta. intros Hpass.
  destruct (run_runtime getKey updatedAt cfg ops (init cfg) (init_runtime cfg))
    as (_ & Hin & _).
  destruct (Hin pass Hpass) as [Hpending _].
  assert (Hlt : bf_promise pass < length (promises (run cfg (init cfg) ops)))
    by (eapply lookup_lt_Some; eauto).
  assert (Hsettle : forall outcome,
            settle (bf_promise pass) outcome (promises (run cfg (init cfg) ops))
            !! bf_promise pass = Some outcome).
  { intros outcome. unfold settle. rewrite Hpending.
    now apply list_lookup_insert_eq. }
  split; [intros items |]; cbn [step].
  - destruct (backfillDone_settles getKey updatedAt cfg _ (Some items) collection
                pass Hpass) as (_ & _ & -> & -> & ->).
    now rewrite Hsettle.
  - destruct (backfillDone_settles getKey updatedAt cfg _ None collection
                pass Hpass) as (_ & _ & -> & -> & ->).
    now rewrite Hsettle.
Qed.

(** X18.  While a live subscription exists, its [after] cursor is not
    negative and lies at least the tail overlap behind the global cursor
    (or at zero): deliveries that raise the global cursor never leave the
    subscription ahead of the overlap window. *)
Theorem subscription_cursor_bound (cfg : Config) (ops : list Op)
    (sub : Subscription) :
  let s := run cfg (init cfg) ops in
  currentSubscription s = Some sub ->
  (0 <= sub_after sub <= Z.max 0 (globalCursor s - tailOverlapMs cfg))%Z.
Proof.
  cbn zeta. intros Hsub.
  destruct (run_progress getKey updatedAt cfg ops (init cfg) (init_progress cfg))
    as [_ Hok].
  now destruct (Hok sub Hsub) as (H & _).
Qed.

(** X19.  The counter of messages since the last subscription is never
    negative, in any state the manager reaches; and while a live
    subscription exists under a positive threshold it stays below the
    threshold: reaching it resubscribes and resets the counter. *)
Theorem counter_below_threshold (cfg : Config) (ops : list Op) :
  let s := run cfg (init cfg) ops in
  (0 <= messagesSinceSubscription s)%Z /\
  (is_Some (currentSubscription s) ->
   (0 < resubscribeThreshold cfg)%Z ->
   (messagesSinceSubscription s < resubscribeThreshold cfg)%Z).
Proof.
  cbn zeta.
  destruct (run_progress getKey updatedAt cfg ops (init cfg) (init_progress cfg))
    as [(_ & Hm & _) Hok].
  split; [exact Hm |]. intros [sub Hsub] Hpos.
  destruct (Hok sub Hsub) as (_ & Hthr & _). auto.
Qed.

(** X20.  The global reference count is never negative, and the manager
    holds the global request exactly while the count is positive. *)
Theorem global_request_refcount (cfg : Config) (ops : list Op) :
  let s := run cfg (init cfg) ops in
  (0 <= globalRefCount s)%Z /\
  (hasRequestedGlobal s = true <-> (0 < globalRefCount s)%Z).
Proof.
  cbn zeta.
  destruct (run_progress getKey updatedAt cfg ops (init cfg) (init_progress cfg))
    as [(_ & _ & Hrc & Hhas) _].
  now split.
Qed.

(** X21.  A live subscription exists only while there is something to
    subscribe to: with no dimension configured the global request is held,
    and otherwise some dimension has an active value. *)
Theorem subscription_needs_values (cfg : Config) (ops : list Op) :
  let s := run cfg (init cfg) ops in
  is_Some (currentSubscription s) ->
  match filterDimensions cfg with
  | [] => hasRequestedGlobal s = true
  | _ => exists arg, active_values s arg ≠ ∅
  end.
Proof.
  cbn zeta. intros [sub Hsub].
  destruct (run_progress getKey updatedAt cfg ops (init cfg) (init_progress cfg))
    as [_ Hok].
  destruct (Hok sub Hsub) as (_ & _ & Hw). unfold wants_subscription in Hw.
  destruct (filterDimensions cfg); [exact Hw |].
  now apply hasActiveValues_spec in Hw.
Qed.

(** X22.  [cleanup] puts every field of the class but one back to what
    the constructor made it: one empty active set per configured
    dimension, no reference count, no pending value, cursor and counters
    at zero, no subscription, no callbacks, the ready mark and the global
    request cleared, [debounceTimer] null and no time-out left armed.  The
    one field it does not touch is [isProcessing], which stays as it
    was (set, when [cleanup] runs while a pass awaits its backfill). *)
Theorem cleanup_restores_constructor (cfg : Config) (ops : list Op) :
  let before := run cfg (init cfg) ops in
  let s := cleanup before in
  activeDimensions s = activeDimensions (init cfg) /\
  refCounts s = refCounts (init cfg) /\
  pendingFilters s = pendingFilters (init cfg) /\
  globalCursor s = globalCursor (init cfg) /\
  currentSubscription s = currentSubscription (init cfg) /\
  debounceTimer s = debounceTimer (init cfg) /\
  markedReady s = markedReady (init cfg) /\
  hasRequestedGlobal s = hasRequestedGlobal (init cfg) /\
  globalRefCount s = globalRefCount (init cfg) /\
  messagesSinceSubscription s = messagesSinceSubscription (init cfg) /\
  callbacks s = callbacks (init cfg) /\
  armed s = armed (init cfg) /\
  isProcessing s = isProcessing before.
Proof.
  cbn zeta. set (s0 := run cfg (init cfg) ops).
  pose proof (run_consistent getKey updatedAt cfg ops (init cfg)
                (init_consistent cfg)) as [Hdom _].
  pose proof (armed_cleared s0
                (run_runtime getKey updatedAt cfg ops (init cfg)
                   (init_runtime cfg))) as Hclear.
  fold s0 in Hdom. split.
  - cbn [cleanup activeDimensions init]. fold (empty_refs cfg).
    apply map_eq. intros arg. rewrite lookup_fmap.
    destruct (activeDimensions s0 !! arg) as [set |] eqn:E1;
      cbn [fmap option_fmap option_map].
    + assert (Harg : arg ∈ dom (empty_refs cfg)).
      { rewrite empty_refs_dom, <- Hdom. apply elem_of_dom. eauto. }
      apply elem_of_dom in Harg as [set' Hset']. rewrite Hset'. f_equal.
      symmetry. eapply empty_refs_lookup; eauto.
    + symmetry. apply not_elem_of_dom. rewrite empty_refs_dom, <- Hdom.
      now apply not_elem_of_dom.
  - cbn [cleanup init refCounts pendingFilters globalCursor currentSubscription
         debounceTimer markedReady hasRequestedGlobal globalRefCount
         messagesSinceSubscription callbacks armed isProcessing].
    rewrite Hclear. repeat split.
Qed.

(** X23.  In every state the manager reaches, the active sets are keyed
    by exactly the configured dimensions, and every reference count that
    is stored is positive (an entry that reaches zero is deleted). *)
Theorem tracking_is_consistent (cfg : Config) (ops : list Op) :
  let s := run cfg (init cfg) ops in
  dom (activeDimensions s) = dim_args cfg /\
  (forall key count, refCounts s !! key = Some count -> (0 < count)%Z).
Proof.
  cbn zeta.
  destruct (run_consistent getKey updatedAt cfg ops (init cfg)
              (init_consistent cfg)) as [Hdom Hpos].
  split; [exact Hdom |]. intros key count H. exact (Hpos key count H).
Qed.

End ReachableStates.

(** X24.  With at least one dimension configured, an [unloadSubset] call
    whose predicate yields no value for any dimension releases nothing:
    the manager is left as it was. *)
Theorem unload_without_values (cfg : Config) (s : State)
    (options : LoadSubsetOptions) :
  filterDimensions cfg <> [] ->
  (forall dim, In dim (filterDimensions cfg) ->
     extractFilterValues options (filterField dim) = []) ->
  unloadSubset cfg s options = s.
Proof.
  intros Hdims Hnone. unfold unloadSubset.
  destruct (filterDimensions cfg) as [| d dims] eqn:E; [congruence |].
  now rewrite extractMultiple_nil.
Qed.

(** ** Witnesses for the properties of reachable states *)

Lemma globalCursor_is_maximum_witness :
  let s := setCallbacks (init Scenario.channels) in
  let items :=
    [ {| Scenario.msg_id := "m1"; Scenario.msg_channelId := "c1";
         Scenario.msg_updatedAt := Some 5%Z |};
      {| Scenario.msg_id := "m2"; Scenario.msg_channelId := "c1";
         Scenario.msg_updatedAt := Some 3%Z |} ] in
  let cursor :=
    globalCursor
      (fst (handleIncomingData Scenario.msg_id Scenario.msg_updatedAt
              Scenario.channels s Scenario.no_records items)) in
  (globalCursor s <= cursor)%Z /\
  (forall item ts, In item items -> Scenario.msg_updatedAt item = Some ts ->
     (ts <= cursor)%Z) /\
  (cursor = globalCursor s \/
   exists item, In item items /\ Scenario.msg_updatedAt item = Some cursor).
Proof.
  intros s items.
  apply (globalCursor_is_maximum Scenario.msg_id Scenario.msg_updatedAt
           Scenario.channels s Scenario.no_records items).
  reflexivity.
Defined.

Lemma overlap_batch_is_noop_witness :
  let m :=
    {| Scenario.msg_id := "m1"; Scenario.msg_channelId := "c1";
       Scenario.msg_updatedAt := Some 20000%Z |} in
  let s :=
    Scenario.run' Scenario.channels (init Scenario.channels)
      [OpSetCallbacks; OpRequest Scenario.c1; OpTimer 0;
       OpBackfill (Some [m]) Scenario.no_records] in
  fst (handleIncomingData Scenario.msg_id Scenario.msg_updatedAt
         Scenario.channels s (fun _ => Some m) [m]) = s.
Proof.
  intros m s.
  apply (overlap_batch_is_noop Scenario.msg_id Scenario.msg_updatedAt
           Scenario.channels s (fun _ => Some m) [m]).
  - intros item ts [<- | []] [= <-]. apply Z.leb_le. vm_compute. reflexivity.
  - apply Z.ltb_lt. vm_compute. reflexivity.
Defined.

Lemma backfill_settles_promise_witness :
  let s :=
    run Scenario.msg_id Scenario.msg_updatedAt Scenario.channels
      (init Scenario.channels)
      [OpSetCallbacks; OpRequest Scenario.c1; OpTimer 0] in
  (forall items,
     let s' :=
       step Scenario.msg_id Scenario.msg_updatedAt Scenario.channels s
         (OpBackfill (Some items) Scenario.no_records) in
     promises s' !! 0 = Some Fulfilled /\
     isProcessing s' = false /\ inflight s' = None) /\
  (let s' :=
     step Scenario.msg_id Scenario.msg_updatedAt Scenario.channels s
       (OpBackfill None Scenario.no_records) in
   promises s' !! 0 = Some Rejected /\
   isProcessing s' = false /\ inflight s' = None).
Proof.
  apply (backfill_settles_promise Scenario.msg_id Scenario.msg_updatedAt
           Scenario.channels
           [OpSetCallbacks; OpRequest Scenario.c1; OpTimer 0]
           {| bf_promise := 0; bf_filters := Some Scenario.c1 |}
           Scenario.no_records).
  vm_compute. reflexivity.
Defined.

Lemma subscription_cursor_bound_witness :
  let m1 :=
    {| Scenario.msg_id := "m1"; Scenario.msg_channelId := "c1";
       Scenario.msg_updatedAt := Some 20000%Z |} in
  let m2 :=
    {| Scenario.msg_id := "m2"; Scenario.msg_channelId := "c1";
       Scenario.msg_updatedAt := Some 50000%Z |} in
  let s :=
    run Scenario.msg_id Scenario.msg_updatedAt Scenario.channels
      (init Scenario.channels)
      [OpSetCallbacks; OpRequest Scenario.c1; OpTimer 0;
       OpBackfill (Some [m1]) Scenario.no_records;
       OpDelivery Scenario.no_records [m2]] in
  (0 <= 10000 <= Z.max 0 (globalCursor s - 10000))%Z.
Proof.
  intros m1 m2 s.
  apply (subscription_cursor_bound Scenario.msg_id Scenario.msg_updatedAt
           Scenario.channels
           [OpSetCallbacks; OpRequest Scenario.c1; OpTimer 0;
            OpBackfill (Some [m1]) Scenario.no_records;
            OpDelivery Scenario.no_records [m2]]
           {| sub_after := 10000; sub_dimensions := activeDimensions s |}).
  vm_compute. reflexivity.
Defined.

Lemma counter_below_threshold_witness :
  let m2 :=
    {| Scenario.msg_id := "m2"; Scenario.msg_channelId := "c1";
       Scenario.msg_updatedAt := Some 50000%Z |} in
  let s :=
    run Scenario.msg_id Scenario.msg_updatedAt Scenario.channels
      (init Scenario.channels)
      [OpSetCallbacks; OpRequest Scenario.c1; OpTimer 0;
       OpBackfill (Some []) Scenario.no_records;
       OpDelivery Scenario.no_records [m2]] in
  (messagesSinceSubscription s < 10)%Z.
Proof.
  intros m2 s.
  apply (proj2 (counter_below_threshold Scenario.msg_id Scenario.msg_updatedAt
                  Scenario.channels
                  [OpSetCallbacks; OpRequest Scenario.c1; OpTimer 0;
                   OpBackfill (Some []) Scenario.no_records;
                   OpDelivery Scenario.no_records [m2]])).
  - vm_compute. eauto.
  - reflexivity.
Defined.

Lemma subscription_needs_values_witness :
  let s :=
    run Scenario.msg_id Scenario.msg_updatedAt Scenario.channels
      (init Scenario.channels)
      [OpSetCallbacks; OpRequest Scenario.c1; OpTimer 0;
       OpBackfill (Some []) Scenario.no_records] in
  exists arg, active_values s arg ≠ ∅.
Proof.
  apply (subscription_needs_values Scenario.msg_id Scenario.msg_updatedAt
           Scenario.channels
           [OpSetCallbacks; OpRequest Scenario.c1; OpTimer 0;
            OpBackfill (Some []) Scenario.no_records]).
  vm_compute. eauto.
Defined.

Lemma unload_without_values_witness :
  let options :=
    {| where_ := Some (Func "eq" [Ref ["msg"; "clientId"]; Val (VString "x")]) |} in
  unloadSubset Scenario.channels (init Scenario.channels) options
  = init Scenario.channels.
Proof.
  intros options. apply unload_without_values.
  - discriminate.
  - intros dim [<- | []]. reflexivity.
Defined.

(** ** Composite keys tell combinations apart *)

(** X25.  Two combinations get the same composite key only if they name
    the same arguments and, under each argument, hold the same stable keys
    once sorted: combinations that differ in a value never share a
    reference count. *)
Theorem createCompositeKey_injective (filters filters' : ExtractedFilters) :
  createCompositeKey filters = createCompositeKey filters' ->
  forall arg,
    (fun values => sort_strings (map toKey values)) <$> obj_get arg filters
    = (fun values => sort_strings (map toKey values)) <$> obj_get arg filters'.
Proof.
  intros Hkey arg.
  assert (Hparse : forall f,
            parse (createCompositeKey f) = Some (json_of_sorted (sorted_filters f))).
  { intros f. unfold createCompositeKey. apply JsonFacts.parse_stringify.
    apply json_of_sorted_wf, sorted_filters_nodup. }
  pose proof (Hparse filters) as H. rewrite Hkey, Hparse in H.
  injection H as Hmembers.
  assert (Hget : forall f,
            obj_get arg
              (map (fun kv : string * list string =>
                      (fst kv, JArr (map JStr (snd kv)))) (sorted_filters f))
            = key_array <$> obj_get arg f).
  { intros f.
    pose proof (obj_get_map (fun vals => JArr (map JStr vals)) arg
                  (sorted_filters f)) as E.
    cbn beta in E. rewrite E, sorted_filters_get.
    now destruct (obj_get arg f). }
  pose proof (Hget filters) as H. rewrite <- Hmembers, Hget in H.
  destruct (obj_get arg filters) as [values |],
           (obj_get arg filters') as [values' |];
    cbn in *; try congruence.
  injection H as H. f_equal.
  assert (Hinj : forall l l' : list string, map JStr l = map JStr l' -> l = l').
  { induction l as [| x l IH]; intros [| x' l'] E; try discriminate;
      [reflexivity |].
    cbn in E. injection E as -> E. f_equal. now apply IH. }
  symmetry. now apply Hinj.
Qed.

Lemma createCompositeKey_injective_witness :
  (fun values => sort_strings (map toKey values))
    <$> obj_get "pageIds" [("pageIds", [VString "p1"; VString "p2"]);
                           ("authorIds", [VString "u1"])]
  = (fun values => sort_strings (map toKey values))
    <$> obj_get "pageIds" [("authorIds", [VString "u1"]);
                           ("pageIds", [VString "p2"; VString "p1"])].
Proof.
  apply (createCompositeKey_injective
           [("pageIds", [VString "p1"; VString "p2"]);
            ("authorIds", [VString "u1"])]
           [("authorIds", [VString "u1"]);
            ("pageIds", [VString "p2"; VString "p1"])]).
  vm_compute. reflexivity.
Defined.

(** ** Late results after [cleanup] *)

Section AfterCleanup.

Context {T K : Type}.
Variable getKey : T -> K.
Variable updatedAt : T -> option Z.

Local Abbreviation handleIncomingData := (handleIncomingData getKey updatedAt).
Local Abbreviation backfillDone := (backfillDone getKey updatedAt).

Lemma hasActiveValues_cleared (active : gmap string (gset string)) :
  hasActiveValues ((fun _ => (∅ : gset string)) <$> active) = false.
Proof.
  destruct (hasActiveValues _) eqn:E; [| reflexivity].
  apply hasActiveValues_spec in E as (arg & Hne).
  rewrite lookup_fmap in Hne. now destruct (active !! arg).
Qed.

(** X26.  Results that arrive after [cleanup] are ignored: a delivery of
    the old subscription changes nothing and writes nothing, and a
    backfill that returns or fails then writes nothing to the host, marks
    nothing ready and starts no subscription; the tracker stays
    cleared. *)
Theorem results_after_cleanup (cfg : Config) (s : State)
    (result : option (list T)) (collection : K -> option T) (items : list T) :
  let c := cleanup s in
  let s' := fst (backfillDone cfg c result collection) in
  handleIncomingData cfg c collection items = (c, []) /\
  snd (backfillDone cfg c result collection) = [] /\
  activeDimensions s' = activeDimensions c /\
  refCounts s' = ∅ /\ pendingFilters s' = [] /\
  globalCursor s' = 0%Z /\ currentSubscription s' = None /\
  markedReady s' = false /\ callbacks s' = false.
Proof.
  cbn zeta. split; [reflexivity |].
  unfold backfillDone. destruct (inflight (cleanup s)); [| now cbn].
  destruct result as [batch |]; [| now cbn].
  change (handleIncomingData cfg (cleanup s) collection batch)
    with (cleanup s, @nil (@HostEvent T)).
  assert (Hnone : currentSubscription (updateSubscription cfg (cleanup s)) = None).
  { unfold updateSubscription. cbn [currentSubscription].
    destruct (filterDimensions cfg); [reflexivity |].
    cbn [cleanup activeDimensions]. now rewrite hasActiveValues_cleared. }
  cbn -[updateSubscription cleanup] in *. repeat split; try reflexivity.
  exact Hnone.
Qed.

End AfterCleanup.

(** ** Runs with several backfills, and a predicate on a tracked field *)

Lemma globalCursor_monotone_witness :
  let m (id : string) (ts : Z) :=
    {| Scenario.msg_id := id; Scenario.msg_channelId := "c1";
       Scenario.msg_updatedAt := Some ts |} in
  let before : list Scenario.Op' :=
    [OpSetCallbacks; OpRequest Scenario.c1; OpTimer 0;
     OpBackfill (Some [m "a" 5%Z; m "b" 900%Z]) Scenario.no_records] in
  let after : list Scenario.Op' :=
    [OpRequest Scenario.c2; OpTimer 1;
     OpBackfill (Some [m "c" 100%Z; m "d" 1200%Z]) Scenario.no_records;
     OpDelivery Scenario.no_records [m "e" 50%Z];
     OpRelease Scenario.c1] in
  (globalCursor (Scenario.run' Scenario.channels (init Scenario.channels) before)
   <= globalCursor
        (Scenario.run' Scenario.channels (init Scenario.channels)
           (before ++ after)))%Z
  /\
  (let acc : Z * Z * list WriteMessage := (900%Z, 0%Z, []) in
   let cursor' :=
     fst (fst (reconcile Scenario.msg_id Scenario.msg_updatedAt
                 Scenario.no_records 900%Z acc (m "c" 100%Z))) in
   cursor' = 900%Z \/
   ((900 < cursor')%Z /\ Scenario.msg_updatedAt (m "c" 100%Z) = Some cursor')).
Proof.
  intros m before after.
  apply (globalCursor_monotone Scenario.msg_id Scenario.msg_updatedAt
           Scenario.channels (init Scenario.channels) before after
           Scenario.no_records 900%Z (900%Z, 0%Z, []) (m "c" 100%Z)).
  repeat constructor; discriminate.
Defined.

Lemma hasFilterField_spec_witness :
  hasFilterField
    {| where_ :=
         Some (Func "and"
                 [Func "eq" [Ref ["m"; "status"]; Val (VString "open")];
                  Func "eq" [Val (VString "c1"); Ref ["m"; "channelId"]]]) |}
    "channelId" = true.
Proof.
  apply hasFilterField_spec.
  exists (Func "and"
            [Func "eq" [Ref ["m"; "status"]; Val (VString "open")];
             Func "eq" [Val (VString "c1"); Ref ["m"; "channelId"]]]),
         (VString "c1").
  split; [reflexivity |].
  apply (constrained_operand "channelId" "and" _
           (Func "eq" [Val (VString "c1"); Ref ["m"; "channelId"]]));
    [discriminate | discriminate | right; now left |].
  apply constrained_eq_val_ref. apply references_aliased.
Defined.

(** * The codec and the extractor on every JavaScript value *)

Section AnyCodec.

Lemma collect_map_returned {A B} (f : A -> Any.outcome B) (g : A -> B) (l : list A) :
  (forall x, In x l -> f x = Any.Returned (g x)) ->
  Any.collect (map f l) = Any.Returned (map g l).
Proof.
  induction l as [| x l IH]; intros Hall; [reflexivity |].
  cbn [map Any.collect]. rewrite (Hall x) by now left.
  rewrite IH; [reflexivity |]. intros y Hy. apply Hall. now right.
Qed.



Lemma present_some {A} (j : A -> json) (l : list (string * A)) :
  Any.present (map (fun kv => (fst kv, Some (j (snd kv)))) l)
  = map (fun kv => (fst kv, j (snd kv))) l.
Proof.
  induction l as [| [k x] l IH]; [reflexivity |].
  cbn [map Any.present fst snd]. now rewrite IH.
Qed.

Lemma combine_fst_map {A B} (g : A -> B) (l : list (string * A)) :
  combine (map fst l) (map (fun kv => g (snd kv)) l)
  = map (fun kv => (fst kv, g (snd kv))) l.
Proof.
  induction l as [| [k x] l IH]; [reflexivity |].
  cbn [map combine fst snd]. now rewrite IH.
Qed.

Lemma obj_set_map {A B} (g : A -> B) (k : string) (v : A)
    (o : list (string * A)) :
  obj_set k (g v) (map (fun kv => (fst kv, g (snd kv))) o)
  = map (fun kv => (fst kv, g (snd kv))) (obj_set k v o).
Proof.
  induction o as [| [k' v'] o IH]; [reflexivity |].
  cbn [map obj_set fst snd]. destruct (String.eqb k' k); [reflexivity |].
  cbn [map fst snd]. now rewrite IH.
Qed.

Lemma obj_of_entries_map {A B} (g : A -> B) (es : list (string * A)) :
  obj_of_entries (map (fun kv => (fst kv, g (snd kv))) es)
  = map (fun kv => (fst kv, g (snd kv))) (obj_of_entries es).
Proof.
  unfold obj_of_entries.
  change (@nil (string * B))
    with (map (fun kv : string * A => (fst kv, g (snd kv))) []) at 1.
  generalize (@nil (string * A)).
  induction es as [| [k v] es IH]; intros acc; [reflexivity |].
  cbn [map fold_left fst snd]. rewrite obj_set_map. apply IH.
Qed.

Lemma obj_of_entries_In {A} (es : list (string * A)) (kv : string * A) :
  In kv (obj_of_entries es) -> In kv es.
Proof. intros H. now apply obj_fold_In in H as [[] | H]. Qed.

(** On a Any.data value [JSON.stringify] writes the tree that the codec on
    Any.data values serializes it to. *)
Lemma property_data (v : value) :
  Any.property (Any.serializeValue (Any.data v)) = Any.Returned (Some (serializeValue v)).
Proof.
  induction v as [| | b | n | s | d | l IH | m IH] using value_ind;
    try reflexivity.
  - destruct n; reflexivity.
  - destruct d; reflexivity.
  - cbn [Any.data Any.serializeValue Any.property serializeValue]. unfold Any.elements.
    rewrite !map_map.
    rewrite (collect_map_returned _ (fun x => Some (serializeValue x))).
    + rewrite map_map. reflexivity.
    + intros x Hx. rewrite List.Forall_forall in IH. now apply IH.
  - cbn [Any.data Any.serializeValue Any.property serializeValue].
    rewrite map_map. cbn [fst snd].
    rewrite (obj_of_entries_map (fun x => Any.serializeValue (Any.data x)) m).
    rewrite (obj_of_entries_map serializeValue m).
    rewrite map_map. cbn [fst snd]. unfold Any.members.
    rewrite !map_map. cbn [fst snd].
    rewrite (collect_map_returned _
               (fun kv : string * value => Some (serializeValue (snd kv)))).
    + rewrite (combine_fst_map (fun x => Some (serializeValue x))).
      now rewrite (present_some serializeValue).
    + intros kv Hkv. apply obj_of_entries_In in Hkv.
      rewrite List.Forall_forall in IH. now apply IH.
Qed.

Lemma toKey_data (v : value) :
  Any.toKey (Any.data v) = Any.Returned (Some (toKey v)).
Proof. unfold Any.toKey, Any.JSON_stringify. now rewrite property_data. Qed.






End AnyCodec.

(** ** The extractor on every predicate tree *)

Section AnyExtractor.

Lemma walk_constrained_values (e : Any.expr) (f : string) :
  Any.walkExpression e f = Any.constrained_values f e.
Proof.
  induction e as [path | w | name args IH] using Any.expr_ind;
    [reflexivity | reflexivity |].
  cbn [Any.walkExpression Any.constrained_values].
  assert (Hm : forall path (a b : list Any.unknown),
            (if propRefMatchesField path f then a else b)
            = (if decide (references f path) then a else b)).
  { intros path a b. destruct (decide (references f path)) as [Hr | Hr].
    - now rewrite (proj2 (propRefMatchesField_references path f) Hr).
    - destruct (propRefMatchesField path f) eqn:E; [| reflexivity].
      now apply propRefMatchesField_references in E. }
  destruct (String.eqb_spec name "eq") as [-> | Hneq].
  { rewrite decide_True by reflexivity.
    destruct args as [| [p | w | ? ?] [| [p' | w' | ? ?] [| ? ?]]];
      cbn [Any.extractFromEq]; try reflexivity; apply Hm. }
  rewrite decide_False by assumption.
  destruct (String.eqb_spec name "in") as [-> | Hnin].
  { rewrite decide_True by reflexivity.
    destruct args as [| [p | w | ? ?] [| [p' | w' | ? ?] [| ? ?]]];
      cbn [Any.extractFromIn]; try reflexivity;
      destruct w'; try reflexivity; apply Hm. }
  rewrite decide_False by assumption.
  rewrite flat_map_concat_map. f_equal. apply map_ext_in.
  intros arg Harg. rewrite List.Forall_forall in IH. now apply IH.
Qed.

Section AnyKey.

Variable key : Any.unknown -> Any.outcome (option string).

Lemma any_first_seen_In (values : list Any.unknown) (v : Any.unknown) :
  In v (Any.first_seen key values) -> In v values.
Proof.
  induction values as [| x rest IH]; [trivial |]. cbn [Any.first_seen].
  intros [-> | Hin]; [now left | right].
  apply List.filter_In in Hin as [Hin _]. now apply IH.
Qed.

Lemma any_unique_loop (values : list Any.unknown) :
  forall seen,
    Any.unique_loop key seen values
    = if existsb (fun v => Any.throws (key v)) values
      then Any.Thrown
      else Any.Returned
             (List.filter
                (fun w => negb (bool_decide (Any.returned_key key w ∈ seen)))
                (Any.first_seen key values)).
Proof.
  induction values as [| v rest IH]; intros seen; [reflexivity |].
  destruct (key v) as [k |] eqn:Hv.
  2:{ cbn [Any.unique_loop existsb]. now rewrite Hv. }
  assert (Hloop : Any.unique_loop key seen (v :: rest)
                  = if bool_decide (k ∈ seen)
                    then Any.unique_loop key seen rest
                    else match Any.unique_loop key ({[k]} ∪ seen) rest with
                         | Any.Returned unique => Any.Returned (v :: unique)
                         | Any.Thrown => Any.Thrown
                         end).
  { cbn [Any.unique_loop]. now rewrite Hv. }
  assert (Ht : Any.throws (key v) = false) by now rewrite Hv.
  assert (Hrk : Any.returned_key key v = k)
    by (unfold Any.returned_key; now rewrite Hv).
  rewrite Hloop. cbn [existsb Any.first_seen List.filter].
  rewrite Ht, Hrk. cbn [orb].
  assert (Hsame : existsb (fun v => Any.throws (key v)) rest = false ->
            forall w, In w (Any.first_seen key rest) ->
              bool_decide (key w = key v)
              = bool_decide (Any.returned_key key w = k)).
  { intros Hnone w Hw. apply any_first_seen_In in Hw.
    apply bool_decide_ext. unfold Any.returned_key. rewrite Hv.
    destruct (key w) eqn:E; [split; congruence |].
    assert (existsb (fun v => Any.throws (key v)) rest = true)
      by (apply existsb_exists; exists w; now rewrite E).
    congruence. }
  destruct (bool_decide_reflect (k ∈ seen)) as [Hin | Hout]; cbn [negb].
  - rewrite IH.
    destruct (existsb _ rest) eqn:Hnone; [reflexivity |]. f_equal.
    rewrite filter_filter_bool. apply List.filter_ext_in. intros w Hw.
    rewrite (Hsame eq_refl w Hw).
    destruct (bool_decide_reflect (Any.returned_key key w = k)) as [Heq | Hne];
      cbn [negb andb]; [| reflexivity].
    rewrite Heq. now rewrite bool_decide_eq_true_2.
  - rewrite IH.
    destruct (existsb _ rest) eqn:Hnone; [reflexivity |]. do 2 f_equal.
    rewrite filter_filter_bool. apply List.filter_ext_in. intros w Hw.
    rewrite (Hsame eq_refl w Hw).
    destruct (bool_decide_reflect (Any.returned_key key w = k)) as [Heq | Hne];
      cbn [negb andb].
    + rewrite Heq. rewrite bool_decide_eq_true_2; [reflexivity | set_solver].
    + destruct (bool_decide_reflect (Any.returned_key key w ∈ seen))
        as [Hw' | Hw'].
      * rewrite bool_decide_eq_true_2; [reflexivity | set_solver].
      * rewrite bool_decide_eq_false_2; [reflexivity |].
        rewrite elem_of_union, elem_of_singleton. tauto.
Qed.

(** C9.  Without a predicate tree the extractor returns the empty list.
    With a tree, take the literals the tree constrains the field to, in
    the order the tree lists them: through equality nodes in either
    operand order, through set-membership nodes with the reference on the
    left and the literal array on the right, and inside the operands of
    every other function node.  When [toKey] throws on one of them the
    extractor throws; otherwise it returns these literals deduplicated by
    stable key, in first-seen order.  This holds whatever [toKey]
    computes ([key] below); with the [toKey] of the codec the extractor
    throws on a literal that holds a bigint. *)
Theorem extractFilterValues_spec (options : Any.LoadSubsetOptions) (f : string) :
  match Any.where_ options with
  | None => Any.extractFilterValues key options f = Any.Returned []
  | Some e =>
      let literals := Any.constrained_values f e in
      if existsb (fun v => Any.throws (key v)) literals
      then Any.extractFilterValues key options f = Any.Thrown
      else Any.extractFilterValues key options f
           = Any.Returned (Any.first_seen key literals)
  end.
Proof.
  unfold Any.extractFilterValues.
  destruct (Any.where_ options) as [e |]; [| reflexivity]. cbn zeta.
  rewrite walk_constrained_values, any_unique_loop.
  destruct (existsb _ _); [reflexivity |]. f_equal.
  rewrite <- (List.filter_ext (fun _ => true)).
  - induction (Any.first_seen _ _) as [| x l IHl]; [reflexivity |].
    simpl. now rewrite IHl.
  - intros w. rewrite bool_decide_eq_false_2; [reflexivity | set_solver].
Qed.

End AnyKey.

(** On predicate trees over data values the extractor above is the
    extractor on data values. *)
Lemma walkExpression_data (e : expr) (f : string) :
  Any.walkExpression (data_expr e) f = map Any.data (walkExpression e f).
Proof.
  induction e as [path | w | name args IH] using expr_ind;
    [reflexivity | reflexivity |].
  cbn [data_expr Any.walkExpression walkExpression].
  destruct (String.eqb name "eq").
  { destruct args as [| [p | w | ? ?] [| [p' | w' | ? ?] [| ? ?]]];
      cbn [map data_expr Any.extractFromEq extractFromEq]; try reflexivity;
      now destruct (propRefMatchesField _ f). }
  destruct (String.eqb name "in").
  { destruct args as [| [p | w | ? ?] [| [p' | w' | ? ?] [| ? ?]]];
      cbn [map data_expr Any.extractFromIn extractFromIn]; try reflexivity.
    destruct w'; cbn [Any.data]; try reflexivity.
    now destruct (propRefMatchesField _ f). }
  rewrite !flat_map_concat_map, concat_map, !map_map. f_equal.
  apply map_ext_in. intros arg Harg.
  rewrite List.Forall_forall in IH. now apply IH.
Qed.

Lemma unique_loop_data (values : list value) :
  forall seen : gset string,
    Any.unique_loop Any.toKey (set_map Some seen) (map Any.data values)
    = Any.Returned (map Any.data (unique_loop seen values)).
Proof.
  induction values as [| v rest IH]; intros seen; [reflexivity |].
  cbn [map Any.unique_loop unique_loop]. rewrite toKey_data.
  assert (Hmem : bool_decide (Some (toKey v) ∈ (set_map Some seen : gset (option string)))
                 = bool_decide (toKey v ∈ seen)).
  { apply bool_decide_ext. rewrite elem_of_map. split.
    - intros (k & [= ->] & Hk). exact Hk.
    - intros Hk. eauto. }
  rewrite Hmem. destruct (bool_decide (toKey v ∈ seen)); [apply IH |].
  assert (Hset : ({[Some (toKey v)]} ∪ set_map Some seen : gset (option string))
                 = set_map Some ({[toKey v]} ∪ seen)).
  { now rewrite set_map_union_L, set_map_singleton_L. }
  rewrite Hset, IH. reflexivity.
Qed.

Lemma extractFilterValues_data (options : LoadSubsetOptions) (f : string) :
  Any.extractFilterValues Any.toKey (data_options options) f
  = Any.Returned (map Any.data (extractFilterValues options f)).
Proof.
  unfold Any.extractFilterValues, extractFilterValues, data_options.
  cbn [Any.where_]. destruct (where_ options) as [e |]; [| reflexivity].
  cbn [fmap option_fmap option_map]. rewrite walkExpression_data.
  rewrite <- (unique_loop_data (walkExpression e f) ∅).
  now rewrite set_map_empty.
Qed.

End AnyExtractor.

Lemma extractFilterValues_spec_witness :
  Any.extractFilterValues Any.toKey
    {| Any.where_ :=
         Some (Any.Func "and"
                 [Any.Func "eq" [Any.Val (Any.UString "c2");
                                 Any.Ref ["channelId"]];
                  Any.Func "or"
                    [Any.Func "in"
                       [Any.Ref ["m"; "channelId"];
                        Any.Val (Any.UArray [Any.UString "c3"; Any.UString "c2";
                                             Any.UString "c1"])];
                     Any.Func "eq" [Any.Ref ["m"; "status"];
                                    Any.Val (Any.UString "open")]]]) |}
    "channelId"
  = Any.Returned [Any.UString "c2"; Any.UString "c3"; Any.UString "c1"].
Proof.
  exact (extractFilterValues_spec Any.toKey
           {| Any.where_ :=
                Some (Any.Func "and"
                        [Any.Func "eq" [Any.Val (Any.UString "c2");
                                        Any.Ref ["channelId"]];
                         Any.Func "or"
                           [Any.Func "in"
                              [Any.Ref ["m"; "channelId"];
                               Any.Val (Any.UArray [Any.UString "c3";
                                                    Any.UString "c2";
                                                    Any.UString "c1"])];
                            Any.Func "eq" [Any.Ref ["m"; "status"];
                                           Any.Val (Any.UString "open")]]]) |}
           "channelId").
Defined.

(** C9 as stated fails: on a predicate that compares the field with a
    bigint literal the tree constrains the field to that literal, and the
    extractor throws instead of returning it. *)
Lemma extractFilterValues_bigint_counterexample :
  let e :=
    Any.Func "eq" [Any.Ref ["m"; "pageId"];
                   Any.Val (Any.UOther (Any.OBigInt 10))] in
  Any.constrained_values "pageId" e = [Any.UOther (Any.OBigInt 10)] /\
  Any.extractFilterValues Any.toKey {| Any.where_ := Some e |} "pageId"
  = Any.Thrown /\
  ~ (exists values,
       Any.extractFilterValues Any.toKey {| Any.where_ := Some e |} "pageId"
       = Any.Returned values).
Proof.
  intros e. split; [reflexivity |]. split; [reflexivity |].
  intros [values H]. vm_compute in H. discriminate.
Qed.

